(** * COT-Monitor: the derived-metrics pipeline of [plot_cftc_data]

    A shallow embedding of the data preparation done by
    [src/plotting.py : plot_cftc_data] before anything is drawn:
    sorting by date, forward filling, the net-position columns, the
    per-column change / percentile-rank columns, the date-range filter
    and the list of chart annotations; and of the choices the function
    makes on the way to the chart: the columns it offers and selects,
    the default date range, the colours, the hover texts and the
    subplot rows.

    Conventions of the model.
    - A [DataFrame] is a list of column names together with a list of
      rows; a row is a [date] and a finite map from column names to
      values.  A name that is absent from the map of a row is a [NaN]
      cell of that row.  Every column other than [date] is numeric.
    - Finite floating point values are idealised as exact rationals
      ([Q]); the two infinities that float division by zero produces are
      kept ([FVal]).  [round1] is numpy's [round(1)]: scale by ten, round
      half to even, scale back.
    - The change percentage is computed as the code computes it, in
      double precision: the cells are taken to hold doubles (whole
      numbers up to [2 ^ 53] are), and every operation returns the double
      nearest to its exact result ([binary64]).  The sign of a zero is
      not kept, and the double nearest to [k / 10] that ends a rounding
      to one decimal is written [k / 10].
    - The derived columns [<col>_change], [<col>_change_pct],
      [<col>_pct_5yr], ... are kept in a record per source column
      ([Derived]) instead of under concatenated names; the input is taken
      not to carry columns with those suffixed names already.
    - Every row has a date, and the index labels of the input are
      unique, so that [.loc] with the labels of a selection addresses
      the selected rows by position.
    - A [KeyError] or the failure on an empty frame is a result [None].
    - The state of a checkbox is a function of the column name, which
      is its widget key; [str.lower] is modelled on names in ASCII. *)

From Stdlib Require Import QArith Qabs Qpower Qround Lia Lqa.
From stdpp Require Import base option list sorting gmap strings.

Local Open Scope Q_scope.

(** ** Rounding to one decimal place *)

(** Round half to even, as [numpy.rint]. *)
Definition round_half_even (q : Q) : Z :=
  let f := Qfloor q in
  match Qcompare (q - inject_Z f) (1 # 2) with
  | Lt => f
  | Gt => (f + 1)%Z
  | Eq => if Z.even f then f else (f + 1)%Z
  end.

(** [Series.round(1)]. *)
Definition round1 (q : Q) : Q := inject_Z (round_half_even (q * 10)) / 10.

(** ** Float results: a finite value, an infinity, or NaN *)

Inductive FVal : Type :=
| NaN
| PInf
| NInf
| Fin (q : Q).

Definition qltb (a b : Q) : bool := negb (Qle_bool b a).

(** [pd.isna] *)
Definition isna (x : FVal) : bool :=
  match x with NaN => true | _ => false end.

(** [x > 0] on a float that is not NaN *)
Definition fpositive (x : FVal) : bool :=
  match x with
  | PInf => true
  | Fin q => qltb 0 q
  | _ => false
  end.

(** The exponent of the last binary place of the double nearest to
    [q]: [floor (log2 |q|) - 52], and [-1074] for the subnormal
    numbers. *)
Definition ulp_exp (q : Q) : Z :=
  let g := (Z.log2 (Z.abs (Qnum q)) - Z.log2 (Zpos (Qden q)))%Z in
  let l := if Qle_bool (2 ^ g) (Qabs q) then g else (g - 1)%Z in
  Z.max (l - 52) (-1074).

(** The double nearest to a rational: 53 binary digits, ties to the
    even last digit; from [2 ^ 1024] on the result is an infinity. *)
Definition binary64 (q : Q) : FVal :=
  if Qeq_bool q 0 then Fin 0
  else
    let e := ulp_exp q in
    let r := inject_Z (round_half_even (q / 2 ^ e)) * 2 ^ e in
    if Qle_bool (2 ^ 1024) (Qabs r) then (if qltb 0 q then PInf else NInf)
    else Fin (Qred r).

(** Float division [a / b] of two cells: a missing operand gives NaN,
    [0 / 0] gives NaN and [x / 0] an infinity with the sign of [x];
    otherwise the double nearest to the quotient. *)
Definition fdiv (a b : option Q) : FVal :=
  match a, b with
  | Some x, Some y =>
      if Qeq_bool y 0 then
        (if Qeq_bool x 0 then NaN else if qltb 0 x then PInf else NInf)
      else binary64 (x / y)
  | _, _ => NaN
  end.

(** A rational function applied to a float, where the result is a
    double as it stands: it acts on finite values, NaN and the
    infinities are kept. *)
Definition fin_map (f : Q -> Q) (x : FVal) : FVal :=
  match x with Fin q => Fin (f q) | _ => x end.

(** An operation on a double: on a finite value the double nearest to
    the exact result; NaN and the infinities are kept (the operations
    used below are increasing, so an infinity keeps its sign). *)
Definition fl_map (f : Q -> Q) (x : FVal) : FVal :=
  match x with Fin q => binary64 (f q) | _ => x end.

(** [Series.round(1)] on doubles, as numpy does it: multiply by ten,
    round to the nearest whole number, ties to even, divide by ten. *)
Definition round1_double (x : FVal) : FVal :=
  fin_map (fun q => inject_Z (round_half_even q) / 10) (fl_map (fun q => q * 10) x).

(** ** Calendar dates *)

Record Date : Type := mk_date { year : Z; month : positive; day : positive }.

Definition date_cmp (a b : Date) : comparison :=
  match (year a ?= year b)%Z with
  | Eq => match (month a ?= month b)%positive with
          | Eq => (day a ?= day b)%positive
          | c => c
          end
  | c => c
  end.

Definition date_leb (a b : Date) : bool :=
  match date_cmp a b with Gt => false | _ => true end.

Definition date_le (a b : Date) : Prop := date_leb a b = true.

#[global] Instance date_le_dec : RelDecision date_le.
Proof. intros a b. unfold date_le. apply _. Defined.

#[global] Instance Date_eq_dec : EqDecision Date.
Proof. solve_decision. Defined.

(** ** Data frames *)

(** A row: its [date] and its numeric cells; an absent name is a NaN cell. *)
Record Row : Type := mk_row { date : Date; cells : gmap string Q }.

Record DataFrame : Type := mk_frame { columns : list string; rows : list Row }.

(** [c in data.columns] *)
Definition has (c : string) (d : DataFrame) : bool := bool_decide (c ∈ columns d).

(** [data[c]] as a list of cells, in row order. *)
Definition column (c : string) (l : list Row) : list (option Q) :=
  (fun r => cells r !! c) <$> l.

(** [data[c] = f(row)]: the column is appended when it is new and
    overwritten when it exists. *)
Definition assign (c : string) (f : Row -> option Q) (d : DataFrame) : DataFrame :=
  mk_frame (if has c d then columns d else columns d ++ [c])
           ((fun r => mk_row (date r) (partial_alter (fun _ => f r) c (cells r)))
              <$> rows d).

(** ** Line 19: [data.sort_values('date')] *)

(** Ascending by date. The sort is a stable merge sort; pandas does not
    promise an order among rows of the same date, and with unique dates
    there is only one sorted order. Lines 21-23 convert the dates, which
    are dates already here. *)
Definition row_le (a b : Row) : Prop := date_le (date a) (date b).

#[global] Instance row_le_dec : RelDecision row_le.
Proof. intros a b. unfold row_le. apply _. Defined.

Definition sort_values (l : list Row) : list Row := merge_sort row_le l.

(** ** Line 26: [data.fillna(method='ffill')] *)

(** Row by row, a missing cell takes the value the column had in the
    closest earlier row that has one; [prev] carries those values. *)
Fixpoint ffill_from (prev : gmap string Q) (l : list Row) : list Row :=
  match l with
  | [] => []
  | r :: l' =>
      let cur := cells r ∪ prev in
      mk_row (date r) cur :: ffill_from cur l'
  end.

Definition ffill (l : list Row) : list Row := ffill_from ∅ l.

(** The same operation on one column ([Series.ffill], also the padding
    that [Series.pct_change] applies first). *)
Fixpoint pad_from (prev : option Q) (col : list (option Q)) : list (option Q) :=
  match col with
  | [] => []
  | x :: col' =>
      let cur := match x with Some _ => x | None => prev end in
      cur :: pad_from cur col'
  end.

Definition pad (col : list (option Q)) : list (option Q) := pad_from None col.

(** ** Lines 28-60: net position columns *)

Inductive Schema : Type := Disaggregated | Legacy | Unrecognized.

Definition detect_schema (d : DataFrame) : Schema :=
  if has "producer_merchant_processor_user_longs" d
     && has "producer_merchant_processor_user_shorts" d then Disaggregated
  else if has "commercial_longs" d && has "commercial_shorts" d then Legacy
  else Unrecognized.

(** [data[a] - data[b]] in one row; NaN when an operand is NaN. *)
Definition col_sub (a b : string) (r : Row) : option Q :=
  x ← cells r !! a; y ← cells r !! b; Some (x - y).

(** [if a in data.columns and b in data.columns: data[name] = data[a] - data[b]] *)
Definition net (name a b : string) (d : DataFrame) : DataFrame :=
  if has a d && has b d then assign name (col_sub a b) d else d.

Definition add_schema_nets (d : DataFrame) : DataFrame :=
  match detect_schema d with
  | Disaggregated =>
      let d1 := assign "Commercial Net"
                  (col_sub "producer_merchant_processor_user_longs"
                           "producer_merchant_processor_user_shorts") d in
      let d2 := net "Large Speculator Net" "money_manager_longs" "money_manager_shorts" d1 in
      let d3 := net "Other Reportables Net" "other_reportable_longs" "other_reportable_shorts" d2 in
      net "Swap Dealer Net" "swap_dealer_longs" "swap_dealer_shorts" d3
  | Legacy =>
      let d1 := assign "Commercial Net" (col_sub "commercial_longs" "commercial_shorts") d in
      let d2 := net "Large Speculator Net" "non_commercial_longs" "non_commercial_shorts" d1 in
      net "Small Speculator Net" "non_reportable_longs" "non_reportable_shorts" d2
  | Unrecognized => d
  end.

(** Lines 58-60, outside the schema branches. *)
Definition subtract_spreading (d : DataFrame) : DataFrame :=
  if has "spreading" d && has "Large Speculator Net" d
  then assign "Large Speculator Net" (col_sub "Large Speculator Net" "spreading") d
  else d.

Definition add_net_columns (d : DataFrame) : DataFrame :=
  subtract_spreading (add_schema_nets d).

(** ** pandas [rank(pct=True)] *)

Fixpoint count (p : Q -> bool) (l : list Q) : nat :=
  match l with
  | [] => 0
  | y :: l' => (if p y then 1 else 0) + count p l'
  end.

Definition count_lt (x : Q) (l : list Q) : nat := count (fun y => qltb y x) l.
Definition count_eq (x : Q) (l : list Q) : nat := count (fun y => Qeq_bool y x) l.
Definition count_le (x : Q) (l : list Q) : nat := count (fun y => Qle_bool y x) l.

Definition nat_to_Q (n : nat) : Q := inject_Z (Z.of_nat n).

(** [method='average'], the default: in sorted order the values equal to
    [x] occupy the ranks [count_lt + 1 .. count_lt + count_eq], and each
    of them gets the mean of those ranks. *)
Definition avg_rank (x : Q) (l : list Q) : Q :=
  nat_to_Q (sum_list (seq (S (count_lt x l)) (count_eq x l)))
  / nat_to_Q (count_eq x l).

(** [pct=True]: the rank divided by the number of non-missing values. *)
Definition rank_pct_in (vals : list Q) (x : Q) : Q :=
  avg_rank x vals / nat_to_Q (length vals).

(** The non-missing values of a column. *)
Definition present (col : list (option Q)) : list Q := omap id col.

(** [Series.rank(pct=True)]: NaN cells stay NaN and are not counted. *)
Definition rank_pct (col : list (option Q)) : list (option Q) :=
  (fun o : option Q => rank_pct_in (present col) <$> o) <$> col.

(** ** Lines 69-72: [diff] and [pct_change] *)

(** [Series.shift(1)] *)
Definition shift1 (col : list (option Q)) : list (option Q) :=
  take (length col) (None :: col).

Definition osub (a b : option Q) : option Q := x ← a; y ← b; Some (x - y).

(** [Series.diff()] *)
Definition diff (col : list (option Q)) : list (option Q) :=
  zip_with osub col (shift1 col).

(** [Series.pct_change()]: pad (its default [fill_method]), then
    [data / data.shift(1) - 1]. *)
Definition pct_change (col : list (option Q)) : list FVal :=
  let p := pad col in
  zip_with (fun a b => fl_map (fun q => q - 1) (fdiv a b)) p (shift1 p).

(** [data_change[col].pct_change().multiply(100).round(1)] *)
Definition change_pct_col (col : list (option Q)) : list FVal :=
  (fun v => round1_double (fl_map (fun q => q * 100) v)) <$> pct_change col.

(** What lines 71-72 make of the previous and the current value. *)
Definition change_pct_of (prev cur : option Q) : FVal :=
  round1_double (fl_map (fun q => q * 100) (fl_map (fun q => q - 1) (fdiv cur prev))).

(** ** Lines 74-91: rolling percentile ranks *)

(** [Series.rolling(W).apply(f)]: the window at [i] is the up to [W]
    cells ending at [i]; [f] is applied when the window holds at least
    [min_periods = W] observations (non-NaN cells), otherwise the result
    is NaN. *)
Definition trailing (W i : nat) (col : list (option Q)) : list (option Q) :=
  drop (S i - W) (take (S i) col).

Definition rolling_apply (W : nat) (f : list Q -> option Q)
    (col : list (option Q)) : list (option Q) :=
  imap (fun i _ =>
          let obs := present (trailing W i col) in
          if W <=? length obs then f obs else None) col.

(** [lambda x: pd.Series(x).rank(pct=True).iloc[-1] * 100] *)
Definition last_rank (x : list Q) : option Q :=
  (fun p => p * 100) <$> last (rank_pct_in x <$> x).

(** The [if len(data) >= W: ... else: np.nan] of each horizon. *)
Definition pct_window (W : nat) (col : list (option Q)) : list (option Q) :=
  if W <=? length col
  then (fun o : option Q => round1 <$> o) <$> rolling_apply W last_rank col
  else (fun _ => None) <$> col.

(** ** Lines 93-105: year-to-date percentile rank *)

(** [data['date'].max()]; there is none in an empty frame. *)
Fixpoint max_date (l : list Date) : option Date :=
  match l with
  | [] => None
  | d :: l' =>
      match max_date l' with
      | None => Some d
      | Some m => Some (if date_leb m d then d else m)
      end
  end.

(** Boolean indexing [col[mask]]. *)
Fixpoint select {A} (mask : list bool) (col : list A) : list A :=
  match mask, col with
  | b :: mask', x :: col' => if b then x :: select mask' col' else select mask' col'
  | _, _ => []
  end.

(** [data_change.loc[ytd_data.index, name] = vals]: the values go to the
    rows of the mask, the other rows of the new column are NaN. *)
Fixpoint scatter (mask : list bool) (vals : list (option Q)) : list (option Q) :=
  match mask with
  | [] => []
  | true :: mask' =>
      match vals with
      | v :: vals' => v :: scatter mask' vals'
      | [] => None :: scatter mask' []
      end
  | false :: mask' => None :: scatter mask' vals
  end.

Definition ytd_mask (current_year : Z) (dates : list Date) : list bool :=
  date_leb (mk_date current_year 1 1) <$> dates.

Definition pct_ytd_col (current_year : Z) (dates : list Date)
    (col : list (option Q)) : list (option Q) :=
  let mask := ytd_mask current_year dates in
  let ytd_values := select mask col in
  if 1 <? length ytd_values
  then scatter mask ((fun o : option Q => (fun p => p * 100) <$> o)
                       <$> rank_pct ytd_values)
  else (fun _ => None) <$> col.

(** ** Lines 62-105: the enriched frame [data_change] *)

Record Derived : Type := mk_derived {
  change : option Q;
  change_pct : FVal;
  pct_5yr : option Q;
  pct_2yr : option Q;
  pct_1yr : option Q;
  pct_ytd : option Q
}.

Record ERow : Type := mk_erow {
  e_date : Date;
  e_cells : gmap string Q;
  e_derived : gmap string Derived
}.

Record EFrame : Type := mk_eframe { e_columns : list string; e_rows : list ERow }.

(** The cell at row [i] of a computed column. *)
Definition cell (col : list (option Q)) (i : nat) : option Q := mjoin (col !! i).

(** The six columns the loop body adds for one source column. *)
Record DerivedColumns : Type := mk_columns {
  changes : list (option Q);
  change_pcts : list FVal;
  pcts_5yr : list (option Q);
  pcts_2yr : list (option Q);
  pcts_1yr : list (option Q);
  pcts_ytd : list (option Q)
}.

(** One pass of the loop over [numeric_cols], for column [c]. *)
Definition derive_column (cy : Z) (l : list Row) (c : string) : DerivedColumns :=
  let col := column c l in
  {| changes := diff col;
     change_pcts := change_pct_col col;
     pcts_5yr := pct_window 260 col;
     pcts_2yr := pct_window 104 col;
     pcts_1yr := pct_window 52 col;
     pcts_ytd := pct_ytd_col cy (date <$> l) col |}.

(** Row [i] of the six columns. *)
Definition row_of (dc : DerivedColumns) (i : nat) : Derived :=
  {| change := cell (changes dc) i;
     change_pct := default NaN (change_pcts dc !! i);
     pct_5yr := cell (pcts_5yr dc) i;
     pct_2yr := cell (pcts_2yr dc) i;
     pct_1yr := cell (pcts_1yr dc) i;
     pct_ytd := cell (pcts_ytd dc) i |}.

Definition derived_at (cy : Z) (l : list Row) (c : string) (i : nat) : Derived :=
  row_of (derive_column cy l c) i.

Definition derived_row (table : list (string * DerivedColumns)) (i : nat)
    : gmap string Derived :=
  foldr (fun p m => <[p.1 := row_of p.2 i]> m) ∅ table.

Definition enrich (cy : Z) (d : DataFrame) : EFrame :=
  let table := (fun c => (c, derive_column cy (rows d) c)) <$> columns d in
  mk_eframe (columns d)
            (imap (fun i r => mk_erow (date r) (cells r) (derived_row table i)) (rows d)).

(** With at least one numeric column the loop body runs and needs
    [data['date'].max().year]; on an empty frame that is the year of
    [NaT] and building [ytd_start] from it raises. *)
Definition add_changes (d : DataFrame) : option EFrame :=
  match columns d with
  | [] => Some (enrich 0 d)
  | _ :: _ => m ← max_date (date <$> rows d); Some (enrich (year m) d)
  end.

(** Lines 19-105 together. *)
Definition prepare (d : DataFrame) : DataFrame :=
  add_net_columns (mk_frame (columns d) (ffill (sort_values (rows d)))).

Definition derive (d : DataFrame) : option EFrame := add_changes (prepare d).

(** ** Lines 229-234: the selected date range *)

Definition in_range (s e d : Date) : Prop := date_le s d ∧ date_le d e.

#[global] Instance in_range_dec s e d : Decision (in_range s e d).
Proof. unfold in_range. apply _. Defined.

Definition window (s e : Date) (E : EFrame) : EFrame :=
  mk_eframe (e_columns E) (filter (fun r => in_range s e (e_date r)) (e_rows E)).

Definition plot_data_change (s e : Date) (d : DataFrame) : option EFrame :=
  window s e <$> derive d.

(** ** Lines 307-355: annotations *)

Inductive Color : Type := green | red.

(** The annotation of one point: [x], [y], the change percentage that is
    formatted into [text], the font colour, and for separate plots the
    number of the subplot its [xref]/[yref] name. *)
Record PointAnnotation : Type := mk_point {
  ann_x : Date;
  ann_y : option Q;
  ann_text : FVal;
  ann_color : Color;
  ann_subplot : option nat
}.

Inductive Annotation : Type :=
| Point (p : PointAnnotation)
| Explanation.

(** [selected_cols.index(col) + 1] *)
Fixpoint index_of (c : string) (l : list string) : nat :=
  match l with
  | [] => 0
  | x :: l' => if bool_decide (x = c) then 0 else S (index_of c l')
  end.

(** The body of the inner loop for column [c] and one row; a column
    without change fields is a [KeyError]. *)
Definition annotate (separate_plots : bool) (selected : list string)
    (c : string) (r : ERow) : option (list Annotation) :=
  dv ← e_derived r !! c;
  Some (if isna (change_pct dv) then []
        else [Point {| ann_x := e_date r;
                       ann_y := e_cells r !! c;
                       ann_text := change_pct dv;
                       ann_color := if fpositive (change_pct dv) then green else red;
                       ann_subplot := if separate_plots
                                      then Some (S (index_of c selected)) else None |}]).

Definition build_annotations (separate_plots : bool) (selected : list string)
    (pdc : EFrame) : option (list Annotation) :=
  if length (e_rows pdc) <=? 90 then
    mjoin <$> mapM (fun c =>
                  if bool_decide (c ∈ e_columns pdc)
                  then mjoin <$> mapM (annotate separate_plots selected c) (e_rows pdc)
                  else None) selected
  else Some [Explanation].

(** ** Reading the result *)

(** The derived fields of column [c] in row [i] of an enriched frame. *)
Definition field (E : EFrame) (i : nat) (c : string) : option Derived :=
  r ← e_rows E !! i; e_derived r !! c.

(** The rows of the year of the latest date, which is what
    [data[data['date'] >= ytd_start]] keeps. *)
Definition ytd_rows (cy : Z) (l : list Row) : list Row :=
  filter (fun r => year (date r) = cy) l.

(** The percentile field of each horizon. *)
Inductive Horizon : Type := H5yr | H2yr | H1yr.

Definition horizon_size (h : Horizon) : nat :=
  match h with H5yr => 260 | H2yr => 104 | H1yr => 52 end.

Definition pct_of (h : Horizon) (dv : Derived) : option Q :=
  match h with H5yr => pct_5yr dv | H2yr => pct_2yr dv | H1yr => pct_1yr dv end.

(** The values of a window are pairwise different. *)
Definition distinct (w : list Q) : Prop :=
  forall j k x y, w !! j = Some x -> w !! k = Some y -> x == y -> j = k.

(** Order on ranks that may be undefined: both undefined, or both
    defined and ordered. *)
Definition rank_le (a b : option Q) : Prop :=
  match a, b with
  | Some x, Some y => x <= y
  | None, None => True
  | _, _ => False
  end.

(** The frame with the value of column [c] in row [i] replaced by [v]. *)
Definition set_value (i : nat) (c : string) (v : Q) (d : DataFrame) : DataFrame :=
  mk_frame (columns d)
           (alter (fun r => mk_row (date r) (<[c := v]> (cells r))) i (rows d)).

(** The change percentage by cases on the previous and the current
    value: NaN, an infinity after a zero, or the percentage as the
    double computation gives it, rounded to one decimal. *)
Definition change_pct_cases (prev cur : option Q) : FVal :=
  match prev, cur with
  | Some p, Some v =>
      if Qeq_bool p 0 then
        (if Qeq_bool v 0 then NaN else if qltb 0 v then PInf else NInf)
      else
        round1_double
          (fl_map (fun q => q * 100) (fl_map (fun q => q - 1) (binary64 (v / p))))
  | _, _ => NaN
  end.

(** The most that the rounded result of a double computation of a
    percentage [x] can be away from [x]: half a unit of the decimal
    place, and the rounding errors of the operations. *)
Definition double_tolerance (x : Q) : Q :=
  (1 # 20) + (Qabs x + 100) / 1000000000000000.

(** The year-to-date rank as the specification words it: the rank of
    the value of row [i] among the rows of its own calendar year up to
    and including row [i], undefined with fewer than two such rows. *)
Definition spec_pct_ytd (l : list Row) (c : string) (i : nat) : option Q :=
  r ← l !! i;
  let so_far := filter (fun r' => year (date r') = year (date r)) (take (S i) l) in
  if length so_far <? 2 then None
  else (fun v => rank_pct_in (present (column c so_far)) v * 100) <$> cells r !! c.

(** One derived field of column [c] in row [i] of a result. *)
Definition read {A} (f : Derived -> A) (res : option EFrame) (i : nat) (c : string)
    : option A :=
  E ← res; dv ← field E i c; Some (f dv).

(** ** Example frames *)

Definition one_col (c : string) (y : Z) (m d : positive) (v : Q) : Row :=
  mk_row (mk_date y m d) {[ c := v ]}.

(** Two weeks of 2023 followed by three weeks of 2024. *)
Definition two_years : DataFrame :=
  mk_frame ["open_interest"]
    [ one_col "open_interest" 2023 12 18 5;
      one_col "open_interest" 2023 12 25 7;
      one_col "open_interest" 2024 1 1 3;
      one_col "open_interest" 2024 1 8 1;
      one_col "open_interest" 2024 1 15 9 ].

(** ** Net columns: names used in the statements *)

(** The cell of column [c] in row [i] of a frame. *)
Definition value (d : DataFrame) (i : nat) (c : string) : option Q :=
  r ← rows d !! i; cells r !! c.

(** The long and short columns of the large speculators. *)
Definition speculator (s : Schema) : option (string * string) :=
  match s with
  | Disaggregated => Some ("money_manager_longs", "money_manager_shorts")
  | Legacy => Some ("non_commercial_longs", "non_commercial_shorts")
  | Unrecognized => None
  end.

(** The other net columns of a schema, each with its long and short column. *)
Definition other_nets (s : Schema) : list (string * (string * string)) :=
  match s with
  | Disaggregated =>
      [ ("Commercial Net", ("producer_merchant_processor_user_longs",
                            "producer_merchant_processor_user_shorts"));
        ("Other Reportables Net", ("other_reportable_longs", "other_reportable_shorts"));
        ("Swap Dealer Net", ("swap_dealer_longs", "swap_dealer_shorts")) ]
  | Legacy =>
      [ ("Commercial Net", ("commercial_longs", "commercial_shorts"));
        ("Small Speculator Net", ("non_reportable_longs", "non_reportable_shorts")) ]
  | Unrecognized => []
  end.

(** The names the net columns are assigned under. *)
Definition net_names : list string :=
  ["Commercial Net"; "Large Speculator Net"; "Other Reportables Net";
   "Swap Dealer Net"; "Small Speculator Net"].

(** Schema detection as the specification words it: one column decides. *)
Definition spec_detect_schema (d : DataFrame) : Schema :=
  if has "producer_merchant_processor_user_longs" d then Disaggregated
  else if has "commercial_longs" d then Legacy
  else Unrecognized.

(** A frame of one row, on 2024-01-02, with the given cells. *)
Definition one_row (cs : list (string * Q)) : DataFrame :=
  mk_frame cs.*1 [mk_row (mk_date 2024 1 2) (list_to_map cs)].

Definition legacy_with_spreading : DataFrame :=
  one_row [("commercial_longs", 500); ("commercial_shorts", 450);
           ("non_commercial_longs", 100); ("non_commercial_shorts", 40);
           ("spreading", 30)].

Definition legacy_without_spreading : DataFrame :=
  one_row [("commercial_longs", 500); ("commercial_shorts", 450);
           ("non_commercial_longs", 100); ("non_commercial_shorts", 40)].

Definition disaggregated_with_spreading : DataFrame :=
  one_row [("producer_merchant_processor_user_longs", 500);
           ("producer_merchant_processor_user_shorts", 450);
           ("money_manager_longs", 100); ("money_manager_shorts", 40);
           ("spreading", 30)].

(** Producer longs without producer shorts, next to the legacy commercials. *)
Definition producer_longs_only : DataFrame :=
  one_row [("producer_merchant_processor_user_longs", 10);
           ("commercial_longs", 100); ("commercial_shorts", 40)].

Definition commercial_longs_only : DataFrame :=
  one_row [("commercial_longs", 100); ("open_interest", 1000)].

(** No schema column, but a column that already has the name of a net. *)
Definition named_like_a_net : DataFrame :=
  one_row [("Large Speculator Net", 60); ("spreading", 30)].

(** ** Annotations: names used in the statements *)

(** The change percentage of column [c] in an enriched row. *)
Definition change_of (c : string) (r : ERow) : FVal :=
  from_option change_pct NaN (e_derived r !! c).

Definition change_defined (c : string) (r : ERow) : bool := negb (isna (change_of c r)).

Definition value_present (c : string) (r : ERow) : bool :=
  bool_decide (is_Some (e_cells r !! c)).

(** The annotation of column [c] at row [r]. *)
Definition point_of (separate_plots : bool) (selected : list string)
    (c : string) (r : ERow) : Annotation :=
  Point {| ann_x := e_date r;
           ann_y := e_cells r !! c;
           ann_text := change_of c r;
           ann_color := if fpositive (change_of c r) then green else red;
           ann_subplot := if separate_plots then Some (S (index_of c selected)) else None |}.

(** The (column, record) pairs that pass a test, column by column. *)
Definition pairs (p : string -> ERow -> bool) (selected : list string)
    (l : list ERow) : list (string * ERow) :=
  c ← selected; (fun r => (c, r)) <$> filter (fun r => p c r = true) l.

(** The annotations of a result over a date range. *)
Definition annotations_of (separate_plots : bool) (selected : list string)
    (pdc : option EFrame) : option (list Annotation) :=
  pdc ≫= build_annotations separate_plots selected.

(** ** Weekly example frames *)

(** Four report dates a month: the 1st, 8th, 15th and 22nd. *)
Definition week_date (k : nat) : Date :=
  mk_date (2015 + Z.of_nat (k / 48))
          (Pos.of_nat (1 + (k mod 48) / 4))
          (Pos.of_nat (1 + 7 * (k mod 4))).

(** [n] weekly rows of one column whose value in week [k] is [v k]. *)
Definition weekly (c : string) (v : nat -> option Q) (n : nat) : DataFrame :=
  mk_frame [c]
    ((fun k => mk_row (week_date k)
                 (match v k with Some q => {[ c := q ]} | None => ∅ end))
       <$> seq 0 n).

(** A value that goes up and down over the weeks. *)
Definition wave (k : nat) : option Q := Some (nat_to_Q ((k * 37) mod 101)).

(** A column whose first report is missing. *)
Definition late_start (k : nat) : option Q :=
  match k with O => None | _ => wave k end.

(** Every row of an enriched frame carries the derived fields of every column. *)
Definition complete (E : EFrame) : Prop :=
  forall r c, r ∈ e_rows E -> c ∈ e_columns E -> is_Some (e_derived r !! c).

(** A point annotation, as opposed to the explanation. *)
Definition is_point (a : Annotation) : Prop :=
  match a with Point _ => True | Explanation => False end.

(** A fall from 80 to 77, by 3.75 percent. *)
Definition fall_80_77 : DataFrame :=
  mk_frame ["open_interest"]
    [ one_col "open_interest" 2024 1 2 80;
      one_col "open_interest" 2024 1 9 77 ].

(** A column that starts at zero and returns to it. *)
Definition through_zero : DataFrame :=
  mk_frame ["spreading"]
    [ one_col "spreading" 2024 1 2 0;
      one_col "spreading" 2024 1 9 5;
      one_col "spreading" 2024 1 16 0;
      one_col "spreading" 2024 1 23 0 ].

(** Once a column has a value, every later row has one. *)
Definition filled (col : list (option Q)) : Prop :=
  forall j k, (j <= k)%nat -> (k < length col)%nat ->
              is_Some (cell col j) -> is_Some (cell col k).

Definition filled_frame (d : DataFrame) : Prop :=
  forall c j k, (j <= k)%nat -> (k < length (rows d))%nat ->
                is_Some (value d j c) -> is_Some (value d k c).

(** ** Names used in the further statements *)

(** [d'] has the columns of [d], followed by new net columns. *)
Definition extends (d d' : DataFrame) : Prop :=
  exists added, columns d' = columns d ++ added /\
    NoDup added /\ forall c, c ∈ added -> c ∈ net_names /\ c ∉ columns d.

(** ** Lines 107-193: the columns offered and the columns selected *)

(** [pat in s] on strings. *)
Fixpoint contains (pat s : string) : bool :=
  String.prefix pat s ||
  match s with
  | EmptyString => false
  | String _ s' => contains pat s'
  end.

(** Line 109. The [date] column is kept apart from [columns] here; a
    numeric column may still carry one of the other excluded names. *)
Definition plot_cols (d : DataFrame) : list string :=
  filter (fun c => c ∉ ["None"; "contract_code"; "type"; "date"]) (columns d).

(** Line 112. *)
Definition regular_plot_cols (d : DataFrame) : list string :=
  filter (fun c => c <> "market_participation") (plot_cols d).

(** Lines 119 and 159. *)
Definition net_position_cols (d : DataFrame) : list string :=
  filter (fun c => contains "Net" c = true) (regular_plot_cols d).

Definition original_cols (d : DataFrame) : list string :=
  filter (fun c => contains "Net" c = false) (regular_plot_cols d).

(** [range(0, stop, step)] *)
Definition range_step (stop step : nat) : list nat :=
  (fun k => (k * step)%nat) <$> seq 0 ((stop + step - 1) / step)%nat.

(** [l[i:j]] *)
Definition slice {A} (i j : nat) (l : list A) : list A := take (j - i)%nat (drop i l).

(** [[l[i:i + n] for i in range(0, len(l), n)]]: the rows of checkboxes. *)
Definition rows_of {A} (n : nat) (l : list A) : list (list A) :=
  (fun i => slice i (i + n)%nat l) <$> range_step (length l) n.

(** The inner loop over one row of checkboxes: [checked] is the state
    of the checkbox of each column, and [row[i]] is read under the
    guard [i < len(row)]. *)
Definition row_selected (checked : string -> bool) (row : list string) : list string :=
  mjoin (imap (fun i (_ : string) =>
                 if (i <? length row)%nat then
                   match row !! i with
                   | Some x => if checked x then [x] else []
                   | None => []
                   end
                 else []) row).

(** [selected_cols] after the two checkbox sections: the net position
    columns first, when there are any, then the original columns, three
    to a row. *)
Definition selected_cols (checked : string -> bool) (d : DataFrame) : list string :=
  match net_position_cols d with
  | [] => []
  | _ :: _ => mjoin (row_selected checked <$> rows_of 3 (net_position_cols d))
  end
  ++ mjoin (row_selected checked <$> rows_of 3 (original_cols d)).

(** ** Lines 207-234: the date range *)

(** [data['date'].min()] *)
Fixpoint min_date (l : list Date) : option Date :=
  match l with
  | [] => None
  | d :: l' =>
      match min_date l' with
      | None => Some d
      | Some m => Some (if date_leb d m then d else m)
      end
  end.

(** [sorted(data['date'].unique())] *)
Definition all_dates (l : list Row) : list Date :=
  merge_sort date_le (remove_dups (date <$> l)).

(** The default value of the slider: from the date that stands
    [min(89, len(all_dates))] from the end of [all_dates] to the latest
    date. On an empty frame the slider has no date to offer and there is
    no range. *)
Definition default_range (l : list Row) : option (Date * Date) :=
  lo ← min_date (date <$> l);
  hi ← max_date (date <$> l);
  let dates := all_dates l in
  let n := length dates in
  start ← (if (1 <? n)%nat then dates !! (n - Nat.min 89 n)%nat else Some lo);
  Some (start, hi).

(** [data[(data['date'] >= start) & (data['date'] <= end)]] and its length. *)
Definition plot_data (s e : Date) (d : DataFrame) : list Row :=
  filter (fun r => in_range s e (date r)) (rows d).

Definition num_periods (s e : Date) (d : DataFrame) : nat := length (plot_data s e d).

(** The number of rows dated before [s]. *)
Definition rows_before (s : Date) (d : DataFrame) : nat :=
  length (filter (fun r => ~ date_le s (date r)) (rows d)).

(** ** Lines 132-176 and 246-275: colours *)

(** [str.lower()] on a name in ASCII, which is what the column names
    of the data sets are. *)
Definition lower_char (a : Ascii.ascii) : Ascii.ascii :=
  let n := Ascii.N_of_ascii a in
  if ((65 <=? n) && (n <=? 90))%N then Ascii.ascii_of_N (n + 32) else a.

Fixpoint lower (s : string) : string :=
  match s with
  | EmptyString => EmptyString
  | String a s' => String (lower_char a) (lower s')
  end.

Fixpoint is_ascii (s : string) : bool :=
  match s with
  | EmptyString => true
  | String a s' => (Ascii.N_of_ascii a <? 128)%N && is_ascii s'
  end.

(** The colour of a checkbox label in the net position section; the
    empty string is a label without colour. *)
Definition net_label_color (c : string) : string :=
  let col_lower := lower c in
  if contains "commercial net" col_lower then "red"
  else if contains "large speculator net" col_lower then "blue"
  else if contains "small speculator net" col_lower
          || contains "non_reportable net" col_lower then "orange"
  else if contains "other reportables net" col_lower then "violet"
  else if contains "swap dealer net" col_lower then "orange"
  else "".

(** The colour of a checkbox label in the original columns section. *)
Definition original_label_color (c : string) : string :=
  let col_lower := lower c in
  if contains "non_commercial" col_lower || contains "money_manager" col_lower then "blue"
  else if contains "commercial" col_lower || contains "producer" col_lower then "red"
  else if contains "non_reportable" col_lower then "orange"
  else "".

(** The colour of a trace; [None] leaves the choice to Plotly. *)
Definition get_color_for_column (column_name : string) : option string :=
  let column_lower := lower column_name in
  if contains "commercial net" column_lower then Some "#d62728"
  else if contains "large speculator net" column_lower
          || contains "money_manager net" column_lower then Some "#1f77b4"
  else if contains "small speculator net" column_lower
          || contains "non_reportable net" column_lower then Some "#B8860B"
  else if contains "other reportables net" column_lower then Some "#9467bd"
  else if contains "swap dealer net" column_lower then Some "#ff7f0e"
  else if contains "non_commercial" column_lower
          || contains "money_manager" column_lower then Some "#1f77b4"
  else if contains "commercial" column_lower
          || contains "producer" column_lower then Some "#d62728"
  else if contains "non_reportable" column_lower then Some "#B8860B"
  else if contains "swap" column_lower then Some "#ff7f0e"
  else if contains "dealer" column_lower then Some "#2ca02c"
  else if contains "other" column_lower then Some "#9467bd"
  else None.

(** The words one of which a name must contain to get a colour. *)
Definition color_keywords : list string :=
  ["commercial"; "producer"; "money_manager"; "non_reportable"; "swap"; "dealer";
   "other"; "large speculator net"; "small speculator net"].

(** ** Lines 278-299: hover text *)

(** The parts of a formatted string: literal text, an interpolated
    name, a date printed as [%Y-%m-%d], and a number printed under a
    format specification. *)
Inductive Piece : Type :=
| Lit (s : string)
| Name (s : string)
| DateYMD (d : Date)
| Num (spec : string) (v : FVal).

(** A cell as a float. *)
Definition fval (o : option Q) : FVal :=
  match o with Some q => Fin q | None => NaN end.

(** [create_hover_text(row, col)]; a column without change fields is a
    [KeyError]. *)
Definition create_hover_text (row : ERow) (col : string) : option (list Piece) :=
  dv ← e_derived row !! col;
  let date_str := [DateYMD (e_date row)] in
  let value_str := [Num ",.0f" (fval (e_cells row !! col))] in
  let change_str :=
    match change dv with
    | Some ch => [Lit "Change: "; Num "+,.0f" (Fin ch); Lit " ("; Num "+.1f" (change_pct dv);
                  Lit "%)"]
    | None => [Lit "Change: N/A"]
    end in
  let pct_ytd_str :=
    match pct_ytd dv with
    | Some q => [Lit "YTD Percentile: "; Num ".1f" (Fin q); Lit "%"]
    | None => [Lit "YTD Percentile: N/A"]
    end in
  let pct_1yr_str :=
    match pct_1yr dv with
    | Some q => [Lit "1Y Percentile: "; Num ".1f" (Fin q); Lit "%"]
    | None => [Lit "1Y Percentile: N/A"]
    end in
  let pct_2yr_str :=
    match pct_2yr dv with
    | Some q => [Lit "2Y Percentile: "; Num ".1f" (Fin q); Lit "%"]
    | None => [Lit "2Y Percentile: N/A"]
    end in
  let pct_5yr_str :=
    match pct_5yr dv with
    | Some q => [Lit "5Y Percentile: "; Num ".1f" (Fin q); Lit "%"]
    | None => [Lit "5Y Percentile: N/A"]
    end in
  Some ([Lit "<b>"] ++ date_str ++ [Lit "</b><br>"; Name col; Lit ": "] ++ value_str
        ++ [Lit "<br>"] ++ change_str ++ [Lit "<br>"] ++ pct_ytd_str
        ++ [Lit "<br>"] ++ pct_1yr_str ++ [Lit "<br>"] ++ pct_2yr_str
        ++ [Lit "<br>"] ++ pct_5yr_str).

(** The piece is the literal text [s]. *)
Definition is_lit (s : string) (p : Piece) : bool :=
  match p with Lit t => String.eqb s t | _ => false end.

(** ** Lines 358-366: separate plots *)

(** Lines 365-366: with separate plots, the subplot row of each trace. *)
Definition trace_rows (selected : list string) : list (string * nat) :=
  imap (fun i col => (col, S i)) selected.

(** ** Lines 186-193 and 433-496: market participation *)

(** The checkbox for market participation is shown only when the frame
    has the column; without it nothing is included. *)
Definition include_market_participation (mp_checked : bool) (d : DataFrame) : bool :=
  if bool_decide ("market_participation" ∈ plot_cols d) then mp_checked else false.

(** Line 191: the function goes on after the selection unless nothing
    is selected and market participation is not included. *)
Definition proceeds (checked : string -> bool) (mp_checked : bool) (d : DataFrame) : bool :=
  negb (bool_decide (selected_cols checked d = [])
        && negb (include_market_participation mp_checked d)).

(** The local [has_secondary_axis] of line 433. *)
Definition has_secondary_axis (mp_checked : bool) (d : DataFrame) : bool :=
  include_market_participation mp_checked d && has "market_participation" d.

(** [fig.update_layout(yaxis2=dict(..., position=p))]: plotly takes a
    [position] from 0 to 1 and raises a [ValueError] for any other. *)
Definition axis_position (p : Q) : option Q :=
  if Qle_bool 0 p && Qle_bool p 1 then Some p else None.

(** Lines 465-496, the single plot: without market participation there
    is no secondary axis; with it, after the hover texts and the trace,
    the layout is updated with the axis at the position 1.02. The
    result is the position of the secondary axis, if there is one. *)
Definition single_plot_axis (mp_checked : bool) (d : DataFrame) : option (option Q) :=
  if has_secondary_axis mp_checked d then Some <$> axis_position 1.02 else Some None.

(** ** Further example frames *)

(** A value that rises every week. *)
Definition rising (k : nat) : option Q := Some (nat_to_Q k).

(** The second row of [two_years]. *)
Definition second_week : Row := one_col "open_interest" 2023 12 25 7.

(** Only the commercial columns are checked. *)
Definition commercial_checked (c : string) : bool := contains "commercial" c.

(** * Properties *)

(** ** Rounding *)

Lemma round_half_even_comp q q' : q == q' -> round_half_even q = round_half_even q'.
Proof.
  intros H. unfold round_half_even.
  rewrite (Qfloor_comp _ _ H).
  assert (E : Qcompare (q - inject_Z (Qfloor q')) (1 # 2) = Qcompare (q' - inject_Z (Qfloor q')) (1 # 2)).
  { apply Qcompare_comp; [rewrite H|]; reflexivity. }
  rewrite E. reflexivity.
Qed.

Lemma round1_comp q q' : q == q' -> round1 q = round1 q'.
Proof.
  intros H. unfold round1. f_equal. f_equal. apply round_half_even_comp. rewrite H. reflexivity.
Qed.

Lemma round_half_even_bounds q :
  (Qfloor q <= round_half_even q <= Qfloor q + 1)%Z.
Proof. unfold round_half_even. destruct (Qcompare _ _); [destruct (Z.even _)|..]; lia. Qed.

Lemma round_half_even_mono q q' : q <= q' -> (round_half_even q <= round_half_even q')%Z.
Proof.
  intros H.
  pose proof (Qfloor_resp_le _ _ H) as Hf.
  destruct (Z.eq_dec (Qfloor q) (Qfloor q')) as [E|NE].
  - unfold round_half_even. rewrite E.
    destruct (Qcompare (q - inject_Z (Qfloor q')) (1 # 2)) eqn:C1;
    destruct (Qcompare (q' - inject_Z (Qfloor q')) (1 # 2)) eqn:C2;
      try (destruct (Z.even _)); try lia; exfalso.
    all: repeat match goal with
         | H : Qcompare _ _ = Eq |- _ => apply Qeq_alt in H
         | H : Qcompare _ _ = Lt |- _ => apply Qlt_alt in H
         | H : Qcompare _ _ = Gt |- _ => apply Qgt_alt in H
         end; lra.
  - pose proof (round_half_even_bounds q). pose proof (round_half_even_bounds q'). lia.
Qed.

Lemma round1_mono q q' : q <= q' -> round1 q <= round1 q'.
Proof.
  intros H. unfold round1.
  assert (M : (round_half_even (q * 10) <= round_half_even (q' * 10))%Z).
  { apply round_half_even_mono. lra. }
  unfold Qdiv. apply Qmult_le_compat_r; [|discriminate].
  rewrite <- Zle_Qle. exact M.
Qed.

(** ** Dates and sorting *)

Lemma date_le_spec a b :
  date_le a b <->
  (year a < year b)%Z \/
  (year a = year b /\
   ((month a < month b)%positive \/ (month a = month b /\ (day a <= day b)%positive))).
Proof.
  unfold date_le, date_leb, date_cmp.
  destruct (Z.compare_spec (year a) (year b));
    [destruct (Pos.compare_spec (month a) (month b));
     [destruct (Pos.compare_spec (day a) (day b))|..]|..];
    split; intros; try done; try lia.
Qed.

#[global] Instance date_le_refl : Reflexive date_le.
Proof. intros a. apply date_le_spec. lia. Qed.

#[global] Instance date_le_trans : Transitive date_le.
Proof. intros a b c. rewrite !date_le_spec. lia. Qed.

#[global] Instance date_le_total : Total date_le.
Proof. intros a b. rewrite !date_le_spec. lia. Qed.

Lemma date_le_antisym a b : date_le a b -> date_le b a -> a = b.
Proof.
  rewrite !date_le_spec. intros H1 H2.
  destruct a as [y m d], b as [y' m' d']; simpl in *.
  assert (y = y') by lia. assert (m = m') by lia. assert (d = d') by lia.
  congruence.
Qed.

#[global] Instance row_le_trans : Transitive row_le.
Proof. intros a b c. unfold row_le. apply date_le_trans. Qed.

#[global] Instance row_le_total : Total row_le.
Proof. intros a b. unfold row_le. apply date_le_total. Qed.

Lemma sort_values_Permutation l : sort_values l ≡ₚ l.
Proof. apply merge_sort_Permutation. Qed.

Lemma sort_values_Sorted l : Sorted row_le (sort_values l).
Proof. apply (Sorted_merge_sort row_le). Qed.

(** With unique dates there is one sorted order. *)
Lemma sort_values_unique l l' :
  l ≡ₚ l' -> NoDup (date <$> l) -> sort_values l' = sort_values l.
Proof.
  intros HP HN.
  apply (Sorted_unique_strong row_le); try apply sort_values_Sorted.
  - intros x1 x2 H1 H2 L1 L2.
    rewrite sort_values_Permutation in H1, H2. rewrite <- HP in H1.
    assert (E : date x1 = date x2) by (by apply date_le_antisym).
    apply list_elem_of_lookup in H1 as [i Hi], H2 as [j Hj].
    assert (i = j).
    { eapply NoDup_lookup; [exact HN| |]; rewrite list_lookup_fmap.
      - by rewrite Hi.
      - by rewrite Hj, E. }
    subst j. congruence.
  - by rewrite !sort_values_Permutation.
Qed.

Lemma sort_values_sorted_id l : Sorted row_le l -> NoDup (date <$> l) -> sort_values l = l.
Proof.
  intros HS HN.
  apply (Sorted_unique_strong row_le); auto using sort_values_Sorted, sort_values_Permutation.
  intros x1 x2 H1 H2 L1 L2.
  rewrite sort_values_Permutation in H1.
  assert (E : date x1 = date x2) by (by apply date_le_antisym).
  apply list_elem_of_lookup in H1 as [i Hi], H2 as [j Hj].
  assert (i = j).
  { eapply NoDup_lookup; [exact HN| |]; rewrite list_lookup_fmap.
    - by rewrite Hi.
    - by rewrite Hj, E. }
  subst j. congruence.
Qed.

(** ** Counting and ranks *)

Lemma qltb_spec a b : qltb a b = true <-> a < b.
Proof.
  unfold qltb. rewrite negb_true_iff. split.
  - intros H. apply Qnot_le_lt. intros L. apply Qle_bool_iff in L. congruence.
  - intros H. destruct (Qle_bool b a) eqn:E; [|done].
    apply Qle_bool_iff in E. exfalso. eapply Qlt_not_le; eauto.
Qed.

Section counting.
Implicit Types (p q : Q -> bool) (l : list Q).

Lemma count_app p l1 l2 : count p (l1 ++ l2) = (count p l1 + count p l2)%nat.
Proof. induction l1 as [|y l1 IH]; simpl; [done|]. rewrite IH. lia. Qed.

Lemma count_mono p q l :
  (forall y, y ∈ l -> p y = true -> q y = true) -> (count p l <= count q l)%nat.
Proof.
  induction l as [|y l IH]; intros H; simpl; [done|].
  assert (count p l <= count q l)%nat by (apply IH; intros; apply H; [by right|done]).
  destruct (p y) eqn:E; [rewrite (H y) by (done || left)|destruct (q y)]; lia.
Qed.

Lemma count_zero p l : (forall y, y ∈ l -> p y = false) -> count p l = 0%nat.
Proof.
  induction l as [|y l IH]; intros H; simpl; [done|].
  rewrite (H y) by left. rewrite IH; [done|]. intros; apply H; by right.
Qed.

Lemma count_le_length p l : (count p l <= length l)%nat.
Proof. induction l as [|y l IH]; simpl; [done|]. destruct (p y); lia. Qed.

Lemma count_pos p l x : x ∈ l -> p x = true -> (0 < count p l)%nat.
Proof.
  induction 1 as [x l|x y l _ IH]; intros Hp; simpl.
  - rewrite Hp. lia.
  - specialize (IH Hp). lia.
Qed.
End counting.

Lemma Qle_bool_split y x : Qle_bool y x = qltb y x || Qeq_bool y x.
Proof.
  destruct (Qle_bool y x) eqn:L, (qltb y x) eqn:T, (Qeq_bool y x) eqn:E; try done; exfalso.
  - apply Qle_bool_iff in L. apply Qle_lteq in L as [L|L].
    + apply qltb_spec in L. congruence.
    + apply Qeq_bool_iff in L. congruence.
  - apply qltb_spec, Qlt_le_weak, Qle_bool_iff in T. congruence.
  - apply qltb_spec, Qlt_le_weak, Qle_bool_iff in T. congruence.
  - apply Qeq_bool_iff in E. assert (L' : y <= x) by (rewrite E; apply Qle_refl).
    apply Qle_bool_iff in L'. congruence.
Qed.

Lemma qltb_Qeq_bool_excl y x : qltb y x = true -> Qeq_bool y x = false.
Proof.
  intros T. destruct (Qeq_bool y x) eqn:E; [|done].
  apply qltb_spec in T. apply Qeq_bool_iff in E. rewrite E in T.
  exfalso. eapply Qlt_irrefl; eauto.
Qed.

Lemma count_le_split x l : count_le x l = (count_lt x l + count_eq x l)%nat.
Proof.
  unfold count_le, count_lt, count_eq.
  induction l as [|y l IH]; simpl; [done|].
  rewrite IH, Qle_bool_split.
  destruct (qltb y x) eqn:T; simpl.
  - rewrite (qltb_Qeq_bool_excl _ _ T). lia.
  - destruct (Qeq_bool y x); lia.
Qed.

Lemma count_lt_mono x x' l : x <= x' -> (count_lt x l <= count_lt x' l)%nat.
Proof.
  intros H. apply count_mono. intros y _ T.
  apply qltb_spec. apply qltb_spec in T. eapply Qlt_le_trans; eauto.
Qed.

Lemma count_le_mono x x' l : x <= x' -> (count_le x l <= count_le x' l)%nat.
Proof.
  intros H. apply count_mono. intros y _ T.
  apply Qle_bool_iff. apply Qle_bool_iff in T. eapply Qle_trans; eauto.
Qed.

Lemma count_eq_pos x l : x ∈ l -> (0 < count_eq x l)%nat.
Proof. intros H. eapply count_pos; [exact H|]. apply Qeq_bool_iff. reflexivity. Qed.

(** Gauss: the ranks [a+1 .. a+n] sum to [n (2a + n + 1) / 2]. *)
Lemma sum_seq_ranks a n : (2 * sum_list (seq (S a) n) = n * (2 * a + n + 1))%nat.
Proof.
  revert a. induction n as [|n IH]; intros a; [done|].
  change (seq (S a) (S n)) with (S a :: seq (S (S a)) n).
  simpl sum_list. specialize (IH (S a)). nia.
Qed.

Lemma nat_to_Q_add a b : nat_to_Q (a + b) == nat_to_Q a + nat_to_Q b.
Proof. unfold nat_to_Q. rewrite Nat2Z.inj_add, inject_Z_plus. reflexivity. Qed.

Lemma nat_to_Q_mul a b : nat_to_Q (a * b) == nat_to_Q a * nat_to_Q b.
Proof. unfold nat_to_Q. rewrite Nat2Z.inj_mul, inject_Z_mult. reflexivity. Qed.

Lemma nat_to_Q_le a b : (a <= b)%nat -> nat_to_Q a <= nat_to_Q b.
Proof. intros H. unfold nat_to_Q. rewrite <- Zle_Qle. lia. Qed.

Lemma nat_to_Q_pos a : (0 < a)%nat -> 0 < nat_to_Q a.
Proof. intros H. unfold nat_to_Q. change 0 with (inject_Z 0). rewrite <- Zlt_Qlt. lia. Qed.

(** The average rank in closed form: the number of smaller values plus
    half of (the number of equal values plus one). *)
Lemma avg_rank_closed x l :
  (0 < count_eq x l)%nat ->
  avg_rank x l == (nat_to_Q (count_lt x l + count_le x l) + 1) / 2.
Proof.
  intros H. unfold avg_rank.
  pose proof (sum_seq_ranks (count_lt x l) (count_eq x l)) as G.
  apply (f_equal nat_to_Q) in G.
  assert (G' : 2 * nat_to_Q (sum_list (seq (S (count_lt x l)) (count_eq x l)))
               == nat_to_Q (count_eq x l) * (nat_to_Q (count_lt x l + count_le x l) + 1)).
  { rewrite count_le_split.
    transitivity (nat_to_Q (2 * sum_list (seq (S (count_lt x l)) (count_eq x l)))).
    - rewrite nat_to_Q_mul. reflexivity.
    - rewrite G. rewrite nat_to_Q_mul. apply Qmult_comp; [reflexivity|].
      rewrite !nat_to_Q_add, nat_to_Q_mul. change (nat_to_Q 2) with 2. change (nat_to_Q 1) with 1. ring. }
  pose proof (nat_to_Q_pos _ H) as P.
  set (s := nat_to_Q (sum_list _)) in *. set (e := nat_to_Q (count_eq x l)) in *.
  set (k := nat_to_Q (count_lt x l + count_le x l) + 1) in *.
  assert (Hs : s == e * k / 2).
  { rewrite <- G'. field. }
  rewrite Hs. field. lra.
Qed.

Lemma avg_rank_mono_last pre v v' :
  v <= v' -> avg_rank v (pre ++ [v]) <= avg_rank v' (pre ++ [v']).
Proof.
  intros H.
  assert (In1 : forall u, u ∈ pre ++ [u]) by (intros u; apply elem_of_app; right; by left).
  assert (A1 := avg_rank_closed v (pre ++ [v]) (count_eq_pos _ _ (In1 v))).
  assert (A2 := avg_rank_closed v' (pre ++ [v']) (count_eq_pos _ _ (In1 v'))).
  rewrite A1, A2. clear A1 A2.
  apply Qmult_le_compat_r; [|discriminate].
  apply Qplus_le_l. apply nat_to_Q_le.
  unfold count_lt, count_le. rewrite !count_app. simpl.
  pose proof (count_lt_mono v v' pre H). pose proof (count_le_mono v v' pre H).
  unfold count_lt, count_le in *.
  assert (E1 : qltb v v = false).
  { destruct (qltb v v) eqn:E; [|done]. apply qltb_spec in E. exfalso. eapply Qlt_irrefl; eauto. }
  assert (E2 : qltb v' v' = false).
  { destruct (qltb v' v') eqn:E; [|done]. apply qltb_spec in E. exfalso. eapply Qlt_irrefl; eauto. }
  assert (E3 : Qle_bool v v = true) by (apply Qle_bool_iff, Qle_refl).
  assert (E4 : Qle_bool v' v' = true) by (apply Qle_bool_iff, Qle_refl).
  rewrite E1, E2, E3, E4. lia.
Qed.


(** ** Changes *)

Lemma length_shift1 col : length (shift1 col) = length col.
Proof. unfold shift1. rewrite length_take. simpl. lia. Qed.

Lemma lookup_shift1_0 col : col <> [] -> shift1 col !! 0%nat = Some None.
Proof. destruct col; [done|]. intros _. reflexivity. Qed.

Lemma lookup_shift1_S col j :
  (S j < length col)%nat -> shift1 col !! S j = col !! j.
Proof. intros H. unfold shift1. rewrite lookup_take_lt by lia. reflexivity. Qed.

Lemma length_pad_from prev col : length (pad_from prev col) = length col.
Proof. revert prev. induction col as [|x col IH]; intros prev; simpl; [done|]. by rewrite IH. Qed.

Lemma length_pad col : length (pad col) = length col.
Proof. apply length_pad_from. Qed.

Lemma length_diff col : length (diff col) = length col.
Proof. unfold diff. rewrite length_zip_with, length_shift1. lia. Qed.

Lemma length_change_pct_col col : length (change_pct_col col) = length col.
Proof.
  unfold change_pct_col, pct_change.
  rewrite length_fmap, length_zip_with, length_shift1, length_pad. lia.
Qed.

Lemma change_pct_col_0 col : col <> [] -> change_pct_col col !! 0%nat = Some NaN.
Proof.
  intros H. unfold change_pct_col, pct_change.
  rewrite list_lookup_fmap, lookup_zip_with.
  rewrite lookup_shift1_0.
  - destruct (pad col !! 0%nat) as [[?|]|] eqn:E; simpl; try done.
    apply lookup_ge_None in E. rewrite length_pad in E. destruct col; simpl in *; [done|lia].
  - destruct col; [done|]. simpl. done.
Qed.

Lemma change_pct_col_S col j prev cur :
  pad col !! j = Some prev -> pad col !! S j = Some cur ->
  change_pct_col col !! S j = Some (change_pct_of prev cur).
Proof.
  intros Hp Hc. unfold change_pct_col, pct_change.
  rewrite list_lookup_fmap, lookup_zip_with.
  rewrite lookup_shift1_S by (apply lookup_lt_Some in Hc; done).
  rewrite Hp, Hc. reflexivity.
Qed.

Lemma diff_0 col : col <> [] -> diff col !! 0%nat = Some None.
Proof.
  intros H. unfold diff. rewrite lookup_zip_with, lookup_shift1_0 by done.
  destruct col as [|[x|] col]; done.
Qed.

Lemma diff_S col j prev cur :
  col !! j = Some prev -> col !! S j = Some cur ->
  diff col !! S j = Some (osub cur prev).
Proof.
  intros Hp Hc. unfold diff.
  rewrite lookup_zip_with, lookup_shift1_S by (apply lookup_lt_Some in Hc; done).
  rewrite Hp, Hc. reflexivity.
Qed.


Lemma Qeq_bool_zero_dec x : Qeq_bool x 0 = true \/ qltb 0 x = true \/ qltb x 0 = true.
Proof.
  destruct (Q_dec x 0) as [[H|H]|H].
  - right; right. by apply qltb_spec.
  - right; left. by apply qltb_spec.
  - left. by apply Qeq_bool_iff.
Qed.

(** *** Doubles *)

Lemma round_half_even_near q : Qabs (inject_Z (round_half_even q) - q) <= 1 # 2.
Proof.
  pose proof (Qfloor_le q) as L. pose proof (Qlt_floor q) as U.
  rewrite inject_Z_plus in U. change (inject_Z 1) with 1 in U.
  apply Qabs_Qle_condition. unfold round_half_even. cbv zeta.
  destruct (Qcompare (q - inject_Z (Qfloor q)) (1 # 2)) eqn:C.
  - apply Qeq_alt in C. destruct (Z.even (Qfloor q));
      rewrite ?inject_Z_plus; change (inject_Z 1) with 1; split; lra.
  - apply Qlt_alt in C. split; lra.
  - apply Qgt_alt in C. rewrite inject_Z_plus. change (inject_Z 1) with 1. split; lra.
Qed.

Lemma pow2_pos e : 0 < 2 ^ e.
Proof. apply Qpower_0_lt. reflexivity. Qed.

Lemma pow2_add a b : 2 ^ (a + b) == 2 ^ a * 2 ^ b.
Proof. apply Qpower_plus. discriminate. Qed.

Lemma Qabs_num_den q : Qabs q == inject_Z (Z.abs (Qnum q)) / inject_Z (Zpos (Qden q)).
Proof. destruct q as [n d]. simpl. rewrite <- Qmake_Qdiv. reflexivity. Qed.

(** The cheaper of the two candidates for [floor (log2 |q|)] is never
    above it. *)
Lemma log2_pow2_le q :
  ~ q == 0 ->
  2 ^ (Z.log2 (Z.abs (Qnum q)) - Z.log2 (Zpos (Qden q)) - 1) <= Qabs q.
Proof.
  intros Hq.
  set (n := Z.abs (Qnum q)). set (d := Zpos (Qden q)).
  assert (Hn : (0 < n)%Z).
  { unfold n. destruct q as [[|?|?] ?]; simpl; try lia. exfalso. apply Hq. reflexivity. }
  assert (Hd : (0 < d)%Z) by (unfold d; lia).
  destruct (Z.log2_spec n Hn) as [Ln _]. destruct (Z.log2_spec d Hd) as [_ Ld].
  pose proof (Z.log2_nonneg n) as Nn. pose proof (Z.log2_nonneg d) as Nd.
  set (a := Z.log2 n) in *. set (b := Z.log2 d) in *.
  replace (a - b - 1)%Z with (a - (b + 1))%Z by lia.
  rewrite Qpower_minus by discriminate.
  rewrite Qabs_num_den. fold n d.
  assert (A : 2 ^ a <= inject_Z n).
  { change 2 with (inject_Z 2). rewrite <- Zpower_Qpower by lia. rewrite <- Zle_Qle. exact Ln. }
  assert (B : inject_Z d <= 2 ^ (b + 1)).
  { change 2 with (inject_Z 2). rewrite <- Zpower_Qpower by lia. rewrite <- Zle_Qle.
    replace (b + 1)%Z with (Z.succ b) by lia. lia. }
  assert (Dp : 0 < inject_Z d) by (change 0 with (inject_Z 0); rewrite <- Zlt_Qlt; lia).
  pose proof (pow2_pos a) as Pa. pose proof (pow2_pos (b + 1)) as Pb.
  apply Qle_shift_div_l; [exact Dp|].
  apply Qle_trans with (2 ^ a / 2 ^ (b + 1) * 2 ^ (b + 1)).
  - apply Qmult_le_l; [|exact B].
    apply Qlt_shift_div_l; [exact Pb|]. lra.
  - assert (E : 2 ^ a / 2 ^ (b + 1) * 2 ^ (b + 1) == 2 ^ a) by (field; lra).
    rewrite E. exact A.
Qed.

Lemma ulp_exp_spec q :
  ~ q == 0 ->
  ulp_exp q = (-1074)%Z \/ 2 ^ (ulp_exp q + 52) <= Qabs q.
Proof.
  intros Hq. unfold ulp_exp. cbv zeta.
  set (g := (Z.log2 (Z.abs (Qnum q)) - Z.log2 (Zpos (Qden q)))%Z).
  set (l := if Qle_bool (2 ^ g) (Qabs q) then g else (g - 1)%Z).
  assert (Hl : 2 ^ l <= Qabs q).
  { unfold l. destruct (Qle_bool (2 ^ g) (Qabs q)) eqn:E.
    - by apply Qle_bool_iff.
    - by apply log2_pow2_le. }
  destruct (Z.max_spec (l - 52) (-1074)) as [[_ ->]|[_ ->]]; [by left|].
  right. replace (l - 52 + 52)%Z with l by lia. exact Hl.
Qed.

Lemma binary64_not_nan q : binary64 q <> NaN.
Proof.
  unfold binary64. destruct (Qeq_bool q 0); [done|]. cbv zeta.
  destruct (Qle_bool _ _); [destruct (qltb 0 q)|]; done.
Qed.

(** Below [2 ^ 1023] the nearest double is finite, and away from the
    number by at most the relative error [2 ^ -53], or by [2 ^ -1075]
    among the subnormal numbers. *)
Lemma binary64_err q :
  Qabs q <= 2 ^ 1023 ->
  exists y, binary64 q = Fin y /\
    Qabs (y - q) <= Qabs q * (1 # 2 ^ 53) + (1 # 2 ^ 1075).
Proof.
  intros Hb. unfold binary64.
  destruct (Qeq_bool q 0) eqn:E0.
  - apply Qeq_bool_iff in E0. exists 0. split; [done|].
    assert (X : Qabs (0 - q) == 0) by (rewrite E0; reflexivity).
    rewrite X. pose proof (Qabs_nonneg q).
    apply Qle_trans with (Qabs q * (1 # 2 ^ 53)).
    + apply Qmult_le_0_compat; [done|discriminate].
    + assert (0 <= 1 # 2 ^ 1075) by discriminate. lra.
  - assert (Hq : ~ q == 0) by (intros H; apply Qeq_bool_iff in H; congruence).
    cbv zeta. set (e := ulp_exp q).
    set (z := q / 2 ^ e). set (m := inject_Z (round_half_even z)).
    pose proof (pow2_pos e) as Pe.
    pose proof (round_half_even_near z) as Hm. fold m in Hm.
    assert (Hz : q == z * 2 ^ e) by (unfold z; field; lra).
    assert (Herr : Qabs (m * 2 ^ e - q) <= 2 ^ e * (1 # 2)).
    { assert (X : m * 2 ^ e - q == (m - z) * 2 ^ e) by (rewrite Hz at 1; ring).
      rewrite X, Qabs_Qmult, (Qabs_pos (2 ^ e)) by lra.
      rewrite (Qmult_comm (2 ^ e)). apply Qmult_le_compat_r; [exact Hm|lra]. }
    assert (Hu : 2 ^ e * (1 # 2) <= Qabs q * (1 # 2 ^ 53) + (1 # 2 ^ 1075)).
    { pose proof (Qabs_nonneg q) as Hn.
      destruct (ulp_exp_spec q Hq) as [He|He]; fold e in He.
      - rewrite He.
        assert (X : 2 ^ (-1074) * (1 # 2) == 1 # 2 ^ 1075) by (by vm_compute).
        rewrite X. assert (0 <= Qabs q * (1 # 2 ^ 53)); [|lra].
        apply Qmult_le_0_compat; [done|discriminate].
      - rewrite pow2_add in He.
        assert (X : 2 ^ 52 == inject_Z (2 ^ 52)) by (by vm_compute).
        assert (Y : (1 # 2 ^ 53) == (1 # 2) / inject_Z (2 ^ 52)) by (by vm_compute).
        assert (0 <= 1 # 2 ^ 1075) by discriminate.
        apply Qle_trans with (Qabs q * (1 # 2 ^ 53)); [|lra].
        rewrite Y. unfold Qdiv. rewrite Qmult_assoc.
        apply Qle_shift_div_l; [by vm_compute|].
        rewrite X in He. lra. }
    assert (Hr : Qabs (m * 2 ^ e) < 2 ^ 1024).
    { assert (T : Qabs (m * 2 ^ e) <= Qabs q + Qabs (m * 2 ^ e - q)).
      { assert (X : m * 2 ^ e == q + (m * 2 ^ e - q)) by ring.
        rewrite X at 1. apply Qabs_triangle. }
      assert (V : Qabs q * (1 # 2 ^ 53) + (1 # 2 ^ 1075)
                  <= 2 ^ 1023 * (1 # 2 ^ 53) + (1 # 2 ^ 1075)).
      { apply Qplus_le_l. apply Qmult_le_compat_r; [exact Hb|discriminate]. }
      assert (W : 2 ^ 1023 + (2 ^ 1023 * (1 # 2 ^ 53) + (1 # 2 ^ 1075)) < 2 ^ 1024)
        by (by vm_compute).
      lra. }
    destruct (Qle_bool (2 ^ 1024) (Qabs (m * 2 ^ e))) eqn:Eo.
    { apply Qle_bool_iff in Eo. lra. }
    exists (Qred (m * 2 ^ e)). split; [done|].
    rewrite Qred_correct. lra.
Qed.

Lemma binary64_within x A :
  Qabs x <= A -> A <= 10000000000000000000000 ->
  exists y, binary64 x = Fin y /\
    Qabs (y - x) <= A * (1 # 9000000000000000) + (1 # 1000000000000000000000000000000).
Proof.
  intros Hx HA.
  assert (Big : (10000000000000000000000:Q) <= 2 ^ 1023) by (by vm_compute).
  destruct (binary64_err x) as (y & Hy & He); [lra|].
  exists y. split; [done|].
  pose proof (Qabs_nonneg x) as Hn.
  assert (H1 : Qabs x * (1 # 2 ^ 53) <= A * (1 # 2 ^ 53))
    by (apply Qmult_le_compat_r; [done|discriminate]).
  assert (H2 : A * (1 # 2 ^ 53) <= A * (1 # 9000000000000000)).
  { rewrite !(Qmult_comm A). apply Qmult_le_compat_r; [by vm_compute|lra]. }
  assert (H3 : (1 # 2 ^ 1075) <= 1 # 1000000000000000000000000000000) by (by vm_compute).
  lra.
Qed.

(** The cases of [change_pct_of]. *)
Lemma change_pct_of_finite p v :
  ~ p == 0 ->
  change_pct_of (Some p) (Some v) =
    round1_double (fl_map (fun q => q * 100) (fl_map (fun q => q - 1) (binary64 (v / p)))).
Proof.
  intros H. unfold change_pct_of, fdiv.
  destruct (Qeq_bool p 0) eqn:E; [by apply Qeq_bool_iff in E|]. reflexivity.
Qed.

Lemma change_pct_of_zero p v :
  p == 0 ->
  change_pct_of (Some p) (Some v) =
    if Qeq_bool v 0 then NaN else if qltb 0 v then PInf else NInf.
Proof.
  intros H. unfold change_pct_of, fdiv.
  apply Qeq_bool_iff in H. rewrite H.
  destruct (Qeq_bool v 0); [done|]. destruct (qltb 0 v); done.
Qed.

Lemma round1_double_nan x : round1_double x = NaN <-> x = NaN.
Proof.
  unfold round1_double. destruct x as [| | |q]; simpl; try done.
  pose proof (binary64_not_nan (q * 10)). destruct (binary64 (q * 10)); done.
Qed.

Lemma fl_map_nan f x : fl_map f x = NaN <-> x = NaN.
Proof.
  destruct x as [| | |q]; simpl; try done.
  pose proof (binary64_not_nan (f q)). split; done.
Qed.

Lemma change_pct_of_nan prev cur :
  change_pct_of prev cur = NaN <->
  prev = None \/ cur = None \/ exists p v, prev = Some p /\ cur = Some v /\ p == 0 /\ v == 0.
Proof.
  unfold change_pct_of. rewrite round1_double_nan, !fl_map_nan. unfold fdiv.
  destruct cur as [v|], prev as [p|]; simpl; try (split; [auto|done]).
  destruct (Qeq_bool p 0) eqn:Ep.
  - destruct (Qeq_bool v 0) eqn:Ev; simpl.
    + split; [|done]. intros _. right; right. exists p, v.
      apply Qeq_bool_iff in Ep, Ev. done.
    + split.
      * destruct (qltb 0 v); done.
      * intros [?|[?|(p' & v' & ? & ? & ? & Hv)]]; try done. simplify_eq.
        apply Qeq_bool_iff in Hv. congruence.
  - split; [by intros ?%binary64_not_nan|].
    intros [?|[?|(p' & v' & ? & ? & Hp & Hv)]]; try done. simplify_eq.
    apply Qeq_bool_iff in Hp. congruence.
Qed.

(** For a quotient of at most [2 ^ 53] the double computation of the
    percentage ends in a whole number of tenths within the tolerance
    of the exact percentage. *)
Lemma change_pct_cases_bound p v :
  ~ p == 0 -> Qabs v <= 2 ^ 53 * Qabs p ->
  exists k : Z,
    change_pct_cases (Some p) (Some v) = Fin (inject_Z k / 10) /\
    Qabs (inject_Z k / 10 - (v / p - 1) * 100) <= double_tolerance ((v / p - 1) * 100).
Proof.
  intros Hp Hv. unfold change_pct_cases, double_tolerance.
  destruct (Qeq_bool p 0) eqn:E0; [by apply Qeq_bool_iff in E0|]. clear E0.
  unfold round1_double.
  set (t := v / p).
  assert (Ht : Qabs t <= 2 ^ 53).
  { unfold t, Qdiv. rewrite Qabs_Qmult, Qabs_Qinv.
    assert (0 < Qabs p).
    { apply Qnot_le_lt. intros L. apply Hp.
      apply Qabs_Qle_condition in L. lra. }
    apply Qle_shift_div_r; [done|]. lra. }
  set (a := Qabs (t - 1)).
  assert (Ha0 : 0 <= a) by apply Qabs_nonneg.
  assert (Ha : - a <= t - 1 <= a) by (apply Qabs_Qle_condition; unfold a; lra).
  assert (P53 : (2:Q) ^ 53 == 9007199254740992) by (by vm_compute).
  assert (Hta : - (2 ^ 53) <= t <= 2 ^ 53) by (by apply Qabs_Qle_condition).
  assert (Ha1 : a <= 2 ^ 53 + 1).
  { unfold a. apply Qabs_Qle_condition. lra. }
  rewrite P53 in *.
  destruct (binary64_within t (a + 1)) as (r1 & -> & E1);
    [apply Qabs_Qle_condition; lra|lra|].
  apply Qabs_Qle_condition in E1.
  cbn [fl_map].
  destruct (binary64_within (r1 - 1) (a + (a + 1) * (1 # 1000))) as (r2 & -> & E2);
    [apply Qabs_Qle_condition; lra|lra|].
  apply Qabs_Qle_condition in E2.
  cbn [fl_map].
  destruct (binary64_within (r2 * 100) (100 * a + (a + 1) * (1 # 5))) as (r3 & -> & E3);
    [apply Qabs_Qle_condition; lra|lra|].
  apply Qabs_Qle_condition in E3.
  cbn [fl_map].
  destruct (binary64_within (r3 * 10) (1000 * a + (a + 1) * 3)) as (r4 & -> & E4);
    [apply Qabs_Qle_condition; lra|lra|].
  apply Qabs_Qle_condition in E4.
  cbn [fin_map].
  exists (round_half_even r4). split; [done|].
  pose proof (round_half_even_near r4) as Hk. apply Qabs_Qle_condition in Hk.
  set (k := inject_Z (round_half_even r4)) in *.
  assert (Ec : Qabs ((t - 1) * 100) == 100 * a).
  { unfold a. rewrite Qabs_Qmult. rewrite (Qabs_pos 100) by discriminate. ring. }
  rewrite Ec.
  apply Qabs_Qle_condition.
  assert (D1 : k / 10 == k * (1 # 10)) by field.
  assert (D2 : (100 * a + 100) / 1000000000000000
               == (100 * a + 100) * (1 # 1000000000000000)) by field.
  rewrite D1, D2.
  clearbody k a t. clear Ec Ht Hv D1 D2.
  split; lra.
Qed.

(** What the tolerance leaves of the sign: a result above zero comes
    from a percentage above zero, a result below zero from one below,
    and a percentage of zero gives zero. *)
Lemma double_tolerance_sign (k : Z) x :
  Qabs (inject_Z k / 10 - x) <= double_tolerance x ->
  ((0 < k)%Z -> 0 < x) /\ ((k < 0)%Z -> x < 0) /\ (x == 0 -> k = 0%Z) /\
  (double_tolerance x < x -> (0 < k)%Z) /\
  (x < (1 # 10) - double_tolerance x -> (k <= 0)%Z).
Proof.
  unfold double_tolerance. intros H. apply Qabs_Qle_condition in H.
  assert (D1 : inject_Z k / 10 == inject_Z k * (1 # 10)) by field.
  assert (D2 : (Qabs x + 100) / 1000000000000000
               == (Qabs x + 100) * (1 # 1000000000000000)) by field.
  rewrite D1 in H. rewrite D2 in *. clear D1 D2.
  assert (K : forall z : Z, (z <= k)%Z -> inject_Z z <= inject_Z k)
    by (intros; by rewrite <- Zle_Qle).
  assert (K' : forall z : Z, (k <= z)%Z -> inject_Z k <= inject_Z z)
    by (intros; by rewrite <- Zle_Qle).
  assert (S : (0 <= x /\ Qabs x == x) \/ (x <= 0 /\ Qabs x == - x)).
  { destruct (Qlt_le_dec x 0); [right|left]; split; try lra.
    - apply Qabs_neg. lra.
    - by apply Qabs_pos. }
  set (q := inject_Z k) in *.
  repeat split.
  - intros Hk. specialize (K 1%Z ltac:(lia)). change (inject_Z 1) with 1 in K.
    destruct S as [[? E]|[? E]]; rewrite E in H; lra.
  - intros Hk. specialize (K' (-1)%Z ltac:(lia)). change (inject_Z (-1)) with (-1) in K'.
    destruct S as [[? E]|[? E]]; rewrite E in H; lra.
  - intros Hx. destruct (Z_lt_le_dec k 0) as [G|G].
    + specialize (K' (-1)%Z ltac:(lia)). change (inject_Z (-1)) with (-1) in K'.
      destruct S as [[? E]|[? E]]; rewrite E in H; lra.
    + destruct (Z.eq_dec k 0%Z) as [|N]; [done|].
      specialize (K 1%Z ltac:(lia)). change (inject_Z 1) with 1 in K.
      destruct S as [[? E]|[? E]]; rewrite E in H; lra.
  - intros Hx. destruct (Z_lt_le_dec 0 k) as [G|G]; [done|]. exfalso.
    specialize (K' 0%Z G). change (inject_Z 0) with 0 in K'.
    destruct S as [[? E]|[? E]]; rewrite E in H, Hx; lra.
  - intros Hx. destruct (Z_lt_le_dec 0 k) as [G|G]; [|done]. exfalso.
    specialize (K 1%Z ltac:(lia)). change (inject_Z 1) with 1 in K.
    destruct S as [[? E]|[? E]]; rewrite E in H, Hx; lra.
Qed.

(** ** Rolling windows *)

Lemma present_cons x l :
  present (x :: l) = match x with Some v => v :: present l | None => present l end.
Proof. by destruct x. Qed.

Lemma length_present_le l : (length (present l) <= length l)%nat.
Proof.
  induction l as [|[x|] l IH]; [done|..]; rewrite present_cons; simpl; lia.
Qed.

Lemma present_fmap_Some (w : list Q) : present (Some <$> w) = w.
Proof.
  induction w as [|x w IH]; [done|].
  rewrite fmap_cons, present_cons. by rewrite IH.
Qed.

Lemma present_full l : length (present l) = length l -> l = Some <$> present l.
Proof.
  induction l as [|[x|] l IH]; [done|..]; rewrite present_cons; simpl; intros H.
  - f_equal. apply IH. lia.
  - pose proof (length_present_le l). lia.
Qed.

Lemma present_all_Some l : Forall is_Some l -> length (present l) = length l.
Proof.
  induction 1 as [|x l [y ->] _ IH]; [done|].
  rewrite present_cons. simpl. by rewrite IH.
Qed.

Lemma length_trailing W i col :
  length (trailing W i col) = (Nat.min (S i) (length col) - (S i - W))%nat.
Proof. unfold trailing. rewrite length_drop, length_take. done. Qed.

Lemma lookup_trailing W i col k :
  (W <= S i)%nat -> (k < W)%nat -> trailing W i col !! k = col !! (S i - W + k)%nat.
Proof.
  intros H1 H2. unfold trailing. rewrite lookup_drop, lookup_take_lt by lia. done.
Qed.

Lemma last_trailing W i col :
  (0 < W)%nat -> (i < length col)%nat -> last (trailing W i col) = col !! i.
Proof.
  intros HW Hi. rewrite last_lookup, length_trailing.
  unfold trailing. rewrite lookup_drop, lookup_take_lt by lia.
  f_equal. lia.
Qed.

Lemma trailing_Forall W i col : Forall is_Some col -> Forall is_Some (trailing W i col).
Proof.
  intros H. unfold trailing. apply Forall_drop, Forall_take, H.
Qed.

Lemma last_rank_eq x : last_rank x = (fun v => rank_pct_in x v * 100) <$> last x.
Proof. unfold last_rank. rewrite fmap_last. destruct (last x); done. Qed.

Lemma lookup_rolling_apply W f col i :
  rolling_apply W f col !! i =
  (fun _ => let obs := present (trailing W i col) in
            if W <=? length obs then f obs else None) <$> col !! i.
Proof. unfold rolling_apply. by rewrite list_lookup_imap. Qed.

Lemma length_pct_window W col : length (pct_window W col) = length col.
Proof.
  unfold pct_window. destruct (W <=? length col).
  - unfold rolling_apply. by rewrite length_fmap, length_imap.
  - by rewrite length_fmap.
Qed.

(** The rolling rank at row [i]. *)
Lemma cell_pct_window W col i :
  (i < length col)%nat ->
  cell (pct_window W col) i =
    let obs := present (trailing W i col) in
    if W <=? length obs then round1 <$> last_rank obs else None.
Proof.
  intros Hi. unfold cell, pct_window.
  destruct (lookup_lt_is_Some_2 col i Hi) as [x Hx].
  pose proof (length_present_le (trailing W i col)) as L1.
  rewrite length_trailing in L1.
  destruct (W <=? length col) eqn:G.
  - rewrite list_lookup_fmap, lookup_rolling_apply, Hx. simpl.
    destruct (W <=? length (present (trailing W i col))); done.
  - rewrite list_lookup_fmap, Hx. simpl.
    apply Nat.leb_gt in G.
    destruct (W <=? length (present (trailing W i col))) eqn:G'; [|done].
    apply Nat.leb_le in G'. lia.
Qed.

Lemma cell_pct_window_early W col i : (S i < W)%nat -> cell (pct_window W col) i = None.
Proof.
  intros H. destruct (decide (i < length col)%nat) as [Hi|Hi].
  - rewrite cell_pct_window by done. simpl.
    pose proof (length_present_le (trailing W i col)) as L1.
    rewrite length_trailing in L1.
    destruct (W <=? length (present (trailing W i col))) eqn:G'; [|done].
    apply Nat.leb_le in G'. lia.
  - unfold cell. rewrite lookup_ge_None_2; [done|]. rewrite length_pct_window. lia.
Qed.

Lemma cell_pct_window_short W col i :
  (length col < W)%nat -> cell (pct_window W col) i = None.
Proof.
  intros H. unfold cell, pct_window.
  replace (W <=? length col) with false by (symmetry; apply Nat.leb_gt; lia).
  rewrite list_lookup_fmap. destruct (col !! i); done.
Qed.

Lemma cell_pct_window_missing W col i :
  (exists k, (k < W)%nat /\ (W <= S i)%nat /\ col !! (S i - W + k)%nat = Some None) ->
  cell (pct_window W col) i = None.
Proof.
  intros (k & Hk & HW & Hn).
  destruct (decide (i < length col)%nat) as [Hi|Hi].
  2:{ unfold cell. rewrite lookup_ge_None_2; [done|]. rewrite length_pct_window. lia. }
  rewrite cell_pct_window by done. simpl.
  destruct (W <=? length (present (trailing W i col))) eqn:G'; [|done].
  apply Nat.leb_le in G'.
  pose proof (length_present_le (trailing W i col)) as L1.
  assert (L2 : length (trailing W i col) = W) by (rewrite length_trailing; lia).
  assert (E : trailing W i col = Some <$> present (trailing W i col)).
  { apply present_full. lia. }
  assert (T := lookup_trailing W i col k HW Hk). rewrite Hn in T.
  rewrite E, list_lookup_fmap in T. destruct (present _ !! k); done.
Qed.

(** A full window of present values [w]: the rank of its last value. *)
Lemma cell_pct_window_full W col i w :
  (0 < W)%nat -> (W <= S i)%nat -> (i < length col)%nat ->
  trailing W i col = Some <$> w ->
  length w = W /\
  exists v, col !! i = Some (Some v) /\ last w = Some v /\
    cell (pct_window W col) i = Some (round1 (rank_pct_in w v * 100)).
Proof.
  intros HW Hle Hi Hw.
  assert (L : length w = W).
  { rewrite <- (length_fmap Some w), <- Hw, length_trailing. lia. }
  split; [done|].
  assert (Hl := last_trailing W i col HW Hi).
  rewrite Hw, fmap_last in Hl.
  destruct (last w) as [v|] eqn:Ev.
  2:{ apply last_None in Ev. subst w. simpl in L. lia. }
  exists v. split; [done|]. split; [done|].
  rewrite cell_pct_window by done. simpl.
  rewrite Hw, present_fmap_Some, L, Nat.leb_refl.
  rewrite last_rank_eq, Ev. done.
Qed.

Lemma cell_pct_window_defined W col i :
  (0 < W)%nat -> (W <= S i)%nat -> (i < length col)%nat -> Forall is_Some col ->
  is_Some (cell (pct_window W col) i).
Proof.
  intros HW Hle Hi Hall.
  pose proof (trailing_Forall W i col Hall) as HT.
  pose proof (present_all_Some _ HT) as HL.
  pose proof (present_full _ HL) as HE.
  destruct (cell_pct_window_full W col i _ HW Hle Hi HE) as (_ & v & _ & _ & ->).
  eauto.
Qed.

(** ** Year to date *)

Lemma length_scatter mask vals : length (scatter mask vals) = length mask.
Proof.
  revert vals. induction mask as [|[|] mask IH]; intros vals; simpl; [done|..].
  - destruct vals; simpl; by rewrite IH.
  - by rewrite IH.
Qed.

Lemma scatter_select_lookup (F : option Q -> option Q) mask (col : list (option Q)) i (b : bool) x :
  mask !! i = Some b -> col !! i = Some x ->
  scatter mask (F <$> select mask col) !! i = Some (if b then F x else None).
Proof.
  revert col i. induction mask as [|b0 mask IH]; intros col i Hm Hc; [done|].
  destruct col as [|x0 col]; [done|].
  destruct b0; simpl; (destruct i as [|i]; simpl in *; [by simplify_eq|by apply IH]).
Qed.

Lemma filter_ext_in {A} (P Q : A -> Prop) `{!forall x, Decision (P x)} `{!forall x, Decision (Q x)}
    (l : list A) :
  (forall x, x ∈ l -> P x <-> Q x) -> filter P l = filter Q l.
Proof.
  induction l as [|x l IH]; intros Hext; [done|].
  rewrite !filter_cons.
  assert (E : filter P l = filter Q l) by (apply IH; intros; apply Hext; by right).
  rewrite E. pose proof (Hext x (list_elem_of_here _ _)) as Hx.
  destruct (decide (P x)) as [p|p], (decide (Q x)) as [q|q]; try done; tauto.
Qed.

Lemma select_mask_column cy c l :
  select (ytd_mask cy (date <$> l)) (column c l) =
  column c (filter (fun r => date_le (mk_date cy 1 1) (date r)) l).
Proof.
  unfold ytd_mask, column. induction l as [|r l IH]; [done|].
  rewrite filter_cons. rewrite !fmap_cons. simpl select.
  destruct (decide (date_le _ _)) as [p|p]; unfold date_le in p.
  - rewrite p. rewrite fmap_cons. by rewrite IH.
  - apply not_true_is_false in p. rewrite p. exact IH.
Qed.

Lemma jan1_le cy d : date_le (mk_date cy 1 1) d <-> (cy <= year d)%Z.
Proof. rewrite date_le_spec. simpl. lia. Qed.

Lemma max_date_spec l m :
  max_date l = Some m -> m ∈ l /\ forall d, d ∈ l -> date_le d m.
Proof.
  revert m. induction l as [|d0 l IH]; intros m H; [done|]. simpl in H.
  destruct (max_date l) as [m'|] eqn:E.
  - destruct (IH m' eq_refl) as [Hin Hmax].
    destruct (date_leb m' d0) eqn:L; simplify_eq.
    + split; [by left|]. intros d [->|Hd]%elem_of_cons; [reflexivity|].
      etrans; [by apply Hmax|]. exact L.
    + split; [by right|]. intros d [->|Hd]%elem_of_cons; [|by apply Hmax].
      match goal with
      | |- date_le ?a ?b =>
          destruct (date_le_total b a) as [T|T]; [|done]; unfold date_le in T; congruence
      end.
  - simplify_eq. destruct l; [|simpl in E; destruct (max_date l); done].
    split; [by left|]. intros d [->|Hd]%elem_of_cons; [reflexivity|inv Hd].
Qed.

Lemma max_date_is_Some l : l <> [] -> is_Some (max_date l).
Proof. destruct l as [|d l]; [done|]. intros _. simpl. destruct (max_date l); eauto. Qed.

(** The rows on or after January 1 of the latest year are the rows of
    that year. *)
Lemma ytd_filter l m :
  max_date (date <$> l) = Some m ->
  filter (fun r => date_le (mk_date (year m) 1 1) (date r)) l = ytd_rows (year m) l.
Proof.
  intros H. apply max_date_spec in H as [_ Hmax].
  apply filter_ext_in. intros r Hr. rewrite jan1_le.
  assert (L : date_le (date r) m) by (apply Hmax; by apply list_elem_of_fmap_2).
  apply date_le_spec in L. lia.
Qed.

Lemma length_pct_ytd_col cy dates col :
  length dates = length col -> length (pct_ytd_col cy dates col) = length col.
Proof.
  intros H. unfold pct_ytd_col. destruct (1 <? _).
  - rewrite length_scatter. unfold ytd_mask. by rewrite length_fmap.
  - by rewrite length_fmap.
Qed.

(** The year-to-date cell of row [i]. *)
Lemma cell_pct_ytd cy c l i r :
  l !! i = Some r ->
  cell (pct_ytd_col cy (date <$> l) (column c l)) i =
    let ytd := filter (fun r => date_le (mk_date cy 1 1) (date r)) l in
    if (1 <? length ytd) && date_leb (mk_date cy 1 1) (date r)
    then (fun v => rank_pct_in (present (column c ytd)) v * 100) <$> (cells r !! c)
    else None.
Proof.
  intros Hr. unfold cell, pct_ytd_col. cbv zeta.
  rewrite select_mask_column.
  set (ytd := filter _ l).
  assert (EL : length (column c ytd) = length ytd) by (unfold column; apply length_fmap).
  rewrite EL.
  assert (Hm : ytd_mask cy (date <$> l) !! i = Some (date_leb (mk_date cy 1 1) (date r))).
  { unfold ytd_mask. by rewrite !list_lookup_fmap, Hr. }
  assert (Hc : column c l !! i = Some (cells r !! c)).
  { unfold column. by rewrite list_lookup_fmap, Hr. }
  destruct (1 <? length ytd); simpl.
  - unfold rank_pct. rewrite <- list_fmap_compose.
    subst ytd. rewrite <- select_mask_column.
    rewrite (scatter_select_lookup _ _ _ _ _ _ Hm Hc).
    simpl. destruct (date_leb _ _); [|done].
    destruct (cells r !! c); done.
  - rewrite list_lookup_fmap, Hc. done.
Qed.

(** ** Net position columns *)

Lemma has_assign c c' f d : has c' (assign c f d) = has c' d || bool_decide (c' = c).
Proof.
  unfold has, assign. simpl. fold (has c d). unfold has.
  destruct (bool_decide (c ∈ columns d)) eqn:E.
  - apply bool_decide_eq_true in E.
    destruct (bool_decide (c' = c)) eqn:E'; [|by rewrite orb_false_r].
    apply bool_decide_eq_true in E'. subst. rewrite orb_true_r. by apply bool_decide_eq_true.
  - apply eq_true_iff_eq.
    rewrite orb_true_iff, !bool_decide_eq_true, elem_of_app, list_elem_of_singleton.
    done.
Qed.

Lemma value_assign c c' f d i :
  value (assign c f d) i c' =
    if bool_decide (c' = c) then rows d !! i ≫= f else value d i c'.
Proof.
  unfold value, assign. simpl. rewrite list_lookup_fmap.
  destruct (rows d !! i) as [r|]; simpl; [|by destruct (bool_decide _)].
  case_bool_decide; subst.
  - by rewrite lookup_partial_alter_eq.
  - by rewrite lookup_partial_alter_ne.
Qed.

Lemma bind_col_sub a b d i : rows d !! i ≫= col_sub a b = osub (value d i a) (value d i b).
Proof. unfold value, col_sub, osub. destruct (rows d !! i); done. Qed.

(** Assigning a column: the column itself, and the others. *)
Lemma has_assign_eq c f d : has c (assign c f d) = true.
Proof. rewrite has_assign, bool_decide_eq_true_2 by done. apply orb_true_r. Qed.

Lemma has_assign_ne c c' f d : c' <> c -> has c' (assign c f d) = has c' d.
Proof. intros H. rewrite has_assign, bool_decide_eq_false_2 by done. apply orb_false_r. Qed.

Lemma value_assign_eq c a b d i :
  value (assign c (col_sub a b) d) i c = osub (value d i a) (value d i b).
Proof. rewrite value_assign, bool_decide_eq_true_2 by done. apply bind_col_sub. Qed.

Lemma value_assign_ne c c' f d i : c' <> c -> value (assign c f d) i c' = value d i c'.
Proof. intros H. by rewrite value_assign, bool_decide_eq_false_2. Qed.

Lemma columns_assign_has c f d : has c d = true -> columns (assign c f d) = columns d.
Proof. intros H. unfold assign. simpl. by rewrite H. Qed.

(** A guarded net column: the column itself, and the others. *)
Lemma has_net_eq name a b d :
  has a d = true -> has b d = true -> has name (net name a b d) = true.
Proof. intros Ha Hb. unfold net. rewrite Ha, Hb. apply has_assign_eq. Qed.

Lemma has_net_ne name a b c' d : c' <> name -> has c' (net name a b d) = has c' d.
Proof. intros H. unfold net. destruct (_ && _); [by apply has_assign_ne|done]. Qed.

Lemma value_net_eq name a b d i :
  has a d = true -> has b d = true ->
  value (net name a b d) i name = osub (value d i a) (value d i b).
Proof. intros Ha Hb. unfold net. rewrite Ha, Hb. apply value_assign_eq. Qed.

Lemma value_net_ne name a b c' d i :
  c' <> name -> value (net name a b d) i c' = value d i c'.
Proof. intros H. unfold net. destruct (_ && _); [by apply value_assign_ne|done]. Qed.

(** Lines 58-60. *)
Lemma has_subtract_spreading c d : has c (subtract_spreading d) = has c d.
Proof.
  unfold subtract_spreading.
  destruct (has "spreading" d && has "Large Speculator Net" d) eqn:G; [|done].
  apply andb_true_iff in G as [_ G]. unfold has at 1. by rewrite columns_assign_has.
Qed.

Lemma value_subtract_spreading_ne c d i :
  c <> "Large Speculator Net" -> value (subtract_spreading d) i c = value d i c.
Proof.
  intros H. unfold subtract_spreading. destruct (_ && _); [by apply value_assign_ne|done].
Qed.

Lemma value_subtract_spreading d i :
  has "Large Speculator Net" d = true ->
  value (subtract_spreading d) i "Large Speculator Net" =
    if has "spreading" d
    then osub (value d i "Large Speculator Net") (value d i "spreading")
    else value d i "Large Speculator Net".
Proof.
  intros H. unfold subtract_spreading. rewrite H, andb_true_r.
  destruct (has "spreading" d); [apply value_assign_eq|done].
Qed.

(** Peel the assignments that do not touch the column read. *)
Ltac peel :=
  repeat first
    [ rewrite has_subtract_spreading
    | rewrite value_subtract_spreading_ne by done
    | rewrite value_net_ne by done
    | rewrite has_net_ne by done
    | rewrite value_assign_ne by done
    | rewrite has_assign_ne by done ].

Lemma detect_schema_cases d :
  match detect_schema d with
  | Disaggregated =>
      has "producer_merchant_processor_user_longs" d = true /\
      has "producer_merchant_processor_user_shorts" d = true
  | Legacy =>
      (has "producer_merchant_processor_user_longs" d &&
       has "producer_merchant_processor_user_shorts" d = false) /\
      has "commercial_longs" d = true /\ has "commercial_shorts" d = true
  | Unrecognized =>
      (has "producer_merchant_processor_user_longs" d &&
       has "producer_merchant_processor_user_shorts" d = false) /\
      (has "commercial_longs" d && has "commercial_shorts" d = false)
  end.
Proof.
  unfold detect_schema.
  destruct (has "producer_merchant_processor_user_longs" d),
           (has "producer_merchant_processor_user_shorts" d),
           (has "commercial_longs" d), (has "commercial_shorts" d); simpl; auto.
Qed.

(** The speculator net of a recognized schema, before and after lines 58-60. *)
Lemma speculator_net_added d i longs shorts :
  speculator (detect_schema d) = Some (longs, shorts) ->
  has longs d = true -> has shorts d = true ->
  has "Large Speculator Net" (add_schema_nets d) = true /\
  value (add_schema_nets d) i "Large Speculator Net" =
    osub (value d i longs) (value d i shorts).
Proof.
  intros Hs Hl Hsh. unfold add_schema_nets.
  destruct (detect_schema d); simpl in Hs; simplify_eq.
  - split.
    + peel. apply has_net_eq; by peel.
    + peel. rewrite value_net_eq by (by peel). by peel.
  - split.
    + peel. apply has_net_eq; by peel.
    + peel. rewrite value_net_eq by (by peel). by peel.
Qed.

Lemma raw_after_schema_nets d i c :
  c ∉ net_names ->
  has c (add_schema_nets d) = has c d /\
  value (add_schema_nets d) i c = value d i c.
Proof.
  intros H. unfold net_names in H.
  rewrite !not_elem_of_cons in H. destruct H as (?&?&?&?&?&_).
  unfold add_schema_nets. destruct (detect_schema d); by peel.
Qed.

(** C6. Under a recognized schema whose speculator columns are
    present, Large Speculator Net is the speculator longs minus shorts,
    minus [spreading] when that column is present; every other net of
    the schema is its longs minus shorts whether or not [spreading] is
    present. With longs 100, shorts 40 and spreading 30 the net is 30,
    and 60 without a [spreading] column. *)
Theorem large_speculator_net d i longs shorts :
  speculator (detect_schema d) = Some (longs, shorts) ->
  has longs d = true -> has shorts d = true ->
  let net_value := osub (value d i longs) (value d i shorts) in
  value (add_net_columns d) i "Large Speculator Net" =
    (if has "spreading" d then osub net_value (value d i "spreading") else net_value) /\
  (forall name a b, (name, (a, b)) ∈ other_nets (detect_schema d) ->
     has a d = true -> has b d = true ->
     value (add_net_columns d) i name = osub (value d i a) (value d i b)) /\
  value (add_net_columns legacy_with_spreading) 0 "Large Speculator Net" = Some 30 /\
  value (add_net_columns legacy_without_spreading) 0 "Large Speculator Net" = Some 60 /\
  value (add_net_columns disaggregated_with_spreading) 0 "Large Speculator Net" = Some 30 /\
  value (add_net_columns legacy_with_spreading) 0 "Commercial Net" = Some 50.
Proof.
  intros Hs Hl Hsh. cbv zeta.
  split; [|split; [|by vm_compute]].
  - destruct (speculator_net_added d i longs shorts Hs Hl Hsh) as [Hhas Hval].
    unfold add_net_columns. rewrite (value_subtract_spreading _ _ Hhas), Hval.
    destruct (raw_after_schema_nets d i "spreading") as [-> ->]; [|done].
    unfold net_names. rewrite !not_elem_of_cons. repeat split; try done. apply not_elem_of_nil.
  - intros name a b Hin Ha Hb. unfold add_net_columns, add_schema_nets.
    destruct (detect_schema d); simpl in Hin;
      repeat (apply elem_of_cons in Hin as [Hin|Hin]; [simplify_eq|]);
      try (by apply elem_of_nil in Hin).
    + peel. apply value_assign_eq.
    + peel. rewrite value_net_eq by (by peel). by peel.
    + peel. rewrite value_net_eq by (by peel). by peel.
    + peel. apply value_assign_eq.
    + peel. rewrite value_net_eq by (by peel). by peel.
Qed.

(** C8, as amended. A frame is Disaggregated exactly when both
    [producer_merchant_processor_user_longs] and [..._shorts] are
    present; otherwise it is Legacy exactly when both [commercial_longs]
    and [commercial_shorts] are present. Either way Commercial Net is
    added as the longs minus the shorts of that pair. Otherwise no column
    is added, no error is raised, and every column passes through
    unchanged, except that a column of the input that is itself named
    Large Speculator Net still has [spreading] subtracted when both are
    present. *)
Theorem schema_detection d i :
  (detect_schema d = Disaggregated <->
     has "producer_merchant_processor_user_longs" d = true /\
     has "producer_merchant_processor_user_shorts" d = true) /\
  (detect_schema d = Legacy <->
     ~ (has "producer_merchant_processor_user_longs" d = true /\
        has "producer_merchant_processor_user_shorts" d = true) /\
     has "commercial_longs" d = true /\ has "commercial_shorts" d = true) /\
  (detect_schema d = Disaggregated ->
     has "Commercial Net" (add_net_columns d) = true /\
     value (add_net_columns d) i "Commercial Net" =
       osub (value d i "producer_merchant_processor_user_longs")
            (value d i "producer_merchant_processor_user_shorts")) /\
  (detect_schema d = Legacy ->
     has "Commercial Net" (add_net_columns d) = true /\
     value (add_net_columns d) i "Commercial Net" =
       osub (value d i "commercial_longs") (value d i "commercial_shorts")) /\
  (detect_schema d = Unrecognized ->
     columns (add_net_columns d) = columns d /\
     (forall c, c <> "Large Speculator Net" ->
                value (add_net_columns d) i c = value d i c) /\
     (has "spreading" d && has "Large Speculator Net" d = false ->
      add_net_columns d = d)).
Proof.
  pose proof (detect_schema_cases d) as HC.
  split; [|split; [|split; [|split]]].
  - destruct (detect_schema d); split; try done; intros [H1 H2];
      destruct HC as [HC _]; rewrite H1, H2 in HC; done.
  - destruct (detect_schema d); split; try done.
    + intros (HN & _). destruct HN. done.
    + intros _. destruct HC as (HN & ? & ?). split; [|done].
      intros [H1 H2]. rewrite H1, H2 in HN. done.
    + intros (_ & H1 & H2). destruct HC as [_ HC]. rewrite H1, H2 in HC. done.
  - intros E. unfold add_net_columns, add_schema_nets. rewrite E. clear HC.
    split; peel; [apply has_assign_eq|apply value_assign_eq].
  - intros E. unfold add_net_columns, add_schema_nets. rewrite E. clear HC.
    split; peel; [apply has_assign_eq|apply value_assign_eq].
  - intros E. unfold add_net_columns, subtract_spreading, add_schema_nets. rewrite E.
    split; [|split].
    + destruct (has "spreading" d && has "Large Speculator Net" d) eqn:G; [|done].
      apply columns_assign_has. by apply andb_true_iff in G as [_ ?].
    + intros c Hc.
      destruct (has "spreading" d && has "Large Speculator Net" d); [|done].
      by apply value_assign_ne.
    + intros ->. done.
Qed.

(** C8 fails as stated. With producer longs but no producer shorts the
    frame is not Disaggregated: next to the legacy commercials it is
    Legacy. With [commercial_longs] but no [commercial_shorts] it is not
    Legacy: no net is derived. And without any schema column a column
    already named Large Speculator Net does not pass through unchanged. *)
Lemma schema_detection_counterexample :
  (spec_detect_schema producer_longs_only = Disaggregated /\
   detect_schema producer_longs_only = Legacy /\
   value (add_net_columns producer_longs_only) 0 "Commercial Net" = Some 60) /\
  (spec_detect_schema commercial_longs_only = Legacy /\
   detect_schema commercial_longs_only = Unrecognized /\
   add_net_columns commercial_longs_only = commercial_longs_only) /\
  (detect_schema named_like_a_net = Unrecognized /\
   value named_like_a_net 0 "Large Speculator Net" = Some 60 /\
   value (add_net_columns named_like_a_net) 0 "Large Speculator Net" = Some 30).
Proof. repeat split; by vm_compute. Qed.

(** ** Forward fill *)

Lemma column_lookup c l i r : l !! i = Some r -> column c l !! i = Some (cells r !! c).
Proof. intros H. unfold column. by rewrite list_lookup_fmap, H. Qed.

Lemma length_column c l : length (column c l) = length l.
Proof. unfold column. apply length_fmap. Qed.

Lemma cell_cons x col k : cell (x :: col) (S k) = cell col k.
Proof. done. Qed.

Lemma pad_from_carry p col k :
  is_Some p -> (k < length col)%nat -> is_Some (cell (pad_from p col) k).
Proof.
  revert p k. induction col as [|x col IH]; intros p k Hp Hk; simpl in *; [lia|].
  destruct k as [|k].
  - unfold cell. simpl. destruct x; eauto.
  - rewrite cell_cons. apply IH; [|lia]. destruct x; eauto.
Qed.

Lemma filled_pad_from p col : filled (pad_from p col).
Proof.
  revert p. induction col as [|x col IH]; intros p j k Hjk Hk Hj; simpl in *; [lia|].
  rewrite length_pad_from in Hk.
  destruct k as [|k].
  - assert (j = 0)%nat by lia. by subst.
  - rewrite cell_cons. destruct j as [|j].
    + unfold cell in Hj. simpl in Hj. apply pad_from_carry; [done|lia].
    + rewrite cell_cons in Hj. apply (IH _ j k); [lia|rewrite length_pad_from; lia|done].
Qed.

Lemma pad_from_filled p col :
  filled col -> (is_Some p -> col <> [] -> is_Some (cell col 0)) -> pad_from p col = col.
Proof.
  revert p. induction col as [|x col IH]; intros p Hf Hp; simpl; [done|].
  assert (E : match x with Some _ => x | None => p end = x).
  { destruct x as [v|]; [done|]. destruct p as [v|]; [|done].
    destruct Hp as [? Hp]; [eauto|done|]. unfold cell in Hp. simpl in Hp. done. }
  rewrite E. f_equal. apply IH.
  - intros j k Hjk Hk Hj. apply (Hf (S j) (S k)); simpl; [lia|lia|done].
  - intros Hx Hne. destruct col as [|y col]; [done|].
    apply (Hf 0%nat 1%nat); simpl; [lia|lia|]. unfold cell. simpl. done.
Qed.

Lemma pad_filled col : filled col -> pad col = col.
Proof. intros H. apply pad_from_filled; [done|]. intros [? ?]. done. Qed.

Lemma column_ffill_from prev l c :
  column c (ffill_from prev l) = pad_from (prev !! c) (column c l).
Proof.
  revert prev. induction l as [|r l IH]; intros prev; [done|].
  unfold column in *. rewrite !fmap_cons. simpl. rewrite IH. simpl.
  rewrite lookup_union. destruct (cells r !! c), (prev !! c); done.
Qed.

Lemma column_ffill l c : column c (ffill l) = pad (column c l).
Proof. unfold ffill, pad. rewrite column_ffill_from. by rewrite lookup_empty. Qed.

Lemma value_frame cols l i c : value (mk_frame cols l) i c = cell (column c l) i.
Proof. unfold cell, column, value. simpl. rewrite list_lookup_fmap. destruct (l !! i); done. Qed.

Lemma value_cell d i c : value d i c = cell (column c (rows d)) i.
Proof. destruct d. apply value_frame. Qed.

Lemma filled_frame_ffill cols l : filled_frame (mk_frame cols (ffill l)).
Proof.
  intros c j k Hjk Hk. rewrite !value_frame, column_ffill. simpl in Hk.
  apply filled_pad_from; [done|].
  fold (pad (column c l)). rewrite <- column_ffill, length_column. done.
Qed.

Lemma length_rows_assign c f d : length (rows (assign c f d)) = length (rows d).
Proof. unfold assign. simpl. apply length_fmap. Qed.

Lemma is_Some_osub a b : is_Some (osub a b) <-> is_Some a /\ is_Some b.
Proof.
  destruct a, b; simpl; split; try (intros [? ?]; done); try (intros [[? ?] [? ?]]; done); eauto.
Qed.

Lemma filled_frame_assign c a b d :
  filled_frame d -> filled_frame (assign c (col_sub a b) d).
Proof.
  intros H c' j k Hjk Hk. rewrite length_rows_assign in Hk.
  rewrite !value_assign, !bind_col_sub. destruct (bool_decide (c' = c)).
  - rewrite !is_Some_osub. intros [Ha Hb]. split; eapply H; eauto.
  - by apply H.
Qed.

Lemma filled_frame_net name a b d : filled_frame d -> filled_frame (net name a b d).
Proof. intros H. unfold net. destruct (_ && _); [by apply filled_frame_assign|done]. Qed.

Lemma filled_frame_add_net_columns d : filled_frame d -> filled_frame (add_net_columns d).
Proof.
  intros H. unfold add_net_columns, subtract_spreading, add_schema_nets.
  destruct (detect_schema d); destruct (_ && _);
    repeat first [apply filled_frame_assign | apply filled_frame_net]; done.
Qed.

(** The prepared columns are forward filled: padding them again changes nothing. *)
Lemma pad_prepared d c : pad (column c (rows (prepare d))) = column c (rows (prepare d)).
Proof.
  apply pad_filled. intros j k Hjk Hk. rewrite length_column in Hk.
  rewrite <- !value_cell. apply filled_frame_add_net_columns; [|done|done].
  apply filled_frame_ffill.
Qed.

(** ** The enriched frame *)

Lemma lookup_derived_row cy l cols i c :
  derived_row ((fun c => (c, derive_column cy l c)) <$> cols) i !! c =
    if bool_decide (c ∈ cols) then Some (derived_at cy l c i) else None.
Proof.
  unfold derived_row. induction cols as [|c0 cols IH]; [done|].
  rewrite fmap_cons. cbn [foldr fst snd]. fold (derived_at cy l c0 i).
  destruct (decide (c0 = c)) as [->|Hne].
  - rewrite lookup_insert_eq. rewrite bool_decide_eq_true_2; [done|by left].
  - rewrite lookup_insert_ne by done. rewrite IH.
    destruct (bool_decide (c ∈ cols)) eqn:E.
    + apply bool_decide_eq_true in E. rewrite bool_decide_eq_true_2; [done|by right].
    + apply bool_decide_eq_false in E. rewrite bool_decide_eq_false_2; [done|].
      rewrite elem_of_cons. intros [?|?]; done.
Qed.

Lemma length_enrich cy d : length (e_rows (enrich cy d)) = length (rows d).
Proof. unfold enrich. simpl. apply length_imap. Qed.

Lemma lookup_enrich cy d i :
  e_rows (enrich cy d) !! i =
    (fun r => mk_erow (date r) (cells r)
                (derived_row ((fun c => (c, derive_column cy (rows d) c)) <$> columns d) i))
      <$> rows d !! i.
Proof. unfold enrich. simpl. by rewrite list_lookup_imap. Qed.

Lemma field_enrich cy d i c r :
  rows d !! i = Some r -> c ∈ columns d ->
  field (enrich cy d) i c = Some (derived_at cy (rows d) c i).
Proof.
  intros Hr Hc. unfold field. rewrite lookup_enrich, Hr. simpl.
  rewrite lookup_derived_row, bool_decide_eq_true_2; done.
Qed.

Lemma add_changes_max d m :
  max_date (date <$> rows d) = Some m -> add_changes d = Some (enrich (year m) d).
Proof.
  intros H. unfold add_changes. destruct (columns d) eqn:E.
  - unfold enrich, derived_row. rewrite E. done.
  - rewrite H. done.
Qed.

(** On a frame with at least one row the enrichment succeeds, and the
    fields of a column in a row are those [derived_at] computes. *)
Lemma field_add_changes d i c r :
  rows d !! i = Some r -> c ∈ columns d ->
  exists m, max_date (date <$> rows d) = Some m /\
    add_changes d = Some (enrich (year m) d) /\
    field (enrich (year m) d) i c = Some (derived_at (year m) (rows d) c i).
Proof.
  intros Hr Hc.
  destruct (max_date_is_Some (date <$> rows d)) as [m Hm].
  { intros E. apply fmap_nil_inv in E. rewrite E in Hr. done. }
  exists m. split; [done|]. split; [by apply add_changes_max|].
  by eapply field_enrich.
Qed.

Lemma change_pct_of_cases prev cur : change_pct_of prev cur = change_pct_cases prev cur.
Proof.
  unfold change_pct_of, change_pct_cases, fdiv.
  destruct prev as [p|], cur as [v|]; try done.
  destruct (Qeq_bool p 0); [|done].
  destruct (Qeq_bool v 0); [done|]. destruct (qltb 0 v); done.
Qed.

Lemma cell_pad_lt col i : (i < length col)%nat -> pad col !! i = Some (cell (pad col) i).
Proof.
  intros H. unfold cell.
  destruct (lookup_lt_is_Some_2 (pad col) i) as [x ->]; [by rewrite length_pad|done].
Qed.

(** C7. With no missing value in the column, [_pct_5yr] is undefined at
    every row before index 259 and defined from index 259 on; it is
    undefined in every row of a frame of fewer than 260 rows. *)
Theorem pct_5yr_defined_from_259 d c i r :
  c ∈ columns d -> rows d !! i = Some r ->
  exists E dv, add_changes d = Some E /\ field E i c = Some dv /\
    ((i < 259)%nat -> pct_5yr dv = None) /\
    ((length (rows d) < 260)%nat -> pct_5yr dv = None) /\
    ((forall r', r' ∈ rows d -> is_Some (cells r' !! c)) -> (259 <= i)%nat ->
       is_Some (pct_5yr dv)).
Proof.
  intros Hc Hr.
  destruct (field_add_changes d i c r Hr Hc) as (m & _ & HE & HF).
  eexists _, _. split; [exact HE|]. split; [exact HF|].
  unfold derived_at; simpl.
  pose proof (lookup_lt_Some _ _ _ Hr) as Hi.
  split; [|split].
  - intros H. apply cell_pct_window_early. lia.
  - intros H. apply cell_pct_window_short. rewrite length_column. lia.
  - intros Hall H. apply cell_pct_window_defined; [lia|lia|by rewrite length_column|].
    unfold column. apply Forall_fmap, Forall_forall. intros r' Hr'. by apply Hall.
Qed.

(** C3, as amended. The change percentage of row 0 is NaN. In a later
    row it is decided by the previous and the current value of the
    padded column: NaN when one of them is missing or both are zero, an
    infinity with the sign of the current value when only the previous
    one is zero, and otherwise what the double computation of
    [(cur / prev - 1) * 100] and its rounding to one decimal give. So it
    is NaN exactly in row 0, next to a missing value, and for zero after
    zero. For a quotient of at most [2 ^ 53] it is a whole number of
    tenths, within half a tenth and the rounding errors of the doubles
    of the exact percentage. On the prepared frame of the pipeline
    padding changes nothing: the values are those of the column itself. *)
Theorem change_pct_value d c i r :
  c ∈ columns d -> rows d !! i = Some r ->
  exists E dv, add_changes d = Some E /\ field E i c = Some dv /\
    let vals := pad (column c (rows d)) in
    change_pct dv =
      match i with
      | O => NaN
      | S j => change_pct_cases (cell vals j) (cell vals i)
      end /\
    (change_pct dv = NaN <->
       i = O \/
       exists j, i = S j /\
         (cell vals j = None \/ cell vals i = None \/
          exists p v, cell vals j = Some p /\ cell vals i = Some v /\ p == 0 /\ v == 0)) /\
    (forall j p v, i = S j -> cell vals j = Some p -> cell vals i = Some v ->
       ~ p == 0 -> Qabs v <= 2 ^ 53 * Qabs p ->
       exists k : Z, change_pct dv = Fin (inject_Z k / 10) /\
         Qabs (inject_Z k / 10 - (v / p - 1) * 100)
           <= double_tolerance ((v / p - 1) * 100)) /\
    (forall d0, d = prepare d0 -> vals = column c (rows d)).
Proof.
  intros Hc Hr.
  destruct (field_add_changes d i c r Hr Hc) as (m & _ & HE & HF).
  eexists _, _. split; [exact HE|]. split; [exact HF|].
  unfold derived_at; simpl.
  pose proof (lookup_lt_Some _ _ _ Hr) as Hi. rewrite <- (length_column c) in Hi.
  assert (V : default NaN (change_pct_col (column c (rows d)) !! i) =
              match i with
              | O => NaN
              | S j => change_pct_of (cell (pad (column c (rows d))) j)
                                     (cell (pad (column c (rows d))) i)
              end).
  { destruct i as [|j].
    - rewrite change_pct_col_0; [done|]. intros E. rewrite E in Hi. simpl in Hi. lia.
    - rewrite (change_pct_col_S _ j (cell (pad (column c (rows d))) j)
                                   (cell (pad (column c (rows d))) (S j))); [done|..];
        apply cell_pad_lt; lia. }
  rewrite V. split; [|split; [|split]].
  - destruct i; [done|]. apply change_pct_of_cases.
  - destruct i as [|j]; [split; auto|].
    rewrite change_pct_of_nan. split.
    + intros H. right. exists j. split; [done|]. exact H.
    + intros [?|(j' & ? & H)]; [done|]. simplify_eq. exact H.
  - intros j p v -> Hp Hv Hp0 Hb.
    rewrite change_pct_of_cases, Hp, Hv. by apply change_pct_cases_bound.
  - intros d0 ->. apply pad_prepared.
Qed.

(** ** Trailing percentile ranks *)

Lemma count_eq_distinct v w : distinct w -> v ∈ w -> count_eq v w = 1%nat.
Proof.
  intros Hd Hv.
  induction w as [|y w IH]; [inv Hv|].
  unfold count_eq in *. simpl.
  assert (Hd' : distinct w).
  { intros j k a b Ha Hb E. assert (S j = S k) by (eapply Hd; eauto). lia. }
  destruct (Qeq_bool y v) eqn:E.
  - rewrite count_zero; [done|]. intros z Hz.
    destruct (Qeq_bool z v) eqn:E'; [|done]. exfalso.
    apply Qeq_bool_iff in E, E'.
    apply list_elem_of_lookup in Hz as [k Hk].
    assert (0 = S k)%nat; [|lia].
    eapply (Hd 0%nat (S k) y z); [done|done|]. rewrite E, E'. reflexivity.
  - apply elem_of_cons in Hv as [->|Hv].
    + exfalso. assert (T : Qeq_bool y y = true) by (apply Qeq_bool_iff; reflexivity). congruence.
    + rewrite IH; done.
Qed.

Lemma rank_pct_closed w v :
  v ∈ w ->
  rank_pct_in w v * 100 ==
  100 * ((nat_to_Q (count_lt v w) + (nat_to_Q (count_eq v w) + 1) / 2) / nat_to_Q (length w)).
Proof.
  intros Hv. unfold rank_pct_in.
  rewrite (avg_rank_closed v w (count_eq_pos _ _ Hv)).
  rewrite count_le_split, !nat_to_Q_add.
  assert (P : 0 < nat_to_Q (length w)).
  { apply nat_to_Q_pos. destruct w; [inv Hv|simpl; lia]. }
  field. lra.
Qed.

Lemma rank_pct_distinct w v :
  v ∈ w -> distinct w ->
  rank_pct_in w v * 100 == 100 * nat_to_Q (count_le v w) / nat_to_Q (length w).
Proof.
  intros Hv Hd. rewrite rank_pct_closed by done.
  rewrite count_le_split, nat_to_Q_add, (count_eq_distinct v w Hd Hv).
  assert (P : 0 < nat_to_Q (length w)).
  { apply nat_to_Q_pos. destruct w; [inv Hv|simpl; lia]. }
  change (nat_to_Q 1) with 1. field. lra.
Qed.

Lemma pct_of_derived_at h cy l c i :
  pct_of h (derived_at cy l c i) = cell (pct_window (horizon_size h) (column c l)) i.
Proof. by destruct h. Qed.

Lemma horizon_size_pos h : (0 < horizon_size h)%nat.
Proof. destruct h; simpl; lia. Qed.

(** C4, as amended. At a row [i] with a complete trailing window of a
    horizon: when none of the window's cells is missing, the percentile
    field is the average rank of the value of row [i] in the window, as
    a percentage of the window size, rounded to one decimal: the number
    of smaller window values plus half of (the number of equal ones plus
    one); when the window values are pairwise different this is the
    share of window values less than or equal to the value. When a cell
    of the window is missing, the field is undefined. *)
Theorem trailing_rank_value h d c i r :
  c ∈ columns d -> rows d !! i = Some r ->
  (horizon_size h <= S i)%nat ->
  let W := horizon_size h in
  let win := trailing W i (column c (rows d)) in
  exists E dv, add_changes d = Some E /\ field E i c = Some dv /\
    length win = W /\
    (forall w, win = Some <$> w ->
       exists v, cells r !! c = Some v /\
         pct_of h dv =
           Some (round1 (100 * ((nat_to_Q (count_lt v w) + (nat_to_Q (count_eq v w) + 1) / 2)
                                / nat_to_Q W))) /\
         (distinct w ->
          pct_of h dv = Some (round1 (100 * nat_to_Q (count_le v w) / nat_to_Q W)))) /\
    (None ∈ win -> pct_of h dv = None).
Proof.
  intros Hc Hr HW W win. subst W win.
  destruct (field_add_changes d i c r Hr Hc) as (m & _ & HE & HF).
  pose proof (lookup_lt_Some _ _ _ Hr) as Hi. rewrite <- (length_column c) in Hi.
  exists (enrich (year m) d), (derived_at (year m) (rows d) c i).
  split; [exact HE|]. split; [exact HF|].
  assert (HL : length (trailing (horizon_size h) i (column c (rows d))) = horizon_size h)
    by (rewrite length_trailing; lia).
  split; [exact HL|]. rewrite pct_of_derived_at. split.
  - intros w Hw.
    destruct (cell_pct_window_full _ _ _ _ (horizon_size_pos h) HW Hi Hw)
      as (L & v & Hv & Hlast & Hcell).
    exists v. rewrite (column_lookup c _ _ _ Hr) in Hv.
    split; [congruence|]. rewrite Hcell.
    assert (Hin : v ∈ w) by (by apply last_Some_elem_of).
    split.
    + f_equal. apply round1_comp. rewrite rank_pct_closed by done. by rewrite L.
    + intros Hd. f_equal. apply round1_comp. rewrite rank_pct_distinct by done. by rewrite L.
  - intros Hn. apply list_elem_of_lookup in Hn as [k Hk].
    pose proof (lookup_lt_Some _ _ _ Hk) as Hlt. rewrite HL in Hlt.
    apply cell_pct_window_missing. exists k. split; [done|]. split; [done|].
    by rewrite lookup_trailing in Hk.
Qed.

Lemma present_app l1 l2 : present (l1 ++ l2) = present l1 ++ present l2.
Proof. unfold present. apply omap_app. Qed.

(** A window that ends at row [i]: the cells before, then the one of row [i]. *)
Lemma trailing_split W i col x :
  (0 < W)%nat -> col !! i = Some x ->
  trailing W i col = drop (S i - W) (take i col) ++ [x].
Proof.
  intros HW Hx. unfold trailing.
  rewrite (take_S_r _ _ _ Hx).
  apply drop_app_le. rewrite length_take. apply lookup_lt_Some in Hx. lia.
Qed.

Lemma rank_pct_in_mono_last pre v v' :
  v <= v' -> rank_pct_in (pre ++ [v]) v * 100 <= rank_pct_in (pre ++ [v']) v' * 100.
Proof.
  intros H. unfold rank_pct_in. rewrite !length_app. simpl.
  apply Qmult_le_compat_r; [|discriminate].
  unfold Qdiv. apply Qmult_le_compat_r; [by apply avg_rank_mono_last|].
  apply Qinv_le_0_compat. change 0 with (nat_to_Q 0). apply nat_to_Q_le. lia.
Qed.

(** The rolling rank of row [i] does not decrease when the value of
    that row is replaced by a larger one. *)
Lemma pct_window_mono W col i v v' :
  (0 < W)%nat -> col !! i = Some (Some v) -> v <= v' ->
  rank_le (cell (pct_window W col) i) (cell (pct_window W (<[i := Some v']> col)) i).
Proof.
  intros HW Hv Hle.
  pose proof (lookup_lt_Some _ _ _ Hv) as Hi.
  rewrite !cell_pct_window by (rewrite ?length_insert; done). cbv zeta.
  rewrite (trailing_split W i col _ HW Hv).
  rewrite (trailing_split W i (<[i := Some v']> col) (Some v') HW)
    by (by apply list_lookup_insert_eq).
  rewrite take_insert_ge by done.
  set (pre := present (drop (S i - W) (take i col))).
  rewrite !present_app. fold pre.
  change (present [Some v]) with [v]. change (present [Some v']) with [v'].
  rewrite !length_app. simpl length.
  destruct (W <=? length pre + 1); [|done].
  rewrite !last_rank_eq, !last_snoc. simpl.
  apply round1_mono. by apply rank_pct_in_mono_last.
Qed.

Lemma column_set_value i c v d :
  column c (rows (set_value i c v d)) = alter (fun _ => Some v) i (column c (rows d)).
Proof.
  unfold set_value, column. simpl.
  apply list_fmap_alter, Forall_forall. intros r _. simpl. by rewrite lookup_insert_eq.
Qed.

Lemma dates_set_value i c v d : date <$> rows (set_value i c v d) = date <$> rows d.
Proof.
  unfold set_value. simpl.
  rewrite (list_fmap_alter date _ id).
  - apply list_alter_id. done.
  - apply Forall_forall. done.
Qed.

(** C9. For each of the three horizons, replacing the value of row [i]
    by a larger one, all other cells unchanged, does not decrease the
    trailing percentile rank of row [i] (and leaves it undefined when it
    was undefined). *)
Theorem trailing_rank_monotone h d c i v v' :
  c ∈ columns d -> cell (column c (rows d)) i = Some v -> v <= v' ->
  exists E E' dv dv',
    add_changes d = Some E /\ add_changes (set_value i c v' d) = Some E' /\
    field E i c = Some dv /\ field E' i c = Some dv' /\
    rank_le (pct_of h dv) (pct_of h dv').
Proof.
  intros Hc Hv Hle.
  assert (Hcol : column c (rows d) !! i = Some (Some v)).
  { unfold cell in Hv. destruct (column c (rows d) !! i) as [[x|]|]; simplify_eq/=; done. }
  assert (Hr : is_Some (rows d !! i)).
  { apply lookup_lt_is_Some. rewrite <- (length_column c). by eapply lookup_lt_Some. }
  destruct Hr as [r Hr].
  destruct (field_add_changes d i c r Hr Hc) as (m & Hm & HE & HF).
  assert (Hr' : is_Some (rows (set_value i c v' d) !! i)).
  { apply lookup_lt_is_Some. unfold set_value. simpl. rewrite length_alter.
    by eapply lookup_lt_Some. }
  destruct Hr' as [r' Hr'].
  destruct (field_add_changes (set_value i c v' d) i c r' Hr' Hc) as (m' & Hm' & HE' & HF').
  rewrite dates_set_value in Hm'. assert (m' = m) by congruence. subst m'.
  eexists _, _, _, _. split; [exact HE|]. split; [exact HE'|].
  split; [exact HF|]. split; [exact HF'|].
  rewrite !pct_of_derived_at, column_set_value, <- list_insert_alter.
  apply (pct_window_mono _ _ _ v v'); [apply horizon_size_pos|done|done].
Qed.

(** ** Year-to-date rank of a frame *)

(** C1, as amended. The year-to-date field is computed for the calendar
    year of the latest date only. A row of that year gets the rank of its
    value among the values of all rows of that year, later rows included,
    as a percentage and not rounded, provided the year has at least two
    rows; every other row, and every row when the latest year has a
    single row, gets an undefined field. *)
Theorem pct_ytd_value d c i r :
  c ∈ columns d -> rows d !! i = Some r ->
  exists E dv m, add_changes d = Some E /\ field E i c = Some dv /\
    max_date (date <$> rows d) = Some m /\
    let ytd := ytd_rows (year m) (rows d) in
    pct_ytd dv =
      if decide (year (date r) = year m /\ (2 <= length ytd)%nat)
      then (fun v => rank_pct_in (present (column c ytd)) v * 100) <$> cells r !! c
      else None.
Proof.
  intros Hc Hr.
  destruct (field_add_changes d i c r Hr Hc) as (m & Hm & HE & HF).
  eexists _, _, m. split; [exact HE|]. split; [exact HF|]. split; [done|].
  unfold derived_at; simpl.
  rewrite (cell_pct_ytd _ _ _ _ _ Hr). cbv zeta.
  rewrite (ytd_filter _ _ Hm).
  assert (Hy : date_leb (mk_date (year m) 1 1) (date r) = true <-> year (date r) = year m).
  { change (date_le (mk_date (year m) 1 1) (date r) <-> year (date r) = year m).
    rewrite jan1_le.
    destruct (max_date_spec _ _ Hm) as [_ Hmax].
    assert (L : date_le (date r) m).
    { apply Hmax, list_elem_of_fmap_2. by eapply list_elem_of_lookup_2. }
    apply date_le_spec in L. lia. }
  destruct (1 <? length (ytd_rows (year m) (rows d))) eqn:G;
    [apply Nat.ltb_lt in G|apply Nat.ltb_ge in G].
  - destruct (date_leb _ _) eqn:L; simpl.
    + rewrite decide_True; [done|]. split; [by apply Hy|lia].
    + rewrite decide_False; [done|]. intros [Y _]. apply Hy in Y. congruence.
  - simpl. rewrite decide_False; [done|]. lia.
Qed.

(** C1 fails as stated. In [two_years] the second row of 2023 has two
    rows so far in its year but no year-to-date rank (the specification
    gives 100), and the second row of 2024 is ranked against all three
    rows of 2024 (100/3) instead of the two so far (50). *)
Lemma pct_ytd_counterexample :
  read pct_ytd (derive two_years) 1 "open_interest" = Some None /\
  (exists q, spec_pct_ytd (rows (prepare two_years)) "open_interest" 1 = Some q /\ q == 100) /\
  (exists q, read pct_ytd (derive two_years) 3 "open_interest" = Some (Some q) /\ q == 100 / 3) /\
  (exists q, spec_pct_ytd (rows (prepare two_years)) "open_interest" 3 = Some q /\ q == 50).
Proof.
  split; [by vm_compute|].
  split; [eexists; split; [by vm_compute|by vm_compute]|].
  split; eexists; (split; [by vm_compute|by vm_compute]).
Qed.

(** ** The pipeline: order of rows and date ranges *)

Lemma dates_assign c f d : date <$> rows (assign c f d) = date <$> rows d.
Proof. unfold assign. simpl. rewrite <- list_fmap_compose. done. Qed.

Lemma dates_net name a b d : date <$> rows (net name a b d) = date <$> rows d.
Proof. unfold net. destruct (_ && _); [apply dates_assign|done]. Qed.

Lemma dates_add_net_columns d : date <$> rows (add_net_columns d) = date <$> rows d.
Proof.
  unfold add_net_columns, subtract_spreading, add_schema_nets.
  destruct (detect_schema d); destruct (_ && _);
    rewrite ?dates_assign, ?dates_net, ?dates_assign; done.
Qed.

Lemma dates_ffill_from prev l : date <$> ffill_from prev l = date <$> l.
Proof. revert prev. induction l as [|r l IH]; intros prev; simpl; [done|]. by rewrite IH. Qed.

Lemma dates_prepare d : date <$> rows (prepare d) ≡ₚ date <$> rows d.
Proof.
  unfold prepare. rewrite dates_add_net_columns. simpl.
  unfold ffill. rewrite dates_ffill_from. by rewrite sort_values_Permutation.
Qed.

Lemma dates_enrich cy d : e_date <$> e_rows (enrich cy d) = date <$> rows d.
Proof.
  apply list_eq. intros i. rewrite !list_lookup_fmap, lookup_enrich.
  destruct (rows d !! i); done.
Qed.

Lemma add_changes_dates d E : add_changes d = Some E -> e_date <$> e_rows E = date <$> rows d.
Proof.
  unfold add_changes. intros H.
  destruct (columns d); [|destruct (max_date _)]; simplify_eq/=; apply dates_enrich.
Qed.

Lemma add_changes_is_Some d : rows d <> [] -> is_Some (add_changes d).
Proof.
  intros H. destruct (max_date_is_Some (date <$> rows d)) as [m Hm].
  { intros E. by apply fmap_nil_inv in E. }
  rewrite (add_changes_max _ _ Hm). eauto.
Qed.

Lemma derive_is_Some d : rows d <> [] -> is_Some (derive d).
Proof.
  intros H. apply add_changes_is_Some. intros E.
  pose proof (dates_prepare d) as P. rewrite E in P. simpl in P.
  apply Permutation_nil_l in P. symmetry in P. by apply fmap_nil_inv in P.
Qed.

Lemma derive_dates d E : derive d = Some E -> e_date <$> e_rows E ≡ₚ date <$> rows d.
Proof. intros H. rewrite (add_changes_dates _ _ H). apply dates_prepare. Qed.

Lemma elem_of_window s e E r :
  r ∈ e_rows (window s e E) <-> r ∈ e_rows E /\ in_range s e (e_date r).
Proof. unfold window. simpl. rewrite list_elem_of_filter. tauto. Qed.

(** C5. The change and rank fields are computed on the full series
    before the date range is applied: a window holds records of the
    enriched series as they are, each with the fields [derived_at]
    computes at its index in the full prepared series, so a record shown
    under one range is shown unchanged under every other range that
    contains its date, and with unique dates two ranges agree on every
    record they share. *)
Theorem window_keeps_derived_fields d s1 e1 s2 e2 :
  rows d <> [] ->
  exists E, derive d = Some E /\
    plot_data_change s1 e1 d = Some (window s1 e1 E) /\
    plot_data_change s2 e2 d = Some (window s2 e2 E) /\
    (forall r, r ∈ e_rows (window s1 e1 E) <-> r ∈ e_rows E /\ in_range s1 e1 (e_date r)) /\
    (forall r, r ∈ e_rows (window s1 e1 E) ->
       exists i m, max_date (date <$> rows (prepare d)) = Some m /\
         forall c, c ∈ columns (prepare d) ->
           e_derived r !! c = Some (derived_at (year m) (rows (prepare d)) c i)) /\
    (forall r, r ∈ e_rows (window s1 e1 E) -> in_range s2 e2 (e_date r) ->
               r ∈ e_rows (window s2 e2 E)) /\
    (NoDup (date <$> rows d) ->
     forall r1 r2, r1 ∈ e_rows (window s1 e1 E) -> r2 ∈ e_rows (window s2 e2 E) ->
                   e_date r1 = e_date r2 -> r1 = r2).
Proof.
  intros Hne. destruct (derive_is_Some d Hne) as [E HE]. exists E.
  split; [done|]. unfold plot_data_change. rewrite HE. simpl.
  split; [done|]. split; [done|]. split; [apply elem_of_window|]. split; [|split].
  - intros r [Hr _]%elem_of_window.
    apply list_elem_of_lookup in Hr as [i Hi].
    destruct (max_date_is_Some (date <$> rows (prepare d))) as [m Hm].
    { intros E0. apply fmap_nil_inv in E0. unfold derive in HE.
      apply lookup_lt_Some in Hi. rewrite <- (length_fmap e_date) in Hi.
      rewrite (add_changes_dates _ _ HE), length_fmap, E0 in Hi. simpl in Hi. lia. }
    exists i, m. split; [done|]. intros c Hc.
    unfold derive in HE. rewrite (add_changes_max _ _ Hm) in HE. simplify_eq.
    rewrite lookup_enrich in Hi. destruct (rows (prepare d) !! i); simplify_eq/=.
    rewrite lookup_derived_row, bool_decide_eq_true_2; done.
  - intros r Hr Hin. apply elem_of_window. apply elem_of_window in Hr as [Hr _]. done.
  - intros HN r1 r2 [H1 _]%elem_of_window [H2 _]%elem_of_window Hd.
    rewrite <- (derive_dates d E HE) in HN.
    apply list_elem_of_lookup in H1 as [i Hi], H2 as [j Hj].
    assert (i = j).
    { eapply NoDup_lookup; [exact HN| |]; rewrite list_lookup_fmap.
      - by rewrite Hi.
      - by rewrite Hj, Hd. }
    subst j. congruence.
Qed.

(** C10. With unique dates the result depends on the set of input rows
    only: a permutation of the rows gives the same enriched series as
    the date-sorted rows do (and as the rows in their given order). *)
Theorem derive_permutation_invariant cols l l' :
  l ≡ₚ l' -> NoDup (date <$> l) ->
  derive (mk_frame cols l') = derive (mk_frame cols (sort_values l)) /\
  derive (mk_frame cols l') = derive (mk_frame cols l) /\
  (l <> [] -> is_Some (derive (mk_frame cols l'))).
Proof.
  intros HP HN.
  assert (E1 : sort_values l' = sort_values l) by (by apply sort_values_unique).
  assert (E2 : sort_values (sort_values l) = sort_values l).
  { apply sort_values_unique; [|done]. symmetry. apply sort_values_Permutation. }
  split; [|split].
  - unfold derive, prepare. simpl. by rewrite E1, E2.
  - unfold derive, prepare. simpl. by rewrite E1.
  - intros Hne. apply derive_is_Some. simpl.
    intros ->. apply Permutation_nil_r in HP. done.
Qed.

(** ** Annotations *)

Lemma enrich_complete cy d : complete (enrich cy d).
Proof.
  intros r c Hr Hc. apply list_elem_of_lookup in Hr as [i Hi].
  rewrite lookup_enrich in Hi. destruct (rows d !! i); simplify_eq/=.
  rewrite lookup_derived_row, bool_decide_eq_true_2; [eauto|done].
Qed.

Lemma add_changes_complete d E : add_changes d = Some E -> complete E /\ e_columns E = columns d.
Proof.
  unfold add_changes. intros H.
  destruct (columns d) eqn:Ec; [|destruct (max_date _)]; simplify_eq/=.
  - split; [apply enrich_complete|]. simpl. done.
  - split; [apply enrich_complete|]. simpl. done.
Qed.

Lemma window_complete s e E : complete E -> complete (window s e E).
Proof.
  intros H r c Hr Hc. apply elem_of_window in Hr as [Hr _]. by apply H.
Qed.

Lemma annotate_defined sep sel c r :
  is_Some (e_derived r !! c) ->
  annotate sep sel c r = Some (if change_defined c r then [point_of sep sel c r] else []).
Proof.
  intros [dv Hdv]. unfold annotate, change_defined, point_of, change_of.
  rewrite Hdv. simpl. destruct (isna (change_pct dv)); done.
Qed.

Lemma mapM_total {A B} (f : A -> option B) (g : A -> B) l :
  (forall x, x ∈ l -> f x = Some (g x)) -> mapM f l = Some (g <$> l).
Proof.
  intros H. apply mapM_Some_2, Forall2_fmap_r, Forall_Forall2_diag, Forall_forall.
  exact H.
Qed.

Lemma join_cons {A} (x : list A) (ls : list (list A)) : mjoin (x :: ls) = x ++ mjoin ls.
Proof. done. Qed.

Lemma join_points (p : ERow -> bool) (g : ERow -> Annotation) l :
  mjoin ((fun r => if p r then [g r] else []) <$> l) = g <$> filter (fun r => p r = true) l.
Proof.
  induction l as [|r l IH]; [done|].
  rewrite fmap_cons, join_cons, IH.
  destruct (p r) eqn:E.
  - rewrite filter_cons_True by done. done.
  - rewrite filter_cons_False by (by rewrite E). done.
Qed.

Lemma mapM_annotate sep sel c l :
  (forall r, r ∈ l -> is_Some (e_derived r !! c)) ->
  mjoin <$> mapM (annotate sep sel c) l =
    Some (point_of sep sel c <$> filter (fun r => change_defined c r = true) l).
Proof.
  intros H.
  rewrite (mapM_total _ (fun r => if change_defined c r then [point_of sep sel c r] else [])).
  - simpl. f_equal. apply join_points.
  - intros r Hr. apply annotate_defined. by apply H.
Qed.

(** C2, as amended. Over a range of more than 90 periods the list of
    annotations holds exactly one entry, the hidden explanation. Over a
    range of at most 90 periods it holds exactly one point annotation
    per (selected column, record) pair whose change percentage is not
    NaN, column by column in row order, and nothing else; whether the
    value itself is missing plays no role. *)
Theorem annotations_built d E s e sep selected :
  add_changes d = Some E -> Forall (fun c => c ∈ columns d) selected ->
  let pdc := window s e E in
  ((length (e_rows pdc) <= 90)%nat ->
     exists anns, build_annotations sep selected pdc = Some anns /\
       anns = (fun p => point_of sep selected p.1 p.2)
                <$> pairs change_defined selected (e_rows pdc) /\
       length anns = length (pairs change_defined selected (e_rows pdc)) /\
       Forall is_point anns) /\
  ((90 < length (e_rows pdc))%nat ->
     build_annotations sep selected pdc = Some [Explanation]).
Proof.
  intros HE Hsel pdc.
  destruct (add_changes_complete d E HE) as [HC Hcols].
  assert (HW : complete pdc) by (by apply window_complete).
  split.
  - intros Hlen. unfold build_annotations.
    replace (length (e_rows pdc) <=? 90) with true by (symmetry; by apply Nat.leb_le).
    set (g := fun c => point_of sep selected c
                         <$> filter (fun r => change_defined c r = true) (e_rows pdc)).
    rewrite (mapM_total _ g).
    + simpl. eexists. split; [done|].
      assert (EQ : mjoin (g <$> selected) =
              (fun p => point_of sep selected p.1 p.2)
                <$> pairs change_defined selected (e_rows pdc)).
      { unfold pairs, g. clear. generalize selected at 1 3. intros sel0.
        induction selected as [|c sel IH]; [done|].
        rewrite fmap_cons, join_cons, IH, bind_cons, fmap_app. f_equal.
        rewrite <- list_fmap_compose. done. }
      split; [exact EQ|]. split; [by rewrite EQ, length_fmap|].
      rewrite EQ. apply Forall_fmap, Forall_forall. intros [c r] _. simpl. done.
    + intros c Hc. rewrite bool_decide_eq_true_2.
      * apply mapM_annotate. intros r Hr. apply HW; [done|].
        unfold pdc. simpl. rewrite Hcols. rewrite Forall_forall in Hsel. by apply Hsel.
      * unfold pdc. simpl. rewrite Hcols. rewrite Forall_forall in Hsel. by apply Hsel.
  - intros Hlen. unfold build_annotations.
    replace (length (e_rows pdc) <=? 90) with false by (symmetry; apply Nat.leb_gt; lia).
    done.
Qed.

(** C2 fails as stated. Over 91 periods the list is not empty: it holds
    the explanation. Over the five records of [two_years], all with a
    value, there are four annotations: the first record has no change
    percentage. *)
Lemma annotations_counterexample :
  let c := "open_interest" in
  (let pdc := plot_data_change (week_date 0) (week_date 90) (weekly c wave 91) in
   (length <$> (e_rows <$> pdc)) = Some 91%nat /\
   annotations_of false [c] pdc = Some [Explanation]) /\
  (let pdc := plot_data_change (mk_date 2023 12 18) (mk_date 2024 1 15) two_years in
   (length <$> (pairs value_present [c] <$> (e_rows <$> pdc))) = Some 5%nat /\
   (length <$> annotations_of false [c] pdc) = Some 4%nat).
Proof. repeat split; by vm_compute. Qed.

(** ** The statements at concrete frames *)


(** C3 fails as stated. In [through_zero] the first value is zero and
    the second is 5: the change percentage of the second row is plus
    infinity, not undefined. And the fall from 80 to 77 is one of 3.75
    percent, which rounded to one decimal is -3.8: the double
    computation gives -3.7. *)
Lemma change_pct_counterexample :
  value (prepare through_zero) 0 "spreading" = Some 0 /\
  read change_pct (derive through_zero) 1 "spreading" = Some PInf /\
  read change_pct (derive through_zero) 2 "spreading" = Some (Fin (-100.0)) /\
  value (prepare fall_80_77) 0 "open_interest" = Some 80 /\
  value (prepare fall_80_77) 1 "open_interest" = Some 77 /\
  (77 / 80 - 1) * 100 == -3.75 /\
  round1 ((77 / 80 - 1) * 100) = -3.8 /\
  read change_pct (derive fall_80_77) 1 "open_interest" = Some (Fin (-3.7)).
Proof. repeat split; by vm_compute. Qed.

(** C4 fails as stated. In 52 weekly records whose first report is
    missing, the last row has 52 records ending at it and a value of its
    own, but its 52-record rank is undefined. *)
Lemma trailing_rank_counterexample :
  let d := weekly "open_interest" late_start 52 in
  length (rows (prepare d)) = 52%nat /\
  value (prepare d) 0 "open_interest" = None /\
  value (prepare d) 51 "open_interest" = Some 69 /\
  read pct_1yr (derive d) 51 "open_interest" = Some None.
Proof. repeat split; by vm_compute. Qed.

(** C1: [pct_ytd_value] at the second row of 2024 in [two_years]. *)
Lemma pct_ytd_value_witness :
  exists E dv m, add_changes two_years = Some E /\ field E 3 "open_interest" = Some dv /\
    max_date (date <$> rows two_years) = Some m /\
    let ytd := ytd_rows (year m) (rows two_years) in
    pct_ytd dv =
      if decide (year (date (one_col "open_interest" 2024 1 8 1)) = year m /\ (2 <= length ytd)%nat)
      then (fun v => rank_pct_in (present (column "open_interest" ytd)) v * 100)
             <$> cells (one_col "open_interest" 2024 1 8 1) !! "open_interest"
      else None.
Proof.
  apply (pct_ytd_value two_years "open_interest" 3); [by left|reflexivity].
Defined.

(** C2: [annotations_built] on [two_years], over the three middle weeks. *)
Lemma annotations_built_witness :
  let pdc := window (mk_date 2023 12 25) (mk_date 2024 1 8) (enrich 2024 two_years) in
  ((length (e_rows pdc) <= 90)%nat ->
     exists anns, build_annotations true ["open_interest"] pdc = Some anns /\
       anns = (fun p => point_of true ["open_interest"] p.1 p.2)
                <$> pairs change_defined ["open_interest"] (e_rows pdc) /\
       length anns = length (pairs change_defined ["open_interest"] (e_rows pdc)) /\
       Forall is_point anns) /\
  ((90 < length (e_rows pdc))%nat ->
     build_annotations true ["open_interest"] pdc = Some [Explanation]).
Proof.
  apply (annotations_built two_years (enrich 2024 two_years)); [reflexivity|].
  constructor; [by left|constructor].
Defined.

(** C3: [change_pct_value] at the row after the zero in [through_zero]. *)
Lemma change_pct_value_witness :
  exists E dv, add_changes through_zero = Some E /\ field E 1 "spreading" = Some dv /\
    let vals := pad (column "spreading" (rows through_zero)) in
    change_pct dv = change_pct_cases (cell vals 0) (cell vals 1) /\
    (change_pct dv = NaN <->
       1%nat = O \/
       exists j, 1%nat = S j /\
         (cell vals j = None \/ cell vals 1 = None \/
          exists p v, cell vals j = Some p /\ cell vals 1 = Some v /\ p == 0 /\ v == 0)) /\
    (forall j p v, 1%nat = S j -> cell vals j = Some p -> cell vals 1 = Some v ->
       ~ p == 0 -> Qabs v <= 2 ^ 53 * Qabs p ->
       exists k : Z, change_pct dv = Fin (inject_Z k / 10) /\
         Qabs (inject_Z k / 10 - (v / p - 1) * 100)
           <= double_tolerance ((v / p - 1) * 100)) /\
    (forall d0, through_zero = prepare d0 -> vals = column "spreading" (rows through_zero)).
Proof.
  apply (change_pct_value through_zero "spreading" 1 (one_col "spreading" 2024 1 9 5));
    [by left|reflexivity].
Defined.

(** C4: [trailing_rank_value] at the last of 52 weekly rows. *)
Lemma trailing_rank_value_witness :
  let d := weekly "open_interest" wave 52 in
  let W := horizon_size H1yr in
  let win := trailing W 51 (column "open_interest" (rows d)) in
  exists E dv, add_changes d = Some E /\ field E 51 "open_interest" = Some dv /\
    length win = W /\
    (forall w, win = Some <$> w ->
       exists v,
         cells (mk_row (week_date 51) {[ "open_interest" := 69 ]}) !! "open_interest" = Some v /\
         pct_of H1yr dv =
           Some (round1 (100 * ((nat_to_Q (count_lt v w) + (nat_to_Q (count_eq v w) + 1) / 2)
                                / nat_to_Q W))) /\
         (distinct w ->
          pct_of H1yr dv = Some (round1 (100 * nat_to_Q (count_le v w) / nat_to_Q W)))) /\
    (None ∈ win -> pct_of H1yr dv = None).
Proof.
  apply (trailing_rank_value H1yr (weekly "open_interest" wave 52) "open_interest" 51).
  - by left.
  - vm_compute. reflexivity.
  - simpl. lia.
Defined.

(** C5: [window_keeps_derived_fields] on [two_years] with two overlapping ranges. *)
Lemma window_keeps_derived_fields_witness :
  exists E, derive two_years = Some E /\
    plot_data_change (mk_date 2023 12 25) (mk_date 2024 1 8) two_years
      = Some (window (mk_date 2023 12 25) (mk_date 2024 1 8) E) /\
    plot_data_change (mk_date 2024 1 1) (mk_date 2024 1 15) two_years
      = Some (window (mk_date 2024 1 1) (mk_date 2024 1 15) E) /\
    (forall r, r ∈ e_rows (window (mk_date 2023 12 25) (mk_date 2024 1 8) E) <->
               r ∈ e_rows E /\ in_range (mk_date 2023 12 25) (mk_date 2024 1 8) (e_date r)) /\
    (forall r, r ∈ e_rows (window (mk_date 2023 12 25) (mk_date 2024 1 8) E) ->
       exists i m, max_date (date <$> rows (prepare two_years)) = Some m /\
         forall c, c ∈ columns (prepare two_years) ->
           e_derived r !! c = Some (derived_at (year m) (rows (prepare two_years)) c i)) /\
    (forall r, r ∈ e_rows (window (mk_date 2023 12 25) (mk_date 2024 1 8) E) ->
               in_range (mk_date 2024 1 1) (mk_date 2024 1 15) (e_date r) ->
               r ∈ e_rows (window (mk_date 2024 1 1) (mk_date 2024 1 15) E)) /\
    (NoDup (date <$> rows two_years) ->
     forall r1 r2, r1 ∈ e_rows (window (mk_date 2023 12 25) (mk_date 2024 1 8) E) ->
                   r2 ∈ e_rows (window (mk_date 2024 1 1) (mk_date 2024 1 15) E) ->
                   e_date r1 = e_date r2 -> r1 = r2).
Proof. apply (window_keeps_derived_fields two_years). done. Defined.

(** C6: [large_speculator_net] on the legacy frame with spreading. *)
Lemma large_speculator_net_witness :
  let d := legacy_with_spreading in
  let net_value := osub (value d 0 "non_commercial_longs") (value d 0 "non_commercial_shorts") in
  value (add_net_columns d) 0 "Large Speculator Net" =
    (if has "spreading" d then osub net_value (value d 0 "spreading") else net_value) /\
  (forall name a b, (name, (a, b)) ∈ other_nets (detect_schema d) ->
     has a d = true -> has b d = true ->
     value (add_net_columns d) 0 name = osub (value d 0 a) (value d 0 b)) /\
  value (add_net_columns legacy_with_spreading) 0 "Large Speculator Net" = Some 30 /\
  value (add_net_columns legacy_without_spreading) 0 "Large Speculator Net" = Some 60 /\
  value (add_net_columns disaggregated_with_spreading) 0 "Large Speculator Net" = Some 30 /\
  value (add_net_columns legacy_with_spreading) 0 "Commercial Net" = Some 50.
Proof.
  apply (large_speculator_net legacy_with_spreading 0
           "non_commercial_longs" "non_commercial_shorts"); reflexivity.
Defined.

(** C7: [pct_5yr_defined_from_259] at the last of 261 weekly rows. *)
Lemma pct_5yr_defined_from_259_witness :
  let d := weekly "open_interest" wave 261 in
  exists E dv, add_changes d = Some E /\ field E 260 "open_interest" = Some dv /\
    ((260 < 259)%nat -> pct_5yr dv = None) /\
    ((length (rows d) < 260)%nat -> pct_5yr dv = None) /\
    ((forall r', r' ∈ rows d -> is_Some (cells r' !! "open_interest")) -> (259 <= 260)%nat ->
       is_Some (pct_5yr dv)).
Proof.
  eapply (pct_5yr_defined_from_259 (weekly "open_interest" wave 261) "open_interest" 260).
  - by left.
  - vm_compute. reflexivity.
Defined.

(** C9: [trailing_rank_monotone]: the last of 52 weekly values raised from 69 to 80. *)
Lemma trailing_rank_monotone_witness :
  let d := weekly "open_interest" wave 52 in
  exists E E' dv dv',
    add_changes d = Some E /\ add_changes (set_value 51 "open_interest" 80 d) = Some E' /\
    field E 51 "open_interest" = Some dv /\ field E' 51 "open_interest" = Some dv' /\
    rank_le (pct_of H1yr dv) (pct_of H1yr dv').
Proof.
  apply (trailing_rank_monotone H1yr (weekly "open_interest" wave 52) "open_interest" 51 69 80).
  - by left.
  - vm_compute. reflexivity.
  - by vm_compute.
Defined.

(** C10: [derive_permutation_invariant] on the rows of [two_years] reversed. *)
Lemma derive_permutation_invariant_witness :
  let l := rows two_years in
  let l' := reverse l in
  derive (mk_frame ["open_interest"] l') = derive (mk_frame ["open_interest"] (sort_values l)) /\
  derive (mk_frame ["open_interest"] l') = derive (mk_frame ["open_interest"] l) /\
  (l <> [] -> is_Some (derive (mk_frame ["open_interest"] l'))).
Proof.
  apply (derive_permutation_invariant ["open_interest"] (rows two_years) (reverse (rows two_years))).
  - symmetry. apply reverse_Permutation.
  - apply (bool_decide_unpack _). vm_compute. exact I.
Defined.

(** * Further properties *)

(** ** Week-over-week change *)

Lemma osub_None a b : osub a b = None <-> a = None \/ b = None.
Proof. destruct a, b; simpl; split; try done; auto; intros [?|?]; done. Qed.

(** The two change fields of a row, computed on the rows [l]. *)
Lemma derived_change cy l c i r :
  l !! i = Some r ->
  change (derived_at cy l c i) =
    match i with
    | O => None
    | S j => osub (cells r !! c) (cell (column c l) j)
    end.
Proof.
  intros Hr. unfold derived_at; simpl.
  pose proof (column_lookup c _ _ _ Hr) as Hcur.
  unfold cell. destruct i as [|j].
  - rewrite diff_0; [done|]. intros E. by rewrite E in Hcur.
  - assert (Hj : is_Some (l !! j)).
    { apply lookup_lt_is_Some. apply lookup_lt_Some in Hr. lia. }
    destruct Hj as [r' Hj].
    rewrite (diff_S _ j (cells r' !! c) (cells r !! c)); [|by apply column_lookup|done].
    simpl. by rewrite (column_lookup c _ _ _ Hj).
Qed.

Lemma derived_change_pct cy l c i :
  (i < length l)%nat ->
  change_pct (derived_at cy l c i) =
    match i with
    | O => NaN
    | S j => change_pct_cases (cell (pad (column c l)) j) (cell (pad (column c l)) i)
    end.
Proof.
  intros Hi. unfold derived_at; simpl. rewrite <- (length_column c) in Hi.
  destruct i as [|j].
  - rewrite change_pct_col_0; [done|]. intros E. rewrite E in Hi. simpl in Hi. lia.
  - rewrite (change_pct_col_S _ j (cell (pad (column c l)) j)
                                 (cell (pad (column c l)) (S j)));
      [|apply cell_pad_lt; lia..].
    simpl. apply change_pct_of_cases.
Qed.

(** X1. The [_change] field is the exact difference between the value of
    the row and the value of the row before; it is undefined in row 0
    and next to a missing value, and nowhere else. Nothing is rounded. *)
Theorem change_value d c i r :
  c ∈ columns d -> rows d !! i = Some r ->
  exists E dv, add_changes d = Some E /\ field E i c = Some dv /\
    change dv =
      match i with
      | O => None
      | S j => x ← cells r !! c; y ← value d j c; Some (x - y)
      end /\
    (change dv = None <->
       i = O \/ cells r !! c = None \/ exists j, i = S j /\ value d j c = None).
Proof.
  intros Hc Hr.
  destruct (field_add_changes d i c r Hr Hc) as (m & _ & HE & HF).
  eexists _, _. split; [exact HE|]. split; [exact HF|].
  rewrite (derived_change _ _ _ _ _ Hr).
  destruct i as [|j]; [split; [done|split; auto]|].
  rewrite <- value_cell. split; [done|].
  rewrite osub_None. split.
  - intros [?|?]; [by right; left|]. right; right. eauto.
  - intros [?|[?|(j' & ? & ?)]]; [done|by left|]. simplify_eq. by right.
Qed.

(** X2. On the prepared frame, next to a previous value that is not
    zero and a quotient of at most [2 ^ 53], the change percentage is a
    whole number of tenths within the tolerance of the double
    computation of [change / previous * 100]: it is 0 when the change
    is 0, and never has the sign opposite to that of change / previous.
    Without a change there is no percentage. *)
Theorem change_pct_from_change d0 c i r p :
  let d := prepare d0 in
  c ∈ columns d -> rows d !! S i = Some r ->
  value d i c = Some p -> ~ p == 0 ->
  (forall v, cells r !! c = Some v -> Qabs v <= 2 ^ 53 * Qabs p) ->
  exists E dv, derive d0 = Some E /\ field E (S i) c = Some dv /\
    match change dv with
    | Some ch =>
        exists k : Z, change_pct dv = Fin (inject_Z k / 10) /\
          Qabs (inject_Z k / 10 - ch / p * 100) <= double_tolerance (ch / p * 100) /\
          (ch == 0 -> k = 0%Z) /\
          ((0 < k)%Z -> 0 < ch / p) /\ ((k < 0)%Z -> ch / p < 0)
    | None => change_pct dv = NaN
    end.
Proof.
  intros d Hc Hr Hp Hnz Hb.
  destruct (field_add_changes d (S i) c r Hr Hc) as (m & _ & HE & HF).
  eexists _, _. split; [exact HE|]. split; [exact HF|].
  rewrite (derived_change _ _ _ _ _ Hr).
  rewrite derived_change_pct by (by eapply lookup_lt_Some).
  unfold d. rewrite pad_prepared. fold d.
  assert (Hv : value d (S i) c = cells r !! c) by (unfold value; by rewrite Hr).
  rewrite <- !value_cell, Hp, Hv.
  destruct (cells r !! c) as [v|]; simpl; [|done].
  destruct (change_pct_cases_bound p v Hnz (Hb v eq_refl)) as (k & Hk & Hbound).
  exists k. split; [exact Hk|].
  assert (Ex : (v / p - 1) * 100 == (v - p) / p * 100) by (field; exact Hnz).
  assert (Hbound' : Qabs (inject_Z k / 10 - (v - p) / p * 100)
                    <= double_tolerance ((v - p) / p * 100)).
  { unfold double_tolerance in *. by rewrite <- Ex. }
  split; [exact Hbound'|].
  destruct (double_tolerance_sign k _ Hbound') as (S1 & S2 & S3 & _).
  split; [|split].
  - intros Hz. apply S3. rewrite Hz. field. exact Hnz.
  - intros Hk0. specialize (S1 Hk0). set (x := (v - p) / p) in *. lra.
  - intros Hk0. specialize (S2 Hk0). set (x := (v - p) / p) in *. lra.
Qed.

(** ** Forward fill and the prepared frame *)

Lemma cell_pad_from p col i :
  (i < length col)%nat ->
  cell (pad_from p col) i =
    match last (present (take (S i) col)) with Some v => Some v | None => p end.
Proof.
  revert p i. induction col as [|x col IH]; intros p i Hi; simpl in Hi; [lia|].
  destruct i as [|i].
  - unfold cell. simpl. destruct x; done.
  - change (cell (pad_from p (x :: col)) (S i))
      with (cell (pad_from (match x with Some _ => x | None => p end) col) i).
    rewrite IH by lia.
    change (take (S (S i)) (x :: col)) with (x :: take (S i) col).
    rewrite present_cons. destruct x as [v|]; simpl; [|done].
    rewrite last_cons. by destruct (last (present (take (S i) col))).
Qed.

(** X3. After the forward fill a cell holds the most recent value its
    column has at or before that row, and is missing only when the
    column has no value up to there; dates and the number of rows are
    kept, and filling again changes nothing. *)
Theorem ffill_most_recent cols l c i :
  (i < length l)%nat ->
  value (mk_frame cols (ffill l)) i c = last (present (take (S i) (column c l))) /\
  date <$> ffill l = date <$> l /\
  ffill (ffill l) = ffill l.
Proof.
  intros Hi. split; [|split].
  - rewrite value_cell. simpl. rewrite column_ffill. unfold pad.
    rewrite cell_pad_from by (by rewrite length_column).
    by destruct (last _).
  - apply dates_ffill_from.
  - unfold ffill.
    assert (G : forall (l : list Row) (p q : gmap string Q),
                (forall k, is_Some (q !! k) -> is_Some (p !! k)) ->
                ffill_from q (ffill_from p l) = ffill_from p l).
    { clear. induction l as [|r l IH]; intros p q Hq; simpl; [done|].
      assert (E : (cells r ∪ p) ∪ q = cells r ∪ p).
      { apply map_eq. intros k. rewrite !lookup_union.
        destruct (cells r !! k) eqn:E1, (p !! k) eqn:E2, (q !! k) eqn:E3; try done.
        destruct (Hq k) as [? ?]; [eauto|congruence]. }
      rewrite E. f_equal. apply IH. done. }
    apply G. intros k [? H]. by rewrite lookup_empty in H.
Qed.

(** ** The prepared frame is in date order *)

Lemma Sorted_fmap_date l : Sorted row_le l -> Sorted date_le (date <$> l).
Proof.
  induction 1 as [|r l _ IH Hhd]; [constructor|].
  rewrite fmap_cons. constructor; [done|].
  destruct Hhd; [constructor|]. rewrite fmap_cons. by constructor.
Qed.

Lemma dates_prepare_sorted d : date <$> rows (prepare d) = date <$> sort_values (rows d).
Proof.
  unfold prepare. rewrite dates_add_net_columns. simpl. unfold ffill. apply dates_ffill_from.
Qed.

(** X4. Whatever the order of the input, the prepared frame and the enriched
    series have the input's dates, each as often as the input has it,
    in ascending order; no row is dropped or added. *)
Theorem prepare_sorted d :
  StronglySorted date_le (date <$> rows (prepare d)) /\
  date <$> rows (prepare d) ≡ₚ date <$> rows d /\
  length (rows (prepare d)) = length (rows d) /\
  (forall E, derive d = Some E ->
     e_date <$> e_rows E = date <$> rows (prepare d) /\ e_columns E = columns (prepare d)).
Proof.
  split; [|split; [|split]].
  - rewrite dates_prepare_sorted.
    apply Sorted_StronglySorted; [apply _|]. apply Sorted_fmap_date, sort_values_Sorted.
  - apply dates_prepare.
  - rewrite <- (length_fmap date), <- (length_fmap date (rows d)).
    apply Permutation_length, dates_prepare.
  - intros E HE. split; [by apply add_changes_dates|].
    by apply add_changes_complete in HE as [_ ?].
Qed.

(** ** What the net columns leave alone *)

Lemma columns_assign c f d :
  columns (assign c f d) = columns d ++ (if has c d then [] else [c]).
Proof. unfold assign. simpl. destruct (has c d); [by rewrite app_nil_r|done]. Qed.

Lemma extends_refl d : extends d d.
Proof.
  exists []. rewrite app_nil_r. split; [done|]. split; [constructor|].
  intros c Hc. by apply elem_of_nil in Hc.
Qed.

Lemma extends_assign c f d d' :
  c ∈ net_names -> extends d d' -> extends d (assign c f d').
Proof.
  intros Hc (added & Hcols & Hnd & Hin). unfold extends. rewrite columns_assign.
  destruct (has c d') eqn:Hh.
  - exists added. by rewrite app_nil_r.
  - apply bool_decide_eq_false in Hh. rewrite Hcols, elem_of_app in Hh.
    exists (added ++ [c]). split; [by rewrite Hcols, app_assoc|]. split.
    + apply NoDup_app. split; [done|]. split; [|apply NoDup_singleton].
      intros x Hx ->%list_elem_of_singleton. tauto.
    + intros x [Hx| ->%list_elem_of_singleton]%elem_of_app; [by apply Hin|].
      split; [done|]. tauto.
Qed.

Lemma extends_net name a b d d' :
  name ∈ net_names -> extends d d' -> extends d (net name a b d').
Proof. intros ? ?. unfold net. destruct (_ && _); [by apply extends_assign|done]. Qed.

Lemma net_names_elem :
  "Commercial Net" ∈ net_names /\ "Large Speculator Net" ∈ net_names /\
  "Other Reportables Net" ∈ net_names /\ "Swap Dealer Net" ∈ net_names /\
  "Small Speculator Net" ∈ net_names.
Proof. unfold net_names. repeat split; set_solver. Qed.

Lemma length_rows_add_net_columns d : length (rows (add_net_columns d)) = length (rows d).
Proof.
  rewrite <- (length_fmap date), dates_add_net_columns. apply length_fmap.
Qed.

Lemma add_net_columns_extends d : extends d (add_net_columns d).
Proof.
  destruct net_names_elem as (H1 & H2 & H3 & H4 & H5).
  unfold add_net_columns, subtract_spreading, add_schema_nets.
  destruct (detect_schema d);
    destruct (has "spreading" _ && has "Large Speculator Net" _);
    repeat first [apply extends_assign; [done|] | apply extends_net; [done|]];
    apply extends_refl.
Qed.

(** X5. Adding the net columns keeps every column of the input in its
    place and appends net columns only, none of them twice; a column
    whose name is not the name of a net keeps its values in every row,
    and the number of rows is unchanged. *)
Theorem net_columns_keep_input d :
  extends d (add_net_columns d) /\
  (NoDup (columns d) -> NoDup (columns (add_net_columns d))) /\
  length (rows (add_net_columns d)) = length (rows d) /\
  (forall i c, c ∉ net_names -> value (add_net_columns d) i c = value d i c).
Proof.
  pose proof (add_net_columns_extends d) as HE.
  split; [exact HE|]. split; [|split].
  - intros HN. destruct HE as (added & -> & Hnd & Hin).
    apply NoDup_app. split; [done|]. split; [|done].
    intros c Hc Ha. by apply Hin in Ha as [_ ?].
  - apply length_rows_add_net_columns.
  - intros i c Hc. unfold add_net_columns.
    rewrite value_subtract_spreading_ne.
    + by apply raw_after_schema_nets.
    + intros ->. apply Hc. apply net_names_elem.
Qed.

(** ** Percentile ranks stay between 0 and 100 *)

Lemma elem_of_present v col : Some v ∈ col -> v ∈ present col.
Proof.
  induction col as [|x col IH]; intros H; [by apply elem_of_nil in H|].
  rewrite present_cons. apply elem_of_cons in H as [<-|H].
  - by left.
  - destruct x; [right|]; by apply IH.
Qed.

Lemma count_lt_eq_length v w : (count_lt v w + count_eq v w <= length w)%nat.
Proof. rewrite <- count_le_split. apply count_le_length. Qed.

Lemma rank_pct_in_bounds w v :
  v ∈ w -> 0 < rank_pct_in w v * 100 /\ rank_pct_in w v * 100 <= 100.
Proof.
  intros Hv.
  assert (Hn : (0 < length w)%nat) by (destruct w; [by apply elem_of_nil in Hv|simpl; lia]).
  pose proof (nat_to_Q_pos _ Hn) as Pn.
  pose proof (count_eq_pos _ _ Hv) as He.
  pose proof (count_lt_eq_length v w) as Hle.
  rewrite rank_pct_closed by done.
  set (a := nat_to_Q (count_lt v w)). set (e := nat_to_Q (count_eq v w)).
  set (n := nat_to_Q (length w)) in *.
  assert (Ha : 0 <= a) by (apply (nat_to_Q_le 0); lia).
  assert (He1 : 1 <= e) by (apply (nat_to_Q_le 1); lia).
  assert (Hs : a + e <= n).
  { unfold a, e, n. rewrite <- nat_to_Q_add. by apply nat_to_Q_le. }
  set (k := a + (e + 1) / 2).
  assert (Hk : k == a + (e + 1) * (1 # 2)) by (unfold k; field).
  assert (R : 0 < k / n /\ k / n <= 1).
  { split.
    - apply Qlt_shift_div_l; [done|]. lra.
    - apply Qle_shift_div_r; [done|]. lra. }
  destruct R as [R1 R2]. set (x := k / n) in *. clearbody x. lra.
Qed.

Lemma round1_0_100 q : 0 <= q -> q <= 100 -> 0 <= round1 q /\ round1 q <= 100.
Proof.
  intros H0 H1. split.
  - eapply Qle_trans; [|apply round1_mono, H0]. by vm_compute.
  - eapply Qle_trans; [apply round1_mono, H1|]. by vm_compute.
Qed.

Lemma cell_pct_window_range W col i q :
  cell (pct_window W col) i = Some q -> 0 <= q /\ q <= 100.
Proof.
  intros H. destruct (decide (i < length col)%nat) as [Hi|Hi].
  2:{ unfold cell in H. rewrite lookup_ge_None_2 in H; [done|].
      rewrite length_pct_window. lia. }
  rewrite cell_pct_window in H by done. cbv zeta in H.
  destruct (W <=? _); [|done]. rewrite last_rank_eq in H.
  destruct (last (present (trailing W i col))) as [v|] eqn:E; simplify_eq/=.
  apply last_Some_elem_of in E.
  destruct (rank_pct_in_bounds _ _ E). apply round1_0_100; [by apply Qlt_le_weak|done].
Qed.

(** X6. Every percentile field that is defined lies between 0 and 100: the
    three trailing ranks after rounding, the year-to-date rank strictly
    above 0. *)
Theorem percentiles_in_range d c i r :
  c ∈ columns d -> rows d !! i = Some r ->
  exists E dv, add_changes d = Some E /\ field E i c = Some dv /\
    (forall h q, pct_of h dv = Some q -> 0 <= q /\ q <= 100) /\
    (forall q, pct_ytd dv = Some q -> 0 < q /\ q <= 100).
Proof.
  intros Hc Hr.
  destruct (field_add_changes d i c r Hr Hc) as (m & _ & HE & HF).
  eexists _, _. split; [exact HE|]. split; [exact HF|]. split.
  - intros h q. rewrite pct_of_derived_at. apply cell_pct_window_range.
  - intros q. unfold derived_at; simpl. rewrite (cell_pct_ytd _ _ _ _ _ Hr). cbv zeta.
    destruct (_ <? _); simpl; [|done].
    destruct (date_leb _ _) eqn:L; [|done].
    destruct (cells r !! c) as [v|] eqn:Ev; simpl; [|done].
    intros [= <-]. apply rank_pct_in_bounds, elem_of_present.
    unfold column. apply list_elem_of_fmap. exists r. split; [done|].
    apply list_elem_of_filter. split; [done|]. by eapply list_elem_of_lookup_2.
Qed.

Lemma count_all p l : (forall y, y ∈ l -> p y = true) -> count p l = length l.
Proof.
  induction l as [|y l IH]; intros H; simpl; [done|].
  rewrite (H y) by left. rewrite IH; [done|]. intros; apply H; by right.
Qed.

Lemma qltb_irrefl v : qltb v v = false.
Proof.
  destruct (qltb v v) eqn:E; [|done]. apply qltb_spec in E.
  exfalso. eapply Qlt_irrefl; eauto.
Qed.

Lemma Qeq_bool_refl v : Qeq_bool v v = true.
Proof. apply Qeq_bool_iff. reflexivity. Qed.

Lemma Qeq_bool_lt_false x v : x < v \/ v < x -> Qeq_bool x v = false.
Proof.
  intros H. destruct (Qeq_bool x v) eqn:E; [|done]. apply Qeq_bool_iff in E.
  exfalso. rewrite E in H. destruct H; eapply Qlt_irrefl; eauto.
Qed.

(** The counts of a window whose last value is above, or below, all the others. *)
Lemma counts_strict_max pre v :
  Forall (fun x => x < v) pre ->
  count_lt v (pre ++ [v]) = length pre /\ count_eq v (pre ++ [v]) = 1%nat.
Proof.
  intros H. rewrite Forall_forall in H. unfold count_lt, count_eq.
  rewrite !count_app. simpl. rewrite qltb_irrefl, Qeq_bool_refl. split.
  - rewrite count_all; [lia|]. intros y Hy. by apply qltb_spec, H.
  - rewrite count_zero; [lia|]. intros y Hy. apply Qeq_bool_lt_false. left. by apply H.
Qed.

Lemma counts_strict_min pre v :
  Forall (fun x => v < x) pre ->
  count_lt v (pre ++ [v]) = 0%nat /\ count_eq v (pre ++ [v]) = 1%nat.
Proof.
  intros H. rewrite Forall_forall in H. unfold count_lt, count_eq.
  rewrite !count_app. simpl. rewrite qltb_irrefl, Qeq_bool_refl. split.
  - rewrite count_zero; [lia|]. intros y Hy.
    destruct (qltb y v) eqn:E; [|done]. apply qltb_spec in E.
    exfalso. apply (Qlt_irrefl v). eapply Qlt_trans; [by apply H|done].
  - rewrite count_zero; [lia|]. intros y Hy. apply Qeq_bool_lt_false. right. by apply H.
Qed.

(** X7. A value above every other value of its complete window ranks 100;
    a value below every other one ranks [100 / W] rounded, which is
    0.4, 1.0 and 1.9 for the three horizons and never 0. *)
Theorem trailing_rank_extremes h d c i r pre v :
  c ∈ columns d -> rows d !! i = Some r ->
  (horizon_size h <= S i)%nat ->
  trailing (horizon_size h) i (column c (rows d)) = Some <$> (pre ++ [v]) ->
  exists E dv, add_changes d = Some E /\ field E i c = Some dv /\
    (Forall (fun x => x < v) pre -> exists q, pct_of h dv = Some q /\ q == 100) /\
    (Forall (fun x => v < x) pre ->
       pct_of h dv =
         Some (match h with H5yr => 0.4 | H2yr => 1.0 | H1yr => 1.9 end)).
Proof.
  intros Hc Hr HW Hw.
  destruct (field_add_changes d i c r Hr Hc) as (m & _ & HE & HF).
  eexists _, _. split; [exact HE|]. split; [exact HF|].
  pose proof (lookup_lt_Some _ _ _ Hr) as Hi. rewrite <- (length_column c) in Hi.
  destruct (cell_pct_window_full _ _ _ _ (horizon_size_pos h) HW Hi Hw)
    as (HL & v' & _ & Hlast & Hcell).
  rewrite last_snoc in Hlast. simplify_eq.
  rewrite pct_of_derived_at, Hcell.
  assert (Hin : v' ∈ pre ++ [v']) by (apply elem_of_app; right; by left).
  assert (P : 0 < nat_to_Q (length (pre ++ [v']))).
  { apply nat_to_Q_pos. rewrite HL. apply horizon_size_pos. }
  split.
  - intros Hall. eexists. split; [done|].
    destruct (counts_strict_max _ _ Hall) as [E1 E2].
    transitivity (round1 100); [|by vm_compute].
    rewrite (round1_comp _ 100); [reflexivity|].
    rewrite rank_pct_closed by done. rewrite E1, E2.
    rewrite length_app. simpl length. rewrite nat_to_Q_add.
    change (nat_to_Q 1) with 1.
    assert (N : 0 <= nat_to_Q (length pre)) by (apply (nat_to_Q_le 0); lia).
    set (n := nat_to_Q (length pre)) in *. field. intros Hz. lra.
  - intros Hall. f_equal.
    destruct (counts_strict_min _ _ Hall) as [E1 E2].
    rewrite (round1_comp _ (100 / nat_to_Q (horizon_size h))).
    + by destruct h; vm_compute.
    + rewrite rank_pct_closed by done. rewrite E1, E2, HL.
      change (nat_to_Q 1) with 1. change (nat_to_Q 0) with 0.
      rewrite HL in P. set (n := nat_to_Q (horizon_size h)) in *. field. intros Hz. lra.
Qed.

(** ** The columns offered and selected *)

Lemma slice_take_drop {A} i n (l : list A) : slice i (i + n)%nat l = take n (drop i l).
Proof. unfold slice. f_equal. lia. Qed.

Lemma join_slices {A} n m (l : list A) :
  mjoin ((fun i => slice i (i + n)%nat l) <$> ((fun k => (k * n)%nat) <$> seq 0 m)) = take (m * n)%nat l.
Proof.
  induction m as [|m IH]; [done|].
  rewrite seq_S, !fmap_app, join_app, IH. simpl.
  rewrite app_nil_r, slice_take_drop, take_take_drop. f_equal. lia.
Qed.

Lemma ceil_div_bounds len n :
  (0 < n)%nat ->
  (len <= (len + n - 1) / n * n)%nat /\
  (forall k, k < (len + n - 1) / n -> k * n < len)%nat.
Proof.
  intros Hn.
  pose proof (Nat.div_mod_eq (len + n - 1) n) as E.
  pose proof (Nat.mod_upper_bound (len + n - 1) n ltac:(lia)) as B.
  split; [nia|]. intros k Hk. nia.
Qed.

(** Cutting into rows of [n] loses nothing, and no row is empty or too long. *)
Lemma rows_of_join {A} n (l : list A) :
  (0 < n)%nat ->
  mjoin (rows_of n l) = l /\
  Forall (fun row => 1 <= length row <= n)%nat (rows_of n l).
Proof.
  intros Hn. unfold rows_of, range_step.
  destruct (ceil_div_bounds (length l) n Hn) as [H1 H2]. split.
  - rewrite join_slices. by apply take_ge.
  - apply Forall_fmap, Forall_fmap, Forall_forall. intros k Hk.
    apply elem_of_seq in Hk. simpl.
    rewrite slice_take_drop, length_take, length_drop.
    specialize (H2 k). lia.
Qed.

Lemma join_filter {A} (P : A -> Prop) `{!forall x, Decision (P x)} (ls : list (list A)) :
  mjoin (filter P <$> ls) = filter P (mjoin ls).
Proof.
  induction ls as [|l ls IH]; [done|].
  rewrite fmap_cons, !join_cons, filter_app, IH. done.
Qed.

(** The guard of the inner loop never fails: a row of checkboxes
    yields its checked columns, in order. *)
Lemma row_selected_filter checked row :
  row_selected checked row = filter (fun c => checked c = true) row.
Proof.
  unfold row_selected.
  rewrite (imap_ext _ (const (fun x => if checked x then [x] else []))).
  - rewrite imap_const. clear.
    induction row as [|x row IH]; [done|].
    rewrite fmap_cons, join_cons, IH.
    destruct (checked x) eqn:E.
    + by rewrite filter_cons_True.
    + rewrite filter_cons_False; [done|]. by rewrite E.
  - intros i x Hx. simpl. rewrite Hx.
    apply lookup_lt_Some in Hx. apply Nat.ltb_lt in Hx. by rewrite Hx.
Qed.

Lemma rows_selected checked (l : list string) :
  mjoin (row_selected checked <$> rows_of 3 l) = filter (fun c => checked c = true) l.
Proof.
  assert (E : forall ls : list (list string),
             row_selected checked <$> ls = filter (fun c => checked c = true) <$> ls).
  { intros ls. apply list_fmap_ext. intros. apply row_selected_filter. }
  rewrite E.
  rewrite join_filter. destruct (rows_of_join 3 l) as [-> _]; [lia|done].
Qed.

Lemma elem_of_regular_plot_cols c d :
  c ∈ regular_plot_cols d <->
  c ∈ columns d /\
  c ∉ ["None"; "contract_code"; "type"; "date"; "market_participation"].
Proof.
  unfold regular_plot_cols, plot_cols. rewrite !list_elem_of_filter.
  rewrite !not_elem_of_cons. tauto.
Qed.

Lemma NoDup_regular_plot_cols d : NoDup (columns d) -> NoDup (regular_plot_cols d).
Proof. intros. unfold regular_plot_cols, plot_cols. by do 2 apply NoDup_filter. Qed.

Lemma selected_cols_eq checked d :
  selected_cols checked d
    = filter (fun c => checked c = true) (net_position_cols d)
      ++ filter (fun c => checked c = true) (original_cols d).
Proof.
  unfold selected_cols. rewrite !rows_selected. f_equal.
  by destruct (net_position_cols d).
Qed.

Lemma NoDup_selected_cols checked d : NoDup (columns d) -> NoDup (selected_cols checked d).
Proof.
  intros HN. rewrite selected_cols_eq. apply NoDup_app. split; [|split].
  - unfold net_position_cols. do 2 apply NoDup_filter. by apply NoDup_regular_plot_cols.
  - unfold net_position_cols, original_cols. intros c.
    rewrite !list_elem_of_filter. intros (_ & H1 & _) (_ & H2 & _). congruence.
  - unfold original_cols. do 2 apply NoDup_filter. by apply NoDup_regular_plot_cols.
Qed.

Lemma elem_of_selected_cols checked d c :
  c ∈ selected_cols checked d <->
  c ∈ columns d /\ checked c = true /\
  c ∉ ["None"; "contract_code"; "type"; "date"; "market_participation"].
Proof.
  rewrite selected_cols_eq, elem_of_app. unfold net_position_cols, original_cols.
  rewrite !list_elem_of_filter, elem_of_regular_plot_cols.
  destruct (contains "Net" c); intuition congruence.
Qed.

(** X8. With distinct column names, the columns selected are the
    checked net position columns followed by the checked original
    columns, each in the order of the frame: laying the checkboxes out
    three to a row neither loses nor repeats a column. A column is
    selected exactly when it is a column of the frame, is checked and is
    none of [None], [contract_code], [type], [date] and
    [market_participation]; and every selected column has its change and
    percentile fields in every row of the enriched frame. *)
Theorem selected_cols_checked checked d :
  NoDup (columns d) ->
  selected_cols checked d
    = filter (fun c => checked c = true) (net_position_cols d)
      ++ filter (fun c => checked c = true) (original_cols d) /\
  NoDup (selected_cols checked d) /\
  (forall c, c ∈ selected_cols checked d <->
     c ∈ columns d /\ checked c = true /\
     c ∉ ["None"; "contract_code"; "type"; "date"; "market_participation"]) /\
  (forall E c r, add_changes d = Some E ->
     c ∈ selected_cols checked d -> r ∈ e_rows E -> is_Some (e_derived r !! c)).
Proof.
  intros HN.
  pose proof (selected_cols_eq checked d) as EQ.
  pose proof (elem_of_selected_cols checked d) as Hin.
  split; [exact EQ|]. split; [|split; [exact Hin|]].
  - by apply NoDup_selected_cols.
  - intros E c r HE Hc Hr. apply add_changes_complete in HE as [HC Hcols].
    apply HC; [done|]. rewrite Hcols. by apply Hin in Hc as [? _].
Qed.

Lemma net_names_offered c :
  c ∈ net_names ->
  contains "Net" c = true /\
  (c ∉ ["None"; "contract_code"; "type"; "date"]) /\ c <> "market_participation".
Proof.
  unfold net_names. intros Hc.
  repeat (apply elem_of_cons in Hc as [->|Hc];
          [split; [done|]; split; [|done]; rewrite !not_elem_of_cons;
           repeat split; (done || apply not_elem_of_nil)|]).
  by apply elem_of_nil in Hc.
Qed.

Lemma filter_all {A} (P : A -> Prop) `{!forall x, Decision (P x)} (l : list A) :
  Forall P l -> filter P l = l.
Proof.
  induction 1 as [|x l Hx _ IH]; [done|]. by rewrite filter_cons_True, IH.
Qed.

Lemma filter_none {A} (P : A -> Prop) `{!forall x, Decision (P x)} (l : list A) :
  Forall (fun x => ~ P x) l -> filter P l = [].
Proof.
  induction 1 as [|x l Hx _ IH]; [done|]. by rewrite filter_cons_False, IH.
Qed.

(** X9. The net columns the function computes are offered in the net
    position section, after the net-named columns the input already
    had, and the original section offers what it would offer without
    them. An input of unrecognized schema gets no column; an input of a
    recognized schema is offered [Commercial Net]. *)
Theorem net_columns_offered d :
  exists added,
    columns (add_net_columns d) = columns d ++ added /\
    net_position_cols (add_net_columns d) = net_position_cols d ++ added /\
    original_cols (add_net_columns d) = original_cols d /\
    (detect_schema d = Unrecognized -> added = []) /\
    (detect_schema d <> Unrecognized ->
       "Commercial Net" ∈ net_position_cols (add_net_columns d)).
Proof.
  destruct (add_net_columns_extends d) as (added & Hcols & Hnd & Hin).
  exists added. split; [done|].
  assert (Hreg : regular_plot_cols (add_net_columns d) = regular_plot_cols d ++ added).
  { unfold regular_plot_cols, plot_cols. rewrite Hcols, !filter_app. f_equal.
    assert (H1 : filter (fun c => c ∉ ["None"; "contract_code"; "type"; "date"]) added = added).
    { apply filter_all, Forall_forall. intros c Hc.
      apply Hin in Hc as [Hc _]. apply net_names_offered in Hc. tauto. }
    rewrite H1. apply filter_all, Forall_forall. intros c Hc.
    apply Hin in Hc as [Hc _]. apply net_names_offered in Hc. tauto. }
  split; [|split; [|split]].
  - unfold net_position_cols. rewrite Hreg, filter_app. f_equal.
    apply filter_all, Forall_forall. intros c Hc.
    apply Hin in Hc as [Hc _]. by apply net_names_offered in Hc as [? _].
  - unfold original_cols. rewrite Hreg, filter_app.
    rewrite (filter_none _ added); [by rewrite app_nil_r|].
    apply Forall_forall. intros c Hc.
    apply Hin in Hc as [Hc _]. apply net_names_offered in Hc as [? _]. congruence.
  - intros Hs. apply (f_equal length) in Hcols. revert Hcols.
    unfold add_net_columns, subtract_spreading, add_schema_nets. rewrite Hs.
    destruct (_ && _) eqn:E.
    + rewrite columns_assign. apply andb_prop in E as [_ ->].
      rewrite app_nil_r, length_app. destruct added; [done|simpl; lia].
    + rewrite length_app. destruct added; [done|simpl; lia].
  - intros Hs. unfold net_position_cols.
    apply list_elem_of_filter. split; [done|].
    apply elem_of_regular_plot_cols.
    split; [|rewrite !not_elem_of_cons; repeat split; (done || apply not_elem_of_nil)].
    assert (H : has "Commercial Net" (add_net_columns d) = true).
    { unfold add_net_columns. rewrite has_subtract_spreading.
      unfold add_schema_nets. destruct (detect_schema d); [| |done].
      - rewrite !has_net_ne by done. by rewrite has_assign_eq.
      - rewrite !has_net_ne by done. by rewrite has_assign_eq. }
    by apply bool_decide_eq_true in H.
Qed.

(** ** The default date range *)

Lemma min_date_spec l m :
  min_date l = Some m -> m ∈ l /\ forall d, d ∈ l -> date_le m d.
Proof.
  revert m. induction l as [|d0 l IH]; intros m H; [done|]. simpl in H.
  destruct (min_date l) as [m'|] eqn:E.
  - destruct (IH m' eq_refl) as [Hin Hmin].
    destruct (date_leb d0 m') eqn:L; simplify_eq.
    + split; [by left|]. intros d [->|Hd]%elem_of_cons; [reflexivity|].
      etrans; [exact L|]. by apply Hmin.
    + split; [by right|]. intros d [->|Hd]%elem_of_cons; [|by apply Hmin].
      match goal with
      | |- date_le ?a ?b =>
          destruct (date_le_total a b) as [T|T]; [done|]; unfold date_le in T; congruence
      end.
  - simplify_eq. destruct l; [|simpl in E; destruct (min_date l); done].
    split; [by left|]. intros d [->|Hd]%elem_of_cons; [reflexivity|inv Hd].
Qed.

Lemma min_date_is_Some l : l <> [] -> is_Some (min_date l).
Proof. destruct l as [|d l]; [done|]. intros _. simpl. destruct (min_date l); eauto. Qed.

Lemma all_dates_sorted l : StronglySorted date_le (all_dates l).
Proof. apply (StronglySorted_merge_sort date_le). Qed.

Lemma elem_of_all_dates l x : x ∈ all_dates l <-> x ∈ date <$> l.
Proof. unfold all_dates. by rewrite merge_sort_Permutation, elem_of_remove_dups. Qed.

Lemma NoDup_all_dates l : NoDup (all_dates l).
Proof. unfold all_dates. rewrite merge_sort_Permutation. apply NoDup_remove_dups. Qed.

Lemma all_dates_unique l : NoDup (date <$> l) -> all_dates l ≡ₚ date <$> l.
Proof.
  intros H. apply NoDup_Permutation; [apply NoDup_all_dates|done|].
  apply elem_of_all_dates.
Qed.

(** In a list of distinct dates in ascending order, the dates on or
    after the one at position [a] are the ones from position [a] on. *)
Lemma sorted_from L a s :
  StronglySorted date_le L -> NoDup L -> L !! a = Some s ->
  filter (date_le s) L = drop a L.
Proof.
  intros HS. revert a. induction HS as [|x L HS IH Hx]; intros a HN Ha; [done|].
  apply NoDup_cons in HN as [Hnin HN]. destruct a as [|a]; simplify_eq/=.
  - rewrite filter_cons_True by reflexivity. f_equal.
    clear -Hx. induction Hx as [|y L Hy _ IH]; [done|].
    by rewrite filter_cons_True, IH.
  - rewrite filter_cons_False; [by apply IH|].
    intros Hle. apply Hnin. apply list_elem_of_lookup_2 in Ha.
    rewrite Forall_forall in Hx.
    by rewrite (date_le_antisym x s (Hx s Ha) Hle).
Qed.

Lemma length_filter_fmap {A B} (f : A -> B) (P : B -> Prop) `{!forall x, Decision (P x)}
    (l : list A) :
  length (filter (fun x => P (f x)) l) = length (filter P (f <$> l)).
Proof.
  induction l as [|x l IH]; [done|]. rewrite fmap_cons.
  destruct (decide (P (f x))).
  - rewrite !filter_cons_True by done. simpl. by rewrite IH.
  - by rewrite !filter_cons_False by done.
Qed.

Lemma default_start l :
  l <> [] ->
  let L := all_dates l in
  exists s e, default_range l = Some (s, e) /\
              max_date (date <$> l) = Some e /\
              L !! (length L - Nat.min 89 (length L))%nat = Some s.
Proof.
  intros Hl L.
  assert (Hne : date <$> l <> []) by (by intros ?%fmap_nil_inv).
  destruct (min_date_is_Some _ Hne) as [lo Hlo].
  destruct (max_date_is_Some _ Hne) as [hi Hhi].
  assert (Hk : (0 < length L)%nat).
  { apply min_date_spec in Hlo as [Hin _]. apply elem_of_all_dates in Hin.
    fold L in Hin. destruct L; [by apply elem_of_nil in Hin|simpl; lia]. }
  unfold default_range. rewrite Hlo, Hhi. cbn -[all_dates Nat.min Nat.sub Nat.ltb]. fold L.
  destruct (1 <? length L)%nat eqn:G.
  - destruct (lookup_lt_is_Some_2 L (length L - Nat.min 89 (length L))%nat) as [s Hs]; [lia|].
    rewrite Hs. cbn -[all_dates Nat.min Nat.sub]. eauto.
  - apply Nat.ltb_ge in G. cbn -[all_dates Nat.min Nat.sub]. exists lo, hi. split; [done|]. split; [done|].
    apply min_date_spec in Hlo as [Hin _]. apply elem_of_all_dates in Hin. fold L in Hin.
    destruct L as [|x [|y L']]; simpl in *; [lia| |lia].
    by apply list_elem_of_singleton in Hin as ->.
Qed.

(** X10. On a frame with at least one row a default range exists; it
    ends at the latest date and starts at the date that stands 89th
    from the end among the distinct dates, or at the earliest date when
    there are fewer. A row is in the default range exactly when at most
    89 distinct dates of the frame are on or after its own; with
    distinct dates the range holds the 89 latest rows, or every row of a
    shorter frame, so that it stays under the limit of 90 periods. *)
Theorem default_range_last_89 d :
  rows d <> [] ->
  exists s e,
    default_range (rows d) = Some (s, e) /\
    max_date (date <$> rows d) = Some e /\
    s ∈ date <$> rows d /\
    (forall r, r ∈ plot_data s e d <->
       r ∈ rows d /\
       (length (filter (date_le (date r)) (all_dates (rows d))) <= 89)%nat) /\
    (NoDup (date <$> rows d) ->
       num_periods s e d = Nat.min 89 (length (rows d)) /\
       (num_periods s e d <= 90)%nat).
Proof.
  intros Hl. destruct (default_start (rows d) Hl) as (s & e & Hdef & He & Hs).
  set (L := all_dates (rows d)) in *. set (k := length L) in *.
  pose proof (all_dates_sorted (rows d)) as HS.
  pose proof (NoDup_all_dates (rows d)) as HN. fold L in HS, HN.
  destruct (max_date_spec _ _ He) as [_ Hmax].
  exists s, e. split; [done|]. split; [done|]. split; [|split].
  - apply elem_of_all_dates. by eapply list_elem_of_lookup_2.
  - intros r. unfold plot_data. rewrite list_elem_of_filter.
    split.
    + intros [[Hsr _] Hr]. split; [done|].
      assert (Hin : date r ∈ L) by (apply elem_of_all_dates; by apply list_elem_of_fmap_2).
      apply list_elem_of_lookup_1 in Hin as [j Hj].
      rewrite (sorted_from L j (date r)) by done. rewrite length_drop. fold k.
      assert (Hjk : (j < k)%nat) by (by eapply lookup_lt_Some).
      assert (Hd : date r ∈ filter (date_le s) L).
      { apply list_elem_of_filter. split; [done|]. by eapply list_elem_of_lookup_2. }
      rewrite (sorted_from L _ s) in Hd by done.
      apply list_elem_of_lookup_1 in Hd as [i Hi]. rewrite lookup_drop in Hi.
      assert (j = (k - Nat.min 89 k + i)%nat) by (by eapply NoDup_lookup).
      lia.
    + intros [Hr Hlen]. split; [|done]. split.
      * assert (Hin : date r ∈ L) by (apply elem_of_all_dates; by apply list_elem_of_fmap_2).
        apply list_elem_of_lookup_1 in Hin as [j Hj].
        rewrite (sorted_from L j (date r)) in Hlen by done. rewrite length_drop in Hlen.
        fold k in Hlen.
        assert (Hjk : (j < k)%nat) by (by eapply lookup_lt_Some).
        assert (Hd : date r ∈ drop (k - Nat.min 89 k) L).
        { apply list_elem_of_lookup. exists (j - (k - Nat.min 89 k))%nat.
          rewrite lookup_drop, <- Hj. f_equal. lia. }
        rewrite <- (sorted_from L _ s) in Hd by done.
        by apply list_elem_of_filter in Hd as [? _].
      * by apply Hmax, list_elem_of_fmap_2.
  - intros Hnd.
    assert (Hn : num_periods s e d = Nat.min 89 (length (rows d))).
    { unfold num_periods, plot_data.
      rewrite (length_filter_fmap date (in_range s e)).
      rewrite <- (all_dates_unique _ Hnd). fold L.
      rewrite (filter_ext_in _ (date_le s)).
      - rewrite (sorted_from L _ s) by done. rewrite length_drop. fold k.
        assert (k = length (rows d)) as <-; [|lia].
        unfold k, L. by rewrite (all_dates_unique _ Hnd), length_fmap.
      - intros x Hx. unfold in_range. split; [tauto|]. intros ?. split; [done|].
        apply Hmax. by apply elem_of_all_dates. }
    split; [done|]. lia.
Qed.

(** ** The selected range is a run of consecutive rows *)

Lemma filter_upto {A} (key : A -> Date) s e (l : list A) :
  StronglySorted date_le (key <$> l) -> Forall (fun x => date_le s (key x)) l ->
  filter (fun x => in_range s e (key x)) l
    = take (length (filter (fun x => in_range s e (key x)) l)) l.
Proof.
  induction l as [|x l IH]; [done|].
  rewrite fmap_cons. intros [HS Hx]%StronglySorted_inv [Hs Hl]%Forall_cons.
  destruct (decide (date_le (key x) e)) as [He|He].
  - rewrite filter_cons_True by done. simpl. f_equal. by apply IH.
  - rewrite filter_cons_False by (intros [_ ?]; done).
    rewrite filter_none; [done|]. apply Forall_forall. intros y Hy [_ Hye].
    apply He. etrans; [|exact Hye].
    rewrite Forall_forall in Hx. apply Hx. by apply list_elem_of_fmap_2.
Qed.

Lemma filter_range_segment {A} (key : A -> Date) s e (l : list A) :
  StronglySorted date_le (key <$> l) ->
  filter (fun x => in_range s e (key x)) l
    = take (length (filter (fun x => in_range s e (key x)) l))
           (drop (length (filter (fun x => ~ date_le s (key x)) l)) l).
Proof.
  induction l as [|x l IH]; [done|].
  rewrite fmap_cons. intros HSS. pose proof HSS as [HS Hx]%StronglySorted_inv.
  destruct (decide (date_le s (key x))) as [Hs|Hs].
  - assert (Hall : Forall (fun y => date_le s (key y)) (x :: l)).
    { constructor; [done|]. apply Forall_forall. intros y Hy. etrans; [exact Hs|].
      rewrite Forall_forall in Hx. apply Hx. by apply list_elem_of_fmap_2. }
    rewrite (filter_none (fun y => ~ date_le s (key y))).
    + simpl. apply filter_upto; [by rewrite fmap_cons|done].
    + eapply Forall_impl; [exact Hall|]. simpl. tauto.
  - rewrite (filter_cons_False (fun y => in_range s e (key y))) by (intros [? _]; done).
    rewrite (filter_cons_True (fun y => ~ date_le s (key y))) by done.
    simpl. by apply IH.
Qed.

Lemma prepare_StronglySorted d : StronglySorted date_le (date <$> rows (prepare d)).
Proof.
  rewrite dates_prepare_sorted.
  apply Sorted_StronglySorted; [apply _|]. apply Sorted_fmap_date, sort_values_Sorted.
Qed.

Lemma add_changes_enrich d E : add_changes d = Some E -> exists cy, E = enrich cy d.
Proof.
  unfold add_changes. intros H.
  destruct (columns d); [|destruct (max_date _)]; simplify_eq/=; eauto.
Qed.

Lemma lookup_segment {A} (l : list A) a n j x :
  take n (drop a l) !! j = Some x -> (j < n)%nat /\ l !! (a + j)%nat = Some x.
Proof.
  intros H. apply lookup_take_Some in H as [H ?]. by rewrite lookup_drop in H.
Qed.

(** X11. In the prepared frame the rows of a date range are
    consecutive: they are the [num_periods] rows that follow the rows
    dated before the start. The enriched frame is cut at the same
    places, so the plotted frame and the enriched frame of the range
    have the same length and at every position the same date and the
    same cells; and from the second record of the range on, the change
    field of a record is the difference between its value and the value
    of the record before it in the range. *)
Theorem window_contiguous d s e E :
  derive d = Some E ->
  let p := prepare d in
  let a := rows_before s p in
  let n := num_periods s e p in
  plot_data s e p = take n (drop a (rows p)) /\
  e_rows (window s e E) = take n (drop a (e_rows E)) /\
  length (e_rows (window s e E)) = n /\
  (forall j er, e_rows (window s e E) !! j = Some er ->
     exists r, plot_data s e p !! j = Some r /\ e_date er = date r /\ e_cells er = cells r) /\
  (forall j er' er c, c ∈ columns p ->
     e_rows (window s e E) !! j = Some er' -> e_rows (window s e E) !! S j = Some er ->
     exists dv, e_derived er !! c = Some dv /\
                change dv = osub (e_cells er !! c) (e_cells er' !! c)).
Proof.
  intros HE p a n.
  pose proof (prepare_StronglySorted d) as HS. fold p in HS.
  pose proof (add_changes_dates _ _ HE) as Hd. fold p in Hd.
  destruct (add_changes_enrich _ _ HE) as [cy ->]. fold p in HE, Hd |- *.
  assert (Hp : plot_data s e p = take n (drop a (rows p))).
  { unfold plot_data, n, num_periods, plot_data, a, rows_before.
    by apply (filter_range_segment date). }
  assert (Hw : e_rows (window s e (enrich cy p)) = take n (drop a (e_rows (enrich cy p)))).
  { unfold window. cbn [e_rows].
    rewrite (filter_range_segment e_date) by (by rewrite Hd).
    unfold n, num_periods, plot_data, a, rows_before.
    rewrite (length_filter_fmap e_date (in_range s e)), Hd,
            <- (length_filter_fmap date (in_range s e)).
    f_equal. f_equal.
    etrans; [exact (length_filter_fmap e_date (fun x => ~ date_le s x) _)|].
    rewrite Hd. symmetry.
    exact (length_filter_fmap date (fun x => ~ date_le s x) _). }
  assert (Hrow : forall j er, e_rows (window s e (enrich cy p)) !! j = Some er ->
            (j < n)%nat /\ exists r, rows p !! (a + j)%nat = Some r /\
              er = mk_erow (date r) (cells r)
                     (derived_row ((fun c => (c, derive_column cy (rows p) c)) <$> columns p)
                                  (a + j))).
  { intros j er Hj. rewrite Hw in Hj. apply lookup_segment in Hj as [Hjn Hj].
    split; [done|]. rewrite lookup_enrich in Hj.
    destruct (rows p !! (a + j)%nat) as [r|]; simplify_eq/=. eauto. }
  split; [exact Hp|]. split; [exact Hw|]. split; [|split].
  - unfold n at 1, num_periods. rewrite Hp, Hw, !length_take, !length_drop.
    rewrite <- (length_fmap e_date), Hd, length_fmap. done.
  - intros j er Hj. apply Hrow in Hj as (Hjn & r & Hr & ->). exists r.
    split; [|done]. rewrite Hp, lookup_take_lt by done. by rewrite lookup_drop.
  - intros j er' er c Hc Hj' Hj.
    apply Hrow in Hj' as (_ & r' & Hr' & ->). apply Hrow in Hj as (_ & r & Hr & ->).
    cbn [e_derived e_cells]. rewrite lookup_derived_row, bool_decide_eq_true_2 by done.
    eexists. split; [done|].
    fold (derived_at cy (rows p) c (a + S j)).
    rewrite (derived_change _ _ _ _ _ Hr). replace (a + S j)%nat with (S (a + j)) by lia.
    unfold cell. by rewrite (column_lookup c _ _ _ Hr').
Qed.

(** ** Colours *)

Lemma append_cons a (p v : string) : String a p +:+ v = String a (p +:+ v).
Proof. done. Qed.

Lemma append_nil (v : string) : EmptyString +:+ v = v.
Proof. done. Qed.

Lemma string_app_assoc (a b c : string) : (a +:+ b) +:+ c = a +:+ (b +:+ c).
Proof.
  induction a as [|x a IH]; [done|]. by rewrite !append_cons, IH.
Qed.

Lemma prefix_spec p s : String.prefix p s = true <-> exists v, s = p +:+ v.
Proof.
  revert s. induction p as [|a p IH]; intros s.
  - destruct s; simpl; split; eauto.
  - destruct s as [|b s]; simpl.
    + split; [done|]. intros [v Hv]. by rewrite append_cons in Hv.
    + destruct (Ascii.ascii_dec a b) as [->|Hne].
      * rewrite IH. split; intros [v Hv]; exists v; rewrite append_cons in *; congruence.
      * split; [done|]. intros [v Hv]. rewrite append_cons in Hv. congruence.
Qed.

Lemma contains_spec p s : contains p s = true <-> exists u v, s = u +:+ p +:+ v.
Proof.
  induction s as [|a s IH].
  - cbn [contains]. rewrite orb_false_r, prefix_spec. split.
    + intros [v Hv]. by exists EmptyString, v.
    + intros (u & v & H). destruct u; [by exists v|by rewrite append_cons in H].
  - cbn [contains]. rewrite orb_true_iff, prefix_spec, IH. split.
    + intros [[v Hv]|(u & v & Hv)].
      * by exists EmptyString, v.
      * exists (String a u), v. by rewrite append_cons, Hv.
    + intros (u & v & Hv). destruct u as [|b u].
      * left. by exists v.
      * right. exists u, v. rewrite append_cons in Hv. congruence.
Qed.

(** A name that contains a phrase contains every part of the phrase. *)
Lemma contains_trans q p s :
  contains q p = true -> contains p s = true -> contains q s = true.
Proof.
  rewrite !contains_spec. intros (a & b & ->) (u & v & ->).
  exists (u +:+ a), (b +:+ v). by rewrite !string_app_assoc.
Qed.

Lemma contains_part q p s :
  contains q p = true -> contains q s = false -> contains p s = false.
Proof.
  intros Hq Hs. destruct (contains p s) eqn:E; [|done].
  by rewrite (contains_trans q p s Hq E) in Hs.
Qed.

(** X12. A trace is left to the default colours of the plotting
    library exactly when the lower-cased column name contains none of
    nine words: the six category words, [other], and the two
    speculator net names. *)
Theorem default_color c :
  is_ascii c = true ->
  (get_color_for_column c = None <->
   Forall (fun k => contains k (lower c) = false) color_keywords).
Proof.
  intros _. unfold color_keywords. rewrite !Forall_cons, Forall_nil.
  unfold get_color_for_column. cbv zeta. set (s := lower c). split.
  - intros H.
    repeat match type of H with
           | context [contains ?p s] => destruct (contains p s) eqn:?; simpl in H
           end; done.
  - intros (H1 & H2 & H3 & H4 & H5 & H6 & H7 & H8 & H9 & _).
    rewrite (contains_part "commercial" "commercial net" s) by done.
    rewrite (contains_part "money_manager" "money_manager net" s) by done.
    rewrite (contains_part "non_reportable" "non_reportable net" s) by done.
    rewrite (contains_part "other" "other reportables net" s) by done.
    rewrite (contains_part "swap" "swap dealer net" s) by done.
    rewrite (contains_part "commercial" "non_commercial" s) by done.
    by rewrite H1, H2, H3, H4, H5, H6, H7, H8, H9.
Qed.

(** X13. For a column name without [ net] in any capitalisation, the
    colour of the checkbox label in the original columns section and
    the colour of the trace agree: blue with [#1f77b4], red with
    [#d62728], orange with [#B8860B]. A [non_commercial] column is blue,
    although its name contains [commercial]. *)
Theorem label_color_matches_trace c :
  is_ascii c = true -> contains " net" (lower c) = false ->
  (original_label_color c = "blue" <-> get_color_for_column c = Some "#1f77b4") /\
  (original_label_color c = "red" <-> get_color_for_column c = Some "#d62728") /\
  (original_label_color c = "orange" <-> get_color_for_column c = Some "#B8860B") /\
  (contains "non_commercial" (lower c) = true ->
     original_label_color c = "blue" /\ get_color_for_column c = Some "#1f77b4").
Proof.
  intros _ Hnet. unfold original_label_color, get_color_for_column. cbv zeta.
  set (s := lower c) in *.
  rewrite (contains_part " net" "commercial net" s) by done.
  rewrite (contains_part " net" "large speculator net" s) by done.
  rewrite (contains_part " net" "money_manager net" s) by done.
  rewrite (contains_part " net" "small speculator net" s) by done.
  rewrite (contains_part " net" "non_reportable net" s) by done.
  rewrite (contains_part " net" "other reportables net" s) by done.
  rewrite (contains_part " net" "swap dealer net" s) by done.
  cbn [orb].
  destruct (contains "non_commercial" s); cbn [orb]; [done|].
  destruct (contains "money_manager" s); cbn [orb]; [done|].
  destruct (contains "commercial" s); cbn [orb]; [done|].
  destruct (contains "producer" s); cbn [orb]; [done|].
  destruct (contains "non_reportable" s); [done|].
  destruct (contains "swap" s); [done|].
  destruct (contains "dealer" s); [done|].
  destruct (contains "other" s); done.
Qed.

(** X14. Every net column the function adds to a frame is offered in
    the net position section, and its checkbox label and its trace have
    the colour of its category. *)
Theorem net_columns_colored d c :
  c ∈ columns (add_net_columns d) -> c ∉ columns d ->
  c ∈ net_position_cols (add_net_columns d) /\
  (c, net_label_color c, get_color_for_column c) ∈
    [ ("Commercial Net", "red", Some "#d62728");
      ("Large Speculator Net", "blue", Some "#1f77b4");
      ("Other Reportables Net", "violet", Some "#9467bd");
      ("Swap Dealer Net", "orange", Some "#ff7f0e");
      ("Small Speculator Net", "orange", Some "#B8860B") ].
Proof.
  intros Hc Hn.
  destruct (add_net_columns_extends d) as (added & Hcols & _ & Hin).
  assert (Ha : c ∈ net_names).
  { rewrite Hcols, elem_of_app in Hc. destruct Hc as [?|Hc]; [done|]. by apply Hin in Hc as [? _]. }
  split.
  - unfold net_position_cols. apply list_elem_of_filter.
    destruct (net_names_offered c Ha) as (H1 & H2 & H3). split; [done|].
    apply elem_of_regular_plot_cols. split; [done|].
    clear -Ha. unfold net_names in Ha.
    repeat (apply elem_of_cons in Ha as [->|Ha];
            [rewrite !not_elem_of_cons; repeat split; (done || apply not_elem_of_nil)|]).
    by apply elem_of_nil in Ha.
  - unfold net_names in Ha.
    repeat (apply elem_of_cons in Ha as [->|Ha];
            [vm_compute; repeat first [by left | right]|]).
    by apply elem_of_nil in Ha.
Qed.

(** ** Hover text *)

Ltac find_piece :=
  solve [repeat first [apply list_elem_of_here | apply list_elem_of_further]].

Lemma lit_elem s h : Lit s ∈ h <-> existsb (is_lit s) h = true.
Proof.
  induction h as [|p h IH].
  - split; [by intros ?%elem_of_nil|done].
  - rewrite elem_of_cons, IH. cbn [existsb]. rewrite orb_true_iff.
    assert (E : Lit s = p <-> is_lit s p = true); [|by rewrite E].
    destruct p as [t| | |]; cbn [is_lit]; [|split; done..].
    rewrite String.eqb_eq. split; congruence.
Qed.

Ltac lit_iff :=
  rewrite lit_elem; vm_compute; split; intros; solve [reflexivity | discriminate].

Lemma hover_pieces er c dv :
  e_derived er !! c = Some dv ->
  exists h, create_hover_text er c = Some h /\
    (Lit "Change: N/A" ∈ h <-> change dv = None) /\
    (forall ch, change dv = Some ch ->
       Num "+,.0f" (Fin ch) ∈ h /\ Num "+.1f" (change_pct dv) ∈ h) /\
    (Lit "YTD Percentile: N/A" ∈ h <-> pct_ytd dv = None) /\
    (Lit "1Y Percentile: N/A" ∈ h <-> pct_1yr dv = None) /\
    (Lit "2Y Percentile: N/A" ∈ h <-> pct_2yr dv = None) /\
    (Lit "5Y Percentile: N/A" ∈ h <-> pct_5yr dv = None).
Proof.
  intros H. unfold create_hover_text. rewrite H. cbn [mbind option_bind].
  eexists. split; [reflexivity|].
  destruct dv as [ch cp p5 p2 p1 py]. cbn [change change_pct pct_5yr pct_2yr pct_1yr pct_ytd].
  destruct ch, p5, p2, p1, py; cbn [app].
  all: split; [lit_iff|].
  all: split; [intros ch0 Hc; first [discriminate Hc | injection Hc as <-; split; find_piece]|].
  all: split; [lit_iff|].
  all: split; [lit_iff|].
  all: split; [lit_iff|].
  all: lit_iff.
Qed.

Lemma prepare_filled d : filled_frame (prepare d).
Proof.
  unfold prepare. intros c j k Hjk Hk.
  apply filled_frame_add_net_columns; [|done|done]. apply filled_frame_ffill.
Qed.

(** X15. The hover text of a record of the enriched series reads
    [Change: N/A] exactly on the first record and on a record whose
    predecessor has no value. Otherwise it prints the change, which is
    the difference to the value before, and the change percentage of
    the record without a further test: when the value before is zero
    the percentage printed is NaN for a value of zero and plus infinity
    for a positive one. The 5Y, 2Y and 1Y percentile lines read [N/A] on
    the first 259, 103 and 51 records. *)
Theorem hover_text_lines d0 c i r :
  let p := prepare d0 in
  c ∈ columns p -> rows p !! i = Some r ->
  exists E er h,
    derive d0 = Some E /\ e_rows E !! i = Some er /\ create_hover_text er c = Some h /\
    (Lit "Change: N/A" ∈ h <-> i = O \/ exists j, i = S j /\ value p j c = None) /\
    (forall j x y, i = S j -> value p j c = Some x -> cells r !! c = Some y ->
       Num "+,.0f" (Fin (y - x)) ∈ h /\
       (x == 0 -> y == 0 -> Num "+.1f" NaN ∈ h) /\
       (x == 0 -> 0 < y -> Num "+.1f" PInf ∈ h)) /\
    ((S i < 260)%nat -> Lit "5Y Percentile: N/A" ∈ h) /\
    ((S i < 104)%nat -> Lit "2Y Percentile: N/A" ∈ h) /\
    ((S i < 52)%nat -> Lit "1Y Percentile: N/A" ∈ h).
Proof.
  intros p Hc Hr.
  destruct (field_add_changes p i c r Hr Hc) as (m & _ & HE & HF).
  set (cy := year m) in *. set (dv := derived_at cy (rows p) c i) in *.
  assert (Her : exists er, e_rows (enrich cy p) !! i = Some er /\ e_derived er !! c = Some dv).
  { unfold field in HF. destruct (e_rows (enrich cy p) !! i) as [er|]; [|done]. eauto. }
  destruct Her as (er & Her & Hdv).
  destruct (hover_pieces er c dv Hdv) as (h & Hh & Hna & Hch & _ & H1 & H2 & H5).
  exists (enrich cy p), er, h. split; [exact HE|]. split; [exact Her|]. split; [exact Hh|].
  assert (Hchange : change dv =
            match i with O => None | S j => osub (cells r !! c) (value p j c) end).
  { unfold dv. rewrite (derived_change _ _ _ _ _ Hr). destruct i; [done|].
    by rewrite value_cell. }
  assert (Hcur : value p i c = cells r !! c) by (unfold value; by rewrite Hr).
  assert (Hpct : forall j x y, i = S j -> value p j c = Some x -> cells r !! c = Some y ->
            change_pct dv = change_pct_cases (Some x) (Some y)).
  { intros j x y -> Hx Hy. unfold dv.
    rewrite derived_change_pct by (by eapply lookup_lt_Some).
    unfold p. rewrite pad_prepared. fold p.
    by rewrite <- !value_cell, Hx, Hcur, Hy. }
  split; [|split; [|split; [|split]]].
  - rewrite Hna, Hchange. destruct i as [|j]; [split; auto|]. rewrite osub_None. split.
    + intros [Hn|Hn]; right; exists j; (split; [done|]); [|done].
      destruct (value p j c) eqn:Hj; [|done]. exfalso.
      pose proof (prepare_filled d0 c j (S j)) as Hf. fold p in Hf.
      destruct Hf as [? Hs]; [lia|by eapply lookup_lt_Some|by rewrite Hj; eauto|].
      congruence.
    + intros [?|(j' & ? & ?)]; [done|]. simplify_eq. by right.
  - intros j x y -> Hx Hy.
    assert (Hc1 : change dv = Some (y - x)) by (by rewrite Hchange, Hx, Hy).
    destruct (Hch _ Hc1) as [Ha Hb]. rewrite (Hpct j x y eq_refl Hx Hy) in Hb.
    split; [done|]. split.
    + intros Hx0 Hy0. unfold change_pct_cases in Hb.
      apply Qeq_bool_iff in Hx0, Hy0. by rewrite Hx0, Hy0 in Hb.
    + intros Hx0 Hy0. unfold change_pct_cases in Hb.
      apply Qeq_bool_iff in Hx0. rewrite Hx0 in Hb.
      assert (Hne : Qeq_bool y 0 = false).
      { apply not_true_is_false. intros ?%Qeq_bool_iff. lra. }
      assert (Hlt : qltb 0 y = true) by (by apply qltb_spec).
      by rewrite Hne, Hlt in Hb.
  - intros Hi. apply H5. change (pct_5yr dv) with (pct_of H5yr dv).
    unfold dv. rewrite pct_of_derived_at. by apply cell_pct_window_early.
  - intros Hi. apply H2. change (pct_2yr dv) with (pct_of H2yr dv).
    unfold dv. rewrite pct_of_derived_at. by apply cell_pct_window_early.
  - intros Hi. apply H1. change (pct_1yr dv) with (pct_of H1yr dv).
    unfold dv. rewrite pct_of_derived_at. by apply cell_pct_window_early.
Qed.

(** ** Annotations: colour and subplot *)

(** X16. The annotation of a record whose previous value is not zero
    (and whose quotient to it is at most [2 ^ 53]) carries the date and
    the value of the record. With [x] the exact change in percent and
    the tolerance of the double computation, about 0.05: above the
    tolerance the annotation is green, below 0.1 less the tolerance it
    is red, so that no change and a rise that rounds to 0.0 are red.
    Green is only given to a percentage above zero: for a positive
    previous value to a rise, for a negative one to a fall. *)
Theorem annotation_color d0 c i r x y sep sel :
  let p := prepare d0 in
  c ∈ columns p -> rows p !! S i = Some r ->
  value p i c = Some x -> cells r !! c = Some y -> ~ x == 0 ->
  Qabs y <= 2 ^ 53 * Qabs x ->
  exists E er pa,
    derive d0 = Some E /\ e_rows E !! S i = Some er /\
    annotate sep sel c er = Some [Point pa] /\
    ann_x pa = date r /\ ann_y pa = Some y /\
    let pct := (y / x - 1) * 100 in
    (double_tolerance pct < pct -> ann_color pa = green) /\
    (pct < (1 # 10) - double_tolerance pct -> ann_color pa = red) /\
    (y == x -> ann_color pa = red) /\
    (ann_color pa = green -> 0 < pct) /\
    (0 < x -> ann_color pa = green -> x < y) /\
    (x < 0 -> ann_color pa = green -> y < x).
Proof.
  intros p Hc Hr Hx Hy Hx0 Hb.
  destruct (field_add_changes p (S i) c r Hr Hc) as (m & _ & HE & HF).
  set (cy := year m) in *. set (dv := derived_at cy (rows p) c (S i)) in *.
  assert (Her : e_rows (enrich cy p) !! S i
                = Some (mk_erow (date r) (cells r)
                          (derived_row ((fun c => (c, derive_column cy (rows p) c))
                                          <$> columns p) (S i)))).
  { by rewrite lookup_enrich, Hr. }
  assert (Hdv : derived_row ((fun c => (c, derive_column cy (rows p) c)) <$> columns p) (S i)
                  !! c = Some dv).
  { by rewrite lookup_derived_row, bool_decide_eq_true_2. }
  assert (Hcur : value p (S i) c = Some y) by (unfold value; by rewrite Hr).
  destruct (change_pct_cases_bound x y Hx0 Hb) as (k & Hk & Hbound).
  assert (Hpct : change_pct dv = Fin (inject_Z k / 10)).
  { unfold dv. rewrite derived_change_pct by (by eapply lookup_lt_Some).
    unfold p. rewrite pad_prepared. fold p.
    by rewrite <- !value_cell, Hx, Hcur. }
  assert (Hg : qltb 0 (inject_Z k / 10) = true <-> (0 < k)%Z).
  { rewrite qltb_spec, (Zlt_Qlt 0 k). change (inject_Z 0) with 0.
    set (q := inject_Z k).
    assert (D : q / 10 == q * (1 # 10)) by field.
    rewrite D. split; intros; lra. }
  eexists _, _, _. split; [exact HE|]. split; [exact Her|].
  split.
  { unfold annotate. cbn [e_derived e_date e_cells]. rewrite Hdv. cbn [mbind option_bind].
    rewrite Hpct. cbn [isna]. reflexivity. }
  cbn [ann_x ann_y ann_text ann_color fpositive].
  split; [done|]. split; [done|]. cbv zeta.
  destruct (double_tolerance_sign k _ Hbound) as (S1 & S2 & S3 & S4 & S5).
  assert (Hgreen : (if qltb 0 (inject_Z k / 10) then green else red) = green <-> (0 < k)%Z).
  { rewrite <- Hg. clear Hg. destruct (qltb 0 (inject_Z k / 10)); split; done. }
  assert (Hred : (if qltb 0 (inject_Z k / 10) then green else red) = red <-> (k <= 0)%Z).
  { destruct (Z_lt_le_dec 0 k) as [L|L].
    - assert (G : qltb 0 (inject_Z k / 10) = true) by (by apply Hg).
      rewrite G. split; [done|lia].
    - assert (G : qltb 0 (inject_Z k / 10) = false).
      { apply not_true_is_false. intros G. apply Hg in G. lia. }
      rewrite G. split; done. }
  assert (Hy' : y == y / x * x) by (field; exact Hx0).
  split; [|split; [|split; [|split; [|split]]]].
  - intros H. apply Hgreen. by apply S4.
  - intros H. apply Hred. by apply S5.
  - intros Hyx. apply Hred.
    assert (Z0 : (y / x - 1) * 100 == 0) by (rewrite Hyx; field; exact Hx0).
    rewrite (S3 Z0). lia.
  - intros H. apply Hgreen in H. by apply S1.
  - intros Hs H. apply Hgreen in H. specialize (S1 H).
    set (t := y / x) in *. clearbody t. nra.
  - intros Hs H. apply Hgreen in H. specialize (S1 H).
    set (t := y / x) in *. clearbody t. nra.
Qed.

Lemma index_of_lookup l k c : NoDup l -> l !! k = Some c -> index_of c l = k.
Proof.
  revert k. induction l as [|x l IH]; intros k HN Hk; [done|].
  apply NoDup_cons in HN as [Hx HN]. destruct k as [|k]; simplify_eq/=.
  - by rewrite bool_decide_eq_true_2.
  - rewrite bool_decide_eq_false_2; [by rewrite (IH k)|].
    intros ->. apply Hx. by eapply list_elem_of_lookup_2.
Qed.

(** X17. With distinct column names and separate plots, the
    annotations of the selected column in position [k] name the subplot
    [k + 1], which is the subplot row its trace is drawn in, and which
    is one of the rows of the figure. *)
Theorem annotation_subplot_is_trace_row checked d k c :
  NoDup (columns d) ->
  let sel := selected_cols checked d in
  sel !! k = Some c ->
  (c, S k) ∈ trace_rows sel /\
  (forall row, (c, row) ∈ trace_rows sel -> row = S k) /\
  (1 <= S k <= length sel)%nat /\
  (forall r anns a, annotate true sel c r = Some anns -> a ∈ anns ->
     exists pa, a = Point pa /\ ann_subplot pa = Some (S k)).
Proof.
  intros HN sel Hk.
  assert (HS : NoDup sel) by (by apply NoDup_selected_cols).
  split; [|split; [|split]].
  - unfold trace_rows. apply list_elem_of_lookup. exists k.
    by rewrite list_lookup_imap, Hk.
  - intros row Hrow. unfold trace_rows in Hrow.
    apply list_elem_of_lookup in Hrow as [j Hj]. rewrite list_lookup_imap in Hj.
    destruct (sel !! j) as [c'|] eqn:Ej; simplify_eq/=.
    f_equal. by eapply NoDup_lookup.
  - apply lookup_lt_Some in Hk. lia.
  - intros r anns a Ha Hin. unfold annotate in Ha.
    destruct (e_derived r !! c) as [dv|]; simplify_eq/=.
    destruct (isna (change_pct dv)); [by apply elem_of_nil in Hin|].
    apply list_elem_of_singleton in Hin as ->. eexists. split; [done|]. simpl.
    by rewrite (index_of_lookup sel k c).
Qed.

(** ** Market participation *)

Lemma elem_of_plot_cols c d :
  c ∈ plot_cols d <-> c ∈ columns d /\ c ∉ ["None"; "contract_code"; "type"; "date"].
Proof. unfold plot_cols. rewrite list_elem_of_filter. tauto. Qed.

(** X18. Market participation is never among the selected columns; it
    comes in only through its own checkbox, which exists only when the
    frame has the column, so that the second test of line 433 never
    decides. The function stops after the selection exactly when no
    regular column is checked and market participation is unchecked or
    absent. In the single plot no secondary axis is drawn for any
    input: whenever market participation is included, the axis is
    placed at 1.02, which is not a position from 0 to 1, and the update
    of the layout raises. *)
Theorem market_participation_axis checked mp_checked d :
  ("market_participation" ∉ selected_cols checked d) /\
  (proceeds checked mp_checked d = false <->
     (forall c, c ∈ regular_plot_cols d -> checked c = false) /\
     (mp_checked = false \/ "market_participation" ∉ columns d)) /\
  has_secondary_axis mp_checked d = include_market_participation mp_checked d /\
  (single_plot_axis mp_checked d = None <->
     mp_checked = true /\ "market_participation" ∈ columns d) /\
  (single_plot_axis mp_checked d = Some None <->
     mp_checked = false \/ "market_participation" ∉ columns d).
Proof.
  assert (Hmp : "market_participation" ∈ plot_cols d <-> "market_participation" ∈ columns d).
  { rewrite elem_of_plot_cols. split; [tauto|]. intros H. split; [done|].
    rewrite !not_elem_of_cons. repeat split; (done || apply not_elem_of_nil). }
  assert (Hinc : include_market_participation mp_checked d = true <->
                 mp_checked = true /\ "market_participation" ∈ columns d).
  { unfold include_market_participation. rewrite <- Hmp. case_bool_decide.
    - split; [done|]. by intros [? _].
    - split; [done|]. by intros [_ ?]. }
  assert (Hax : has_secondary_axis mp_checked d = include_market_participation mp_checked d).
  { unfold has_secondary_axis.
    destruct (include_market_participation mp_checked d) eqn:E; [|done].
    simpl. unfold has. apply bool_decide_eq_true_2. by apply Hinc. }
  assert (H2 : include_market_participation mp_checked d = false <->
               mp_checked = false \/ "market_participation" ∉ columns d).
  { split.
    - intros E. destruct mp_checked; [|by left]. right. intros Hin.
      assert (X : include_market_participation true d = true) by (by apply Hinc).
      congruence.
    - intros H. apply not_true_is_false. intros E.
      apply Hinc in E as [-> Hin]. by destruct H. }
  split; [|split; [|split; [exact Hax|split]]].
  - rewrite elem_of_selected_cols, !not_elem_of_cons. tauto.
  - unfold proceeds. rewrite negb_false_iff, andb_true_iff, negb_true_iff.
    rewrite bool_decide_eq_true.
    assert (H1 : selected_cols checked d = [] <->
                 forall c, c ∈ regular_plot_cols d -> checked c = false).
    { split.
      - intros Hnil c Hc. destruct (checked c) eqn:Ec; [|done]. exfalso.
        assert (Hin : c ∈ selected_cols checked d).
        { apply elem_of_selected_cols. apply elem_of_regular_plot_cols in Hc. tauto. }
        rewrite Hnil in Hin. by apply elem_of_nil in Hin.
      - intros Hall. destruct (selected_cols checked d) as [|c l] eqn:E; [done|]. exfalso.
        assert (Hin : c ∈ selected_cols checked d) by (rewrite E; by left).
        apply elem_of_selected_cols in Hin as (H & Hc & Hn).
        rewrite Hall in Hc; [done|]. by apply elem_of_regular_plot_cols. }
    by rewrite H1, H2.
  - unfold single_plot_axis. rewrite Hax, <- Hinc.
    destruct (include_market_participation mp_checked d); [|done]. by vm_compute.
  - unfold single_plot_axis. rewrite Hax, <- H2.
    destruct (include_market_participation mp_checked d); [|done]. by vm_compute.
Qed.

(** ** The further statements at concrete frames *)

(** X1: [change_value] at the second row of [two_years]. *)
Lemma change_value_witness :
  exists E dv, add_changes two_years = Some E /\ field E 1 "open_interest" = Some dv /\
    change dv = (x ← cells second_week !! "open_interest";
                 y ← value two_years 0 "open_interest"; Some (x - y)) /\
    (change dv = None <->
       1%nat = O \/ cells second_week !! "open_interest" = None \/
       exists j, 1%nat = S j /\ value two_years j "open_interest" = None).
Proof.
  apply (change_value two_years "open_interest" 1 second_week); [by left|reflexivity].
Defined.

(** X2: [change_pct_from_change] at the second row of [two_years]. *)
Lemma change_pct_from_change_witness :
  exists E dv, derive two_years = Some E /\ field E 1 "open_interest" = Some dv /\
    match change dv with
    | Some ch =>
        exists k : Z, change_pct dv = Fin (inject_Z k / 10) /\
          Qabs (inject_Z k / 10 - ch / 5 * 100) <= double_tolerance (ch / 5 * 100) /\
          (ch == 0 -> k = 0%Z) /\
          ((0 < k)%Z -> 0 < ch / 5) /\ ((k < 0)%Z -> ch / 5 < 0)
    | None => change_pct dv = NaN
    end.
Proof.
  apply (change_pct_from_change two_years "open_interest" 0 second_week 5).
  - by left.
  - by vm_compute.
  - by vm_compute.
  - by vm_compute.
  - intros v [= <-]. by vm_compute.
Defined.

(** X3: [ffill_most_recent] at the second row of [two_years]. *)
Lemma ffill_most_recent_witness :
  value (mk_frame ["open_interest"] (ffill (rows two_years))) 1 "open_interest"
    = last (present (take 2 (column "open_interest" (rows two_years)))) /\
  date <$> ffill (rows two_years) = date <$> rows two_years /\
  ffill (ffill (rows two_years)) = ffill (rows two_years).
Proof.
  apply (ffill_most_recent ["open_interest"] (rows two_years) "open_interest" 1).
  simpl. lia.
Defined.

(** X6: [percentiles_in_range] at the fourth row of [two_years]. *)
Lemma percentiles_in_range_witness :
  exists E dv, add_changes two_years = Some E /\ field E 3 "open_interest" = Some dv /\
    (forall h q, pct_of h dv = Some q -> 0 <= q /\ q <= 100) /\
    (forall q, pct_ytd dv = Some q -> 0 < q /\ q <= 100).
Proof.
  apply (percentiles_in_range two_years "open_interest" 3
           (one_col "open_interest" 2024 1 8 1)); [by left|reflexivity].
Defined.

(** X7: [trailing_rank_extremes] at the last of 52 rising weekly values. *)
Lemma trailing_rank_extremes_witness :
  let d := weekly "open_interest" rising 52 in
  let pre := nat_to_Q <$> seq 0 51 in
  exists E dv, add_changes d = Some E /\ field E 51 "open_interest" = Some dv /\
    (Forall (fun x => x < 51) pre -> exists q, pct_of H1yr dv = Some q /\ q == 100) /\
    (Forall (fun x => 51 < x) pre -> pct_of H1yr dv = Some 1.9).
Proof.
  apply (trailing_rank_extremes H1yr (weekly "open_interest" rising 52) "open_interest" 51
           (mk_row (week_date 51) {[ "open_interest" := 51 ]})
           (nat_to_Q <$> seq 0 51) 51).
  - by left.
  - by vm_compute.
  - simpl. lia.
  - by vm_compute.
Defined.

(** X8: [selected_cols_checked] on the legacy frame with the commercial
    columns checked. *)
Lemma selected_cols_checked_witness :
  let d := legacy_with_spreading in
  selected_cols commercial_checked d
    = filter (fun c => commercial_checked c = true) (net_position_cols d)
      ++ filter (fun c => commercial_checked c = true) (original_cols d) /\
  NoDup (selected_cols commercial_checked d) /\
  (forall c, c ∈ selected_cols commercial_checked d <->
     c ∈ columns d /\ commercial_checked c = true /\
     c ∉ ["None"; "contract_code"; "type"; "date"; "market_participation"]) /\
  (forall E c r, add_changes d = Some E ->
     c ∈ selected_cols commercial_checked d -> r ∈ e_rows E -> is_Some (e_derived r !! c)).
Proof.
  apply (selected_cols_checked commercial_checked legacy_with_spreading).
  apply (bool_decide_unpack _). by vm_compute.
Defined.

(** X10: [default_range_last_89] on [two_years]. *)
Lemma default_range_last_89_witness :
  let d := two_years in
  exists s e,
    default_range (rows d) = Some (s, e) /\
    max_date (date <$> rows d) = Some e /\
    s ∈ date <$> rows d /\
    (forall r, r ∈ plot_data s e d <->
       r ∈ rows d /\
       (length (filter (date_le (date r)) (all_dates (rows d))) <= 89)%nat) /\
    (NoDup (date <$> rows d) ->
       num_periods s e d = Nat.min 89 (length (rows d)) /\
       (num_periods s e d <= 90)%nat).
Proof. apply (default_range_last_89 two_years). done. Defined.

(** X11: [window_contiguous] on [two_years], over the three middle weeks. *)
Lemma window_contiguous_witness :
  let s := mk_date 2023 12 25 in
  let e := mk_date 2024 1 8 in
  let E := enrich 2024 (prepare two_years) in
  let p := prepare two_years in
  let a := rows_before s p in
  let n := num_periods s e p in
  plot_data s e p = take n (drop a (rows p)) /\
  e_rows (window s e E) = take n (drop a (e_rows E)) /\
  length (e_rows (window s e E)) = n /\
  (forall j er, e_rows (window s e E) !! j = Some er ->
     exists r, plot_data s e p !! j = Some r /\ e_date er = date r /\ e_cells er = cells r) /\
  (forall j er' er c, c ∈ columns p ->
     e_rows (window s e E) !! j = Some er' -> e_rows (window s e E) !! S j = Some er ->
     exists dv, e_derived er !! c = Some dv /\
                change dv = osub (e_cells er !! c) (e_cells er' !! c)).
Proof.
  apply (window_contiguous two_years (mk_date 2023 12 25) (mk_date 2024 1 8)
           (enrich 2024 (prepare two_years))).
  reflexivity.
Defined.

(** X12: [default_color] at [open_interest]. *)
Lemma default_color_witness :
  get_color_for_column "open_interest" = None <->
  Forall (fun k => contains k (lower "open_interest") = false) color_keywords.
Proof. apply (default_color "open_interest"). reflexivity. Defined.

(** X13: [label_color_matches_trace] at [non_commercial_longs]. *)
Lemma label_color_matches_trace_witness :
  let c := "non_commercial_longs" in
  (original_label_color c = "blue" <-> get_color_for_column c = Some "#1f77b4") /\
  (original_label_color c = "red" <-> get_color_for_column c = Some "#d62728") /\
  (original_label_color c = "orange" <-> get_color_for_column c = Some "#B8860B") /\
  (contains "non_commercial" (lower c) = true ->
     original_label_color c = "blue" /\ get_color_for_column c = Some "#1f77b4").
Proof. apply (label_color_matches_trace "non_commercial_longs"); reflexivity. Defined.

(** X14: [net_columns_colored] at the commercial net of the legacy frame. *)
Lemma net_columns_colored_witness :
  let d := legacy_with_spreading in
  let c := "Commercial Net" in
  c ∈ net_position_cols (add_net_columns d) /\
  (c, net_label_color c, get_color_for_column c) ∈
    [ ("Commercial Net", "red", Some "#d62728");
      ("Large Speculator Net", "blue", Some "#1f77b4");
      ("Other Reportables Net", "violet", Some "#9467bd");
      ("Swap Dealer Net", "orange", Some "#ff7f0e");
      ("Small Speculator Net", "orange", Some "#B8860B") ].
Proof.
  apply (net_columns_colored legacy_with_spreading "Commercial Net").
  - apply (bool_decide_unpack _). by vm_compute.
  - apply (bool_decide_unpack _). by vm_compute.
Defined.

(** X15: [hover_text_lines] at the second row of [two_years]. *)
Lemma hover_text_lines_witness :
  let p := prepare two_years in
  let c := "open_interest" in
  exists E er h,
    derive two_years = Some E /\ e_rows E !! 1%nat = Some er /\
    create_hover_text er c = Some h /\
    (Lit "Change: N/A" ∈ h <-> 1%nat = O \/ exists j, 1%nat = S j /\ value p j c = None) /\
    (forall j x y, 1%nat = S j -> value p j c = Some x -> cells second_week !! c = Some y ->
       Num "+,.0f" (Fin (y - x)) ∈ h /\
       (x == 0 -> y == 0 -> Num "+.1f" NaN ∈ h) /\
       (x == 0 -> 0 < y -> Num "+.1f" PInf ∈ h)) /\
    ((2 < 260)%nat -> Lit "5Y Percentile: N/A" ∈ h) /\
    ((2 < 104)%nat -> Lit "2Y Percentile: N/A" ∈ h) /\
    ((2 < 52)%nat -> Lit "1Y Percentile: N/A" ∈ h).
Proof.
  apply (hover_text_lines two_years "open_interest" 1 second_week).
  - by left.
  - by vm_compute.
Defined.

(** X16: [annotation_color] at the second row of [two_years], a rise
    from 5 to 7. *)
Lemma annotation_color_witness :
  exists E er pa,
    derive two_years = Some E /\ e_rows E !! 1%nat = Some er /\
    annotate false ["open_interest"] "open_interest" er = Some [Point pa] /\
    ann_x pa = date second_week /\ ann_y pa = Some 7 /\
    let pct := (7 / 5 - 1) * 100 in
    (double_tolerance pct < pct -> ann_color pa = green) /\
    (pct < (1 # 10) - double_tolerance pct -> ann_color pa = red) /\
    (7 == 5 -> ann_color pa = red) /\
    (ann_color pa = green -> 0 < pct) /\
    (0 < 5 -> ann_color pa = green -> 5 < 7) /\
    (5 < 0 -> ann_color pa = green -> 7 < 5).
Proof.
  apply (annotation_color two_years "open_interest" 0 second_week 5 7 false ["open_interest"]).
  - by left.
  - by vm_compute.
  - by vm_compute.
  - by vm_compute.
  - by vm_compute.
  - by vm_compute.
Defined.

(** X17: [annotation_subplot_is_trace_row] at the second checked column
    of the legacy frame. *)
Lemma annotation_subplot_is_trace_row_witness :
  let sel := selected_cols commercial_checked legacy_with_spreading in
  let c := "commercial_shorts" in
  (c, 2%nat) ∈ trace_rows sel /\
  (forall row, (c, row) ∈ trace_rows sel -> row = 2%nat) /\
  (1 <= 2 <= length sel)%nat /\
  (forall r anns a, annotate true sel c r = Some anns -> a ∈ anns ->
     exists pa, a = Point pa /\ ann_subplot pa = Some 2%nat).
Proof.
  apply (annotation_subplot_is_trace_row commercial_checked legacy_with_spreading 1
           "commercial_shorts").
  - apply (bool_decide_unpack _). by vm_compute.
  - by vm_compute.
Defined.
